(** * Contour extraction and connected components of ViSP's imgproc module

    A shallow embedding of [vpContours.h] / [vpContour.cpp] (border
    following after Suzuki and Abe) and of [vpConnectedComponents.cpp]
    (expansion and two-pass labelling), with the properties of the
    natural-language specification stated over it.

    Conventions of the embedding:
    - C++ [int], [unsigned int] and [unsigned char] values are integers of
      [Z]; a narrowing conversion is written out ([Z.modulo] by [2^8] or
      [2^32]) at the place where the source performs it.
    - [vpImage<T>] is a record of its height, its width and its rows;
      [I[i][j]] is [get I i j] and [I[i][j] = v] is [set I i j v].
    - [vpImagePoint] carries two doubles in the source; every point built
      by this code has integral coordinates, so a point is a pair of [Z].
    - Pointers to [vpContour] are addresses into an explicit heap.
    - In the modules [Labeling] and [Contour] the images are values; the
      module [Memory] places them in a store, where every image passed by
      reference is an address, and relates the two. *)

From Stdlib Require Import ZArith Lia.
From stdpp Require Import gmap list sorting.

Local Open Scope Z_scope.

(** ** The raster container *)

Module Image.

Record vpImage := mkImage {
  getHeight : Z;
  getWidth : Z;
  rows : list (list Z)
}.

(** [npixels = width * height]. *)
Definition getSize (I : vpImage) : Z := getHeight I * getWidth I.

(** A well-formed image holds [getHeight] rows of [getWidth] samples. *)
Definition wf_image (I : vpImage) : Prop :=
  0 <= getHeight I /\ 0 <= getWidth I /\
  length (rows I) = Z.to_nat (getHeight I) /\
  Forall (fun r => length r = Z.to_nat (getWidth I)) (rows I).

Definition wf_imageb (I : vpImage) : bool :=
  (0 <=? getHeight I) && (0 <=? getWidth I) &&
  Nat.eqb (length (rows I)) (Z.to_nat (getHeight I)) &&
  forallb (fun r => Nat.eqb (length r) (Z.to_nat (getWidth I))) (rows I).

Definition inside (I : vpImage) (i j : Z) : Prop :=
  0 <= i < getHeight I /\ 0 <= j < getWidth I.

(** [I[i][j]].  An access outside the allocated rows, which is undefined
    in the source, reads 0 in the model: the labellers stay inside their
    bordered copies and the contour tracer tests its coordinates before it
    reads a sample.  The neighbourhood functions of the labellers index
    the rows around a pixel without a test; what is proved of them on
    their own is stated for pixels off the rim of the raster. *)
Definition get (I : vpImage) (i j : Z) : Z :=
  if (0 <=? i) && (0 <=? j)
  then default 0 (rows I !! Z.to_nat i ≫= fun r => r !! Z.to_nat j)
  else 0.

(** [I[i][j] = v]. *)
Definition set (I : vpImage) (i j v : Z) : vpImage :=
  if (0 <=? i) && (0 <=? j)
  then mkImage (getHeight I) (getWidth I)
         (alter (fun r => <[Z.to_nat j := v]> r) (Z.to_nat i) (rows I))
  else I.

(** [vpImage<T> I(height, width, value)]. *)
Definition make (h w v : Z) : vpImage :=
  mkImage h w (replicate (Z.to_nat h) (replicate (Z.to_nat w) v)).

Lemma wf_imageb_spec I : wf_imageb I = true <-> wf_image I.
Proof.
  unfold wf_imageb, wf_image.
  rewrite !andb_true_iff, !Z.leb_le, Nat.eqb_eq, forallb_forall, Forall_forall.
  split.
  - intros [[[? ?] ?] Hr]. repeat split; try done.
    intros r Hin. apply Nat.eqb_eq, Hr. by apply list_elem_of_In.
  - intros (? & ? & ? & Hr). repeat split; try done.
    intros r Hin. apply Nat.eqb_eq, Hr. by apply list_elem_of_In.
Qed.

Lemma getHeight_set I i j v : getHeight (set I i j v) = getHeight I.
Proof. unfold set. by destruct (_ && _). Qed.

Lemma getWidth_set I i j v : getWidth (set I i j v) = getWidth I.
Proof. unfold set. by destruct (_ && _). Qed.

Lemma wf_set I i j v : wf_image I -> wf_image (set I i j v).
Proof.
  intros (Hh & Hw & Hl & Hr). unfold set.
  destruct (_ && _); [|done].
  repeat split; simpl; try done.
  - by rewrite length_alter.
  - apply Forall_alter; [done|]. intros r _ Hlen. by rewrite length_insert.
Qed.

Lemma get_outside I i j : wf_image I -> ~ inside I i j -> get I i j = 0.
Proof.
  intros (Hh & Hw & Hl & Hr) Hout. unfold get.
  destruct (0 <=? i) eqn:Hi; [|done].
  destruct (0 <=? j) eqn:Hj; [|done]. simpl.
  apply Z.leb_le in Hi, Hj.
  destruct (rows I !! Z.to_nat i) as [r|] eqn:Hrow; [|done]. simpl.
  destruct (r !! Z.to_nat j) as [x|] eqn:Hx; [|done]. exfalso.
  apply lookup_lt_Some in Hrow as Hlt.
  rewrite Forall_forall in Hr.
  assert (Hlr : length r = Z.to_nat (getWidth I))
    by (apply Hr; eapply list_elem_of_lookup_2; eauto).
  apply lookup_lt_Some in Hx.
  apply Hout. unfold inside. lia.
Qed.

Lemma get_nonzero_inside I i j : wf_image I -> get I i j <> 0 -> inside I i j.
Proof.
  intros Hwf Hne. destruct (decide (inside I i j)) as [|Hout]; [done|].
  by rewrite get_outside in Hne.
Qed.

Lemma get_set_same I i j v :
  wf_image I -> inside I i j -> get (set I i j v) i j = v.
Proof.
  intros (Hh & Hw & Hl & Hr) [Hi Hj]. unfold get, set.
  assert (H0i : (0 <=? i) = true) by (apply Z.leb_le; lia).
  assert (H0j : (0 <=? j) = true) by (apply Z.leb_le; lia).
  rewrite H0i, H0j. simpl.
  rewrite list_lookup_alter_eq.
  destruct (rows I !! Z.to_nat i) as [r|] eqn:Hrow.
  - simpl. rewrite Forall_forall in Hr.
    assert (Hlr : length r = Z.to_nat (getWidth I))
      by (apply Hr; eapply list_elem_of_lookup_2; eauto).
    rewrite list_lookup_insert_eq by lia. done.
  - apply lookup_ge_None in Hrow. lia.
Qed.

Lemma get_set_other I i j v i' j' :
  (i, j) <> (i', j') -> get (set I i j v) i' j' = get I i' j'.
Proof.
  intros Hne. unfold get, set.
  destruct (0 <=? i) eqn:Hi; [|done].
  destruct (0 <=? j) eqn:Hj; [|done]. simpl.
  destruct (0 <=? i') eqn:Hi'; [|done].
  destruct (0 <=? j') eqn:Hj'; [|done]. simpl.
  apply Z.leb_le in Hi, Hj, Hi', Hj'.
  destruct (decide (Z.to_nat i = Z.to_nat i')) as [Heq|Hd].
  - rewrite Heq, list_lookup_alter_eq.
    destruct (rows I !! Z.to_nat i') as [r|]; [|done]. simpl.
    rewrite list_lookup_insert_ne; [done|].
    intros Hjj. apply Hne. f_equal; lia.
  - by rewrite list_lookup_alter_ne.
Qed.

Lemma inside_set I i j v a b : inside (set I i j v) a b <-> inside I a b.
Proof. unfold inside. by rewrite getHeight_set, getWidth_set. Qed.

Lemma wf_make h w v : 0 <= h -> 0 <= w -> wf_image (make h w v).
Proof.
  intros Hh Hw. unfold make. repeat split; simpl; try done.
  - by rewrite length_replicate.
  - apply Forall_replicate. by rewrite length_replicate.
Qed.

Lemma get_make h w v i j :
  0 <= i < h -> 0 <= j < w -> get (make h w v) i j = v.
Proof.
  intros Hi Hj. unfold get, make; simpl.
  assert (H0i : (0 <=? i) = true) by (apply Z.leb_le; lia).
  assert (H0j : (0 <=? j) = true) by (apply Z.leb_le; lia).
  rewrite H0i, H0j. simpl.
  rewrite lookup_replicate_2 by lia. simpl.
  rewrite lookup_replicate_2 by lia. done.
Qed.

End Image.

(** ** Connected components: the two labellers of vpConnectedComponents.cpp *)

Module Labeling.
Import Image.

Inductive vpConnectedConnexityType :=
  | CONNECTED_CONNEXITY_4
  | CONNECTED_CONNEXITY_8.

Definition vpImagePoint : Type := Z * Z.

(** [for (k = 0; k < n; k++) body], threaded through a state; [None] is
    propagated (it stands for a traversal that ran out of its bound). *)
Definition for_loop {St : Type} (n : Z) (body : Z -> St -> option St) (s : St)
  : option St :=
  foldl (fun acc k => acc ≫= body k) (Some s) (seqZ 0 n).

(** [listOfNeighbors.push(p)] under a condition. *)
Definition push_if (b : bool) (p : vpImagePoint) (q : list vpImagePoint)
  : list vpImagePoint :=
  if b then q ++ [p] else q.

Definition getNeighbors (I : vpImage) (listOfNeighbors : list vpImagePoint)
    (i j : Z) (connexity : vpConnectedConnexityType) : list vpImagePoint :=
  let currValue := get I i j in
  match connexity with
  | CONNECTED_CONNEXITY_4 =>
      (* Top, Left, Right, Bottom *)
      let q := push_if (get I (i - 1) j =? currValue) (i - 1, j) listOfNeighbors in
      let q := push_if (get I i (j - 1) =? currValue) (i, j - 1) q in
      let q := push_if (get I i (j + 1) =? currValue) (i, j + 1) q in
      push_if (get I (i + 1) j =? currValue) (i + 1, j) q
  | CONNECTED_CONNEXITY_8 =>
      foldl (fun q cpt1 =>
        foldl (fun q cpt2 =>
          if negb (cpt1 =? 0) || negb (cpt2 =? 0)
          then push_if (get I (i + cpt1) (j + cpt2) =? currValue)
                       (i + cpt1, j + cpt2) q
          else q) q [-1; 0; 1])
        listOfNeighbors [-1; 0; 1]
  end.

(** The [while (!listOfNeighbors.empty())] loop of [visitNeighbors]; the
    recursion is bounded by [fuel] and [None] means the bound was reached
    before the queue emptied. *)
Fixpoint visitNeighbors_loop (fuel : nat) (I_copy : vpImage)
    (listOfNeighbors : list vpImagePoint) (labels : vpImage)
    (current_label : Z) (connexity : vpConnectedConnexityType)
  : option (vpImage * vpImage) :=
  match fuel with
  | O => None
  | S fuel' =>
      match listOfNeighbors with
      | [] => Some (I_copy, labels)
      | (i, j) :: rest =>
          if negb (get I_copy i j =? 0)
          then
            let q := getNeighbors I_copy rest i j connexity in
            visitNeighbors_loop fuel' (set I_copy i j 0) q
              (set labels i j current_label) current_label connexity
          else visitNeighbors_loop fuel' I_copy rest labels current_label connexity
      end
  end.

(** Number of nonzero samples of a row and of an image. *)
Definition row_nz (r : list Z) : nat := length (filter (fun v => v <> 0) r).

Definition count_nz (I : vpImage) : nat := sum_list (row_nz <$> rows I).

(** Every iteration either consumes a queue entry or zeroes a nonzero
    sample while pushing at most eight entries: this many iterations are
    always enough (lemma [visitNeighbors_loop_inv]). *)
Definition visit_bound (I_copy : vpImage) (q : list vpImagePoint) : nat :=
  S (9 * count_nz I_copy + length q).

Definition visitNeighbors (I_copy : vpImage) (listOfNeighbors : list vpImagePoint)
    (labels : vpImage) (current_label : Z)
    (connexity : vpConnectedConnexityType) : option (vpImage * vpImage) :=
  visitNeighbors_loop (visit_bound I_copy listOfNeighbors)
    I_copy listOfNeighbors labels current_label connexity.

(** "Copy and add border": rows 0 and [H+1] are zero, row [i] is
    [0, I[i-1][0..W-1], 0]. *)
Definition add_border (I : vpImage) : vpImage :=
  let zeros := replicate (Z.to_nat (getWidth I + 2)) 0 in
  mkImage (getHeight I + 2) (getWidth I + 2)
    (zeros :: map (fun r => 0 :: r ++ [0]) (rows I) ++ [zeros]).

(** The closing [memcpy] loop: [labels[i] = labels_copy[i+1][1..W]]. *)
Definition remove_border (h w : Z) (L : vpImage) : vpImage :=
  mkImage h w
    (map (fun r => take (Z.to_nat w) (drop 1 r))
         (take (Z.to_nat h) (drop 1 (rows L)))).

(** What the caller holds across a call: the input image (passed by const
    reference) and the two output arguments (passed by reference). *)
Record caller := mkCaller {
  arg_I : vpImage;
  arg_labels : vpImage;
  arg_nbComponents : Z
}.

Record scan_state := mkScan {
  I_copy : vpImage;
  labels_copy : vpImage;
  current_label : Z
}.

(** Body of the double loop of [connectedComponents] at [(cpt1, cpt2)]. *)
Definition expand_pixel (connexity : vpConnectedConnexityType)
    (cpt1 cpt2 : Z) (st : scan_state) : option scan_state :=
  let i := cpt1 + 1 in
  let j := cpt2 + 1 in
  if negb (get (I_copy st) i j =? 0) && (get (labels_copy st) i j =? 0)
  then
    let q := getNeighbors (I_copy st) [] i j connexity in
    let I1 := set (I_copy st) i j 0 in
    let L1 := set (labels_copy st) i j (current_label st) in
    match visitNeighbors I1 q L1 (current_label st) connexity with
    | Some (I2, L2) => Some (mkScan I2 L2 (current_label st + 1))
    | None => None
    end
  else Some st.

Definition connectedComponents (c : caller)
    (connexity : vpConnectedConnexityType) : option caller :=
  let I := arg_I c in
  if getSize I =? 0 then Some c
  else
    let st0 := mkScan (add_border I)
                 (make (getHeight I + 2) (getWidth I + 2) 0) 1 in
    match for_loop (getHeight I)
            (fun cpt1 => for_loop (getWidth I)
               (fun cpt2 => expand_pixel connexity cpt1 cpt2)) st0 with
    | Some st =>
        Some (mkCaller I
                (remove_border (getHeight I) (getWidth I) (labels_copy st))
                (current_label st - 1))
    | None => None
    end.

(** *** Two-pass variant *)

(** [s.insert(v)] under a condition. *)
Definition insert_if (b : bool) (v : Z) (s : gset Z) : gset Z :=
  if b then {[v]} ∪ s else s.

Definition getNeighborLabels (I labels : vpImage) (i j : Z)
    (connexity : vpConnectedConnexityType) : gset Z :=
  let currValue := get I i j in
  match connexity with
  | CONNECTED_CONNEXITY_4 =>
      let s := insert_if ((get I (i - 1) j =? currValue)
                          && negb (get labels (i - 1) j =? 0))
                 (get labels (i - 1) j) ∅ in
      insert_if ((get I i (j - 1) =? currValue)
                 && negb (get labels i (j - 1) =? 0))
        (get labels i (j - 1)) s
  | CONNECTED_CONNEXITY_8 =>
      let s := foldl (fun s cpt2 =>
                 insert_if ((get I (i - 1) (j + cpt2) =? currValue)
                            && negb (get labels (i - 1) (j + cpt2) =? 0))
                   (get labels (i - 1) (j + cpt2)) s) ∅ [-1; 0; 1] in
      insert_if ((get I i (j - 1) =? currValue)
                 && negb (get labels i (j - 1) =? 0))
        (get labels i (j - 1)) s
  end.

(** Elements of a [std::set<int>] in iteration order. *)
Definition set_elements (s : gset Z) : list Z := merge_sort Z.le (elements s).

(** [*s.begin()]: the smallest element (0 stands for the undefined
    dereference of an empty set, which the code never performs: every
    provisional label has itself in its set). *)
Definition set_begin (s : gset Z) : Z := default 0 (head (set_elements s)).

(** [equivalent_labels[k]]: the mapped set, empty when [k] has no entry. *)
Definition at_key (m : gmap Z (gset Z)) (k : Z) : gset Z := default ∅ (m !! k).

Record pass_state := mkPass {
  p_labels_copy : vpImage;
  p_current_label : Z;
  equivalent_labels : gmap Z (gset Z)
}.

Definition first_pass_pixel (I_copy : vpImage)
    (connexity : vpConnectedConnexityType) (cpt1 cpt2 : Z) (st : pass_state)
  : option pass_state :=
  let i := cpt1 + 1 in
  let j := cpt2 + 1 in
  if negb (get I_copy i j =? 0)
  then
    let neighbor_labels :=
      getNeighborLabels I_copy (p_labels_copy st) i j connexity in
    match set_elements neighbor_labels with
    | [] =>
        let cl := p_current_label st in
        Some (mkPass (set (p_labels_copy st) i j cl) (cl + 1)
                (<[cl := {[cl]} ∪ at_key (equivalent_labels st) cl]>
                   (equivalent_labels st)))
    | smallest_label :: _ =>
        Some (mkPass (set (p_labels_copy st) i j smallest_label)
                (p_current_label st)
                (foldl (fun m it => <[it := at_key m it ∪ neighbor_labels]> m)
                   (equivalent_labels st) (set_elements neighbor_labels)))
    end
  else Some st.

(** The loop between the passes: for every entry [(k, s)] in key order and
    every [x] of a copy of [s], [x <> k], the set of [k] is united in place
    with the set of [x]. *)
Definition merge_equivalences (m : gmap Z (gset Z)) : gmap Z (gset Z) :=
  foldl (fun m k =>
    let current_set := at_key m k in
    foldl (fun m x =>
      if negb (k =? x) then <[k := at_key m k ∪ at_key m x]> m else m)
      m (set_elements current_set))
    m (merge_sort Z.le (elements (dom m))).

Definition second_pass_pixel (I_copy : vpImage) (m : gmap Z (gset Z))
    (cpt1 cpt2 : Z) (L : vpImage) : option vpImage :=
  let i := cpt1 + 1 in
  let j := cpt2 + 1 in
  if negb (get I_copy i j =? 0)
  then Some (set L i j (set_begin (at_key m (get L i j))))
  else Some L.

Definition connectedComponents2 (c : caller)
    (connexity : vpConnectedConnexityType) : option caller :=
  let I := arg_I c in
  if getSize I =? 0 then Some c
  else
    let Ic := add_border I in
    let st0 := mkPass (make (getHeight I + 2) (getWidth I + 2) 0) 1 ∅ in
    match for_loop (getHeight I)
            (fun cpt1 => for_loop (getWidth I)
               (fun cpt2 => first_pass_pixel Ic connexity cpt1 cpt2)) st0 with
    | Some st =>
        let m := merge_equivalences (equivalent_labels st) in
        match for_loop (getHeight I)
                (fun cpt1 => for_loop (getWidth I)
                   (fun cpt2 => second_pass_pixel Ic m cpt1 cpt2))
                (p_labels_copy st) with
        | Some L =>
            Some (mkCaller I
                    (remove_border (getHeight I) (getWidth I) L)
                    (p_current_label st - 1))
        | None => None
        end
    | None => None
    end.

(** Images for examples: [image_of h w rows]. *)
Definition empty_image : vpImage := mkImage 0 0 [].

Definition U_shape : vpImage := mkImage 2 3 [[1; 0; 1]; [1; 1; 1]].
Definition hook_4x4 : vpImage :=
  mkImage 4 4 [[0; 1; 0; 0]; [1; 1; 0; 1]; [1; 0; 1; 1]; [1; 1; 1; 0]].

(** *** Connectivity of same-value pixels *)

(** Neighbourhood relation selected by the connexity. *)
Definition adjacent (connexity : vpConnectedConnexityType)
    (p q : vpImagePoint) : Prop :=
  match connexity with
  | CONNECTED_CONNEXITY_4 => Z.abs (q.1 - p.1) + Z.abs (q.2 - p.2) = 1
  | CONNECTED_CONNEXITY_8 => Z.max (Z.abs (q.1 - p.1)) (Z.abs (q.2 - p.2)) = 1
  end.

(** One step of a same-value path over the samples [f]. *)
Definition link (f : Z -> Z -> Z) (connexity : vpConnectedConnexityType)
    (p q : vpImagePoint) : Prop :=
  adjacent connexity p q /\ f p.1 p.2 = f q.1 q.2 /\ f p.1 p.2 <> 0.

(** Two pixels are connected when a path of such steps joins them. *)
Definition connected (f : Z -> Z -> Z) (connexity : vpConnectedConnexityType)
  : vpImagePoint -> vpImagePoint -> Prop :=
  rtc (link f connexity).

(** *** Loops *)

Lemma for_loop_snoc {St : Type} (n : Z) (body : Z -> St -> option St) (s : St) :
  0 <= n -> for_loop (n + 1) body s = for_loop n body s ≫= body n.
Proof.
  intros Hn. unfold for_loop.
  rewrite seqZ_app by lia. rewrite foldl_app.
  rewrite (seqZ_cons _ 1) by lia. rewrite (seqZ_nil _ (Z.pred 1)) by lia. simpl.
  by rewrite Z.add_0_l.
Qed.

Lemma for_loop_invariant {St : Type} (P : Z -> St -> Prop) (n : Z)
    (body : Z -> St -> option St) (s : St) :
  0 <= n -> P 0 s ->
  (forall k s1, 0 <= k < n -> P k s1 ->
     exists s2, body k s1 = Some s2 /\ P (k + 1) s2) ->
  exists s', for_loop n body s = Some s' /\ P n s'.
Proof.
  intros Hn H0 Hstep.
  assert (Hgen : forall m : nat, Z.of_nat m <= n ->
            exists s', for_loop (Z.of_nat m) body s = Some s' /\ P (Z.of_nat m) s').
  { induction m as [|m IH]; intros Hm.
    - exists s. split; [|done]. unfold for_loop. by rewrite seqZ_nil.
    - destruct IH as (s1 & Hs1 & HP1); [lia|].
      destruct (Hstep (Z.of_nat m) s1) as (s2 & Hs2 & HP2); [lia|done|].
      exists s2. replace (Z.of_nat (S m)) with (Z.of_nat m + 1) by lia.
      rewrite for_loop_snoc by lia. rewrite Hs1. simpl. done. }
  destruct (Hgen (Z.to_nat n)) as (s' & Hs' & HP'); [lia|].
  rewrite Z2Nat.id in Hs', HP' by done. eauto.
Qed.

(** *** Adjacency and paths *)

Lemma adjacent_sym c p q : adjacent c p q -> adjacent c q p.
Proof. destruct c; unfold adjacent; lia. Qed.

Lemma link_sym f c p q : link f c p q -> link f c q p.
Proof.
  intros (Ha & He & Hn). repeat split.
  - by apply adjacent_sym.
  - done.
  - by rewrite <- He.
Qed.

Lemma connected_sym f c p q : connected f c p q -> connected f c q p.
Proof.
  induction 1 as [|p q r Hl _ IH]; [apply rtc_refl|].
  eapply rtc_r; [exact IH|]. by apply link_sym.
Qed.

Lemma connected_trans f c p q r :
  connected f c p q -> connected f c q r -> connected f c p r.
Proof. apply rtc_trans. Qed.

Lemma connected_value f c p q :
  connected f c p q -> f p.1 p.2 = f q.1 q.2.
Proof.
  induction 1 as [|p q r (_ & He & _) _ IH]; [done|]. by rewrite He.
Qed.

(** Paths are invariant under a translation of the raster. *)
Lemma connected_translate f f' c d p q :
  (forall i j, f' (i + d) (j + d) = f i j) ->
  connected f c p q ->
  connected f' c (p.1 + d, p.2 + d) (q.1 + d, q.2 + d).
Proof.
  intros Hf. induction 1 as [|p q r (Ha & He & Hn) _ IH]; [apply rtc_refl|].
  eapply rtc_l; [|exact IH].
  repeat split; simpl.
  - destruct c; unfold adjacent in *; simpl; lia.
  - by rewrite !Hf.
  - by rewrite Hf.
Qed.

(** *** What [getNeighbors] pushes *)

Lemma elem_of_push_if b p q x :
  x ∈ push_if b p q <-> x ∈ q \/ (b = true /\ x = p).
Proof.
  unfold push_if. destruct b.
  - rewrite elem_of_app, list_elem_of_singleton. tauto.
  - split; [tauto|]. intros [?|[? _]]; done.
Qed.

Lemma length_push_if b p q :
  (length (push_if b p q) <= S (length q))%nat.
Proof. unfold push_if. destruct b; [rewrite length_app; simpl|]; lia. Qed.

Lemma elem_of_getNeighbors I q i j c x :
  x ∈ getNeighbors I q i j c <->
  x ∈ q \/ (adjacent c (i, j) x /\ get I x.1 x.2 = get I i j).
Proof.
  destruct x as [a b]. unfold getNeighbors. destruct c; simpl.
  - rewrite !elem_of_push_if, !Z.eqb_eq. unfold adjacent. simpl. split.
    + intros H.
      repeat (destruct H as [H|[? Hx]];
              [|injection Hx as -> ->; right; split; [lia|done] ]).
      by left.
    + intros [?|[Ha He]]; [tauto|].
      assert (Hc : (a = i - 1 /\ b = j) \/ (a = i /\ b = j - 1) \/
                   (a = i /\ b = j + 1) \/ (a = i + 1 /\ b = j))
        by (clear He; lia).
      destruct Hc as [[-> ->]|[[-> ->]|[[-> ->]|[-> ->]]]]; tauto.
  - rewrite !elem_of_push_if, !Z.eqb_eq. unfold adjacent. simpl.
    rewrite !Z.add_0_r. split.
    + intros H.
      repeat (destruct H as [H|[? Hx]];
              [|injection Hx as -> ->; right; split; [lia|done] ]).
      by left.
    + intros [?|[Ha He]]; [tauto|].
      assert (Hc : (a = i + -1 /\ b = j + -1) \/ (a = i + -1 /\ b = j) \/
                   (a = i + -1 /\ b = j + 1) \/ (a = i /\ b = j + -1) \/
                   (a = i /\ b = j + 1) \/ (a = i + 1 /\ b = j + -1) \/
                   (a = i + 1 /\ b = j) \/ (a = i + 1 /\ b = j + 1))
        by (clear He; lia).
      repeat (destruct Hc as [[-> ->]|Hc]; [tauto|]).
      destruct Hc as [-> ->]. tauto.
Qed.

Lemma length_getNeighbors I q i j c :
  (length (getNeighbors I q i j c) <= length q + 8)%nat.
Proof.
  unfold getNeighbors, push_if. destruct c; simpl;
    repeat match goal with
           | |- context [if ?b then _ else _] => destruct b
           end;
    rewrite ?length_app; simpl; lia.
Qed.

(** *** Termination measure of the expansion *)

Lemma row_nz_insert_zero (r : list Z) (m : nat) (v : Z) :
  r !! m = Some v -> v <> 0 -> S (row_nz (<[m := 0]> r)) = row_nz r.
Proof.
  unfold row_nz. revert m. induction r as [|x r IH]; intros [|m] Hm Hv; simpl in *.
  - done.
  - done.
  - injection Hm as ->. rewrite !filter_cons.
    destruct (decide (0 <> 0)); [done|]. destruct (decide (v <> 0)); done.
  - rewrite !filter_cons. destruct (decide (x <> 0)); simpl.
    + f_equal. by apply IH.
    + by apply IH.
Qed.

Lemma sum_alter_row (l : list (list Z)) (n : nat) (r : list Z)
    (f : list Z -> list Z) :
  l !! n = Some r ->
  (sum_list (row_nz <$> alter f n l) + row_nz r =
   sum_list (row_nz <$> l) + row_nz (f r))%nat.
Proof.
  revert n. induction l as [|x l IH]; intros [|n] Hn; csimpl in *.
  - done.
  - done.
  - injection Hn as ->. lia.
  - specialize (IH n Hn). lia.
Qed.

Lemma count_nz_set_zero I i j :
  wf_image I -> inside I i j -> get I i j <> 0 ->
  S (count_nz (set I i j 0)) = count_nz I.
Proof.
  intros (Hh & Hw & Hl & Hr) [Hi Hj] Hne. unfold count_nz, get, set in *.
  assert (H0i : (0 <=? i) = true) by (apply Z.leb_le; lia).
  assert (H0j : (0 <=? j) = true) by (apply Z.leb_le; lia).
  rewrite H0i, H0j in *. simpl in *.
  destruct (rows I !! Z.to_nat i) as [r|] eqn:Hrow; [|done]. simpl in Hne.
  destruct (r !! Z.to_nat j) as [v|] eqn:Hv; [|done]. simpl in Hne.
  pose proof (sum_alter_row _ _ _ (fun r => <[Z.to_nat j := 0]> r) Hrow) as Hs.
  pose proof (row_nz_insert_zero _ _ _ Hv Hne) as Hz.
  lia.
Qed.

(** *** The border added around the working copies *)

Lemma wf_add_border I : wf_image I -> wf_image (add_border I).
Proof.
  intros (Hh & Hw & Hl & Hr). unfold add_border. repeat split; simpl; try lia.
  - rewrite length_app, length_map. simpl. lia.
  - constructor; [by rewrite length_replicate|].
    apply Forall_app. split.
    + rewrite Forall_forall in Hr. apply Forall_forall. intros r' Hin.
      apply list_elem_of_In, in_map_iff in Hin as (r & <- & Hin).
      simpl. rewrite length_app. simpl.
      rewrite (Hr r) by (by apply list_elem_of_In). lia.
    + constructor; [by rewrite length_replicate|constructor].
Qed.

Lemma lookup_zeros (n k : nat) : default 0 (replicate n 0 !! k) = 0.
Proof.
  destruct (replicate n 0 !! k) as [v|] eqn:Hv; [|done].
  apply lookup_replicate in Hv as [-> _]. done.
Qed.

Lemma get_add_border I i j :
  wf_image I -> get (add_border I) i j = get I (i - 1) (j - 1).
Proof.
  intros (Hh & Hw & Hl & Hr). unfold get, add_border. simpl.
  destruct (0 <=? i) eqn:Hi; simpl.
  2:{ apply Z.leb_gt in Hi.
      assert (H1 : (0 <=? i - 1) = false) by (apply Z.leb_gt; lia).
      by rewrite H1. }
  destruct (0 <=? j) eqn:Hj; simpl.
  2:{ apply Z.leb_gt in Hj.
      assert (H1 : (0 <=? j - 1) = false) by (apply Z.leb_gt; lia).
      rewrite H1. by rewrite andb_false_r. }
  apply Z.leb_le in Hi, Hj.
  destruct (decide (i = 0)) as [->|Hi0].
  { simpl. by rewrite lookup_zeros. }
  assert (H1 : (0 <=? i - 1) = true) by (apply Z.leb_le; lia).
  rewrite H1. simpl.
  replace (Z.to_nat i) with (S (Z.to_nat (i - 1))) by lia. simpl.
  destruct (decide (Z.to_nat (i - 1) < length (rows I))%nat) as [Hlt|Hge].
  - rewrite lookup_app_l by (by rewrite length_map).
    destruct (rows I !! Z.to_nat (i - 1)) as [r|] eqn:Hrow.
    2:{ apply lookup_ge_None in Hrow. lia. }
    rewrite (list_lookup_fmap _ _ _ : map _ _ !! _ = _), Hrow. simpl.
    destruct (decide (j = 0)) as [->|Hj0].
    { simpl. done. }
    assert (H2 : (0 <=? j - 1) = true) by (apply Z.leb_le; lia).
    rewrite H2.
    replace (Z.to_nat j) with (S (Z.to_nat (j - 1))) by lia. simpl.
    destruct (decide (Z.to_nat (j - 1) < length r)%nat) as [Hjl|Hjg].
    + by rewrite lookup_app_l.
    + rewrite lookup_app_r by lia.
      rewrite (proj2 (lookup_ge_None r _)) by lia.
      destruct (Z.to_nat (j - 1) - length r)%nat; done.
  - rewrite lookup_app_r by (rewrite length_map; lia).
    rewrite (proj2 (lookup_ge_None (rows I) _)) by lia. simpl.
    rewrite length_map.
    destruct (Z.to_nat (i - 1) - length (rows I))%nat; simpl.
    + rewrite lookup_zeros. by destruct (0 <=? j - 1).
    + by destruct (0 <=? j - 1).
Qed.

Lemma add_border_nonzero I i j :
  wf_image I -> get (add_border I) i j <> 0 ->
  1 <= i <= getHeight I /\ 1 <= j <= getWidth I.
Proof.
  intros Hwf Hne. rewrite get_add_border in Hne by done.
  apply get_nonzero_inside in Hne; [|done]. unfold inside in Hne. lia.
Qed.

Lemma get_remove_border h w L i j :
  0 <= i < h -> 0 <= j < w ->
  get (remove_border h w L) i j = get L (i + 1) (j + 1).
Proof.
  intros Hi Hj. unfold get, remove_border. simpl.
  assert (H0i : (0 <=? i) = true) by (apply Z.leb_le; lia).
  assert (H0j : (0 <=? j) = true) by (apply Z.leb_le; lia).
  assert (H1i : (0 <=? i + 1) = true) by (apply Z.leb_le; lia).
  assert (H1j : (0 <=? j + 1) = true) by (apply Z.leb_le; lia).
  rewrite H0i, H0j, H1i, H1j. simpl.
  rewrite (list_lookup_fmap _ _ _ : map _ _ !! _ = _).
  rewrite lookup_take_lt by lia. rewrite lookup_drop.
  replace (1 + Z.to_nat i)%nat with (Z.to_nat (i + 1)) by lia.
  destruct (rows L !! Z.to_nat (i + 1)) as [r|]; [|done]. simpl.
  rewrite lookup_take_lt by lia. rewrite lookup_drop.
  replace (1 + Z.to_nat j)%nat with (Z.to_nat (j + 1)) by lia. done.
Qed.

(** *** Invariants of the expansion *)


Section Expansion.

(** [I0] is the bordered copy of the input as it is before any sample is
    consumed; [cx] is the connexity of the call. *)
Variable I0 : vpImage.
Variable cx : vpConnectedConnexityType.
Hypothesis wf_I0 : wf_image I0.

Local Abbreviation lnk := (link (get I0) cx).
Local Abbreviation conn := (connected (get I0) cx).

Definition lab (L : vpImage) (p : vpImagePoint) : Z := get L p.1 p.2.

(** The working copy is the input with the labelled samples zeroed. *)
Definition consistent (Ic L : vpImage) : Prop :=
  wf_image Ic /\ wf_image L /\
  getHeight Ic = getHeight I0 /\ getWidth Ic = getWidth I0 /\
  getHeight L = getHeight I0 /\ getWidth L = getWidth I0 /\
  forall p, (lab L p = 0 -> lab Ic p = lab I0 p) /\
            (lab L p <> 0 -> lab Ic p = 0 /\ lab I0 p <> 0).

(** The pixels labelled [l] are closed under steps of same-value paths. *)
Definition closed_class (L : vpImage) (l : Z) : Prop :=
  forall p q, lab L p = l -> lnk p q -> lab L q = l.

(** Any two pixels labelled [l] are connected. *)
Definition sound_class (L : vpImage) (l : Z) : Prop :=
  forall p q, lab L p = l -> lab L q = l -> conn p q.

(** Between two expansions: labels [1 .. n-1] are exactly components. *)
Definition scan_inv (Ic L : vpImage) (n : Z) : Prop :=
  consistent Ic L /\ 1 <= n /\
  (forall p, lab L p <> 0 -> 1 <= lab L p < n) /\
  (forall l, 1 <= l < n -> closed_class L l /\ sound_class L l).

(** During the expansion of label [n] from the seed [s], with the queue
    [q]; [L0] is the label image when the expansion started. *)
Definition expand_inv (L0 : vpImage) (s : vpImagePoint) (n : Z)
    (Ic L : vpImage) (q : list vpImagePoint) : Prop :=
  consistent Ic L /\ 1 <= n /\
  (forall p, lab L p <> 0 -> 1 <= lab L p <= n) /\
  (forall l, 1 <= l < n -> closed_class L l /\ sound_class L l) /\
  (lab I0 s <> 0 /\ (lab L s = n \/ (lab L s = 0 /\ s ∈ q))) /\
  (forall p, lab L p = n -> conn s p) /\
  (forall p r, lab L p = n -> lnk p r -> lab L r = n \/ r ∈ q) /\
  (forall r, r ∈ q -> conn s r) /\
  (forall p, lab L0 p <> 0 -> lab L p = lab L0 p).

Lemma closed_class_connected L l p q :
  closed_class L l -> lab L p = l -> conn p q -> lab L q = l.
Proof.
  intros Hc Hp Hpq. induction Hpq as [|p q r Hl _ IH]; [done|].
  apply IH. eapply Hc; eauto.
Qed.

Lemma lab_set_same L p v :
  wf_image L -> inside L p.1 p.2 -> lab (set L p.1 p.2 v) p = v.
Proof. intros. unfold lab. by apply get_set_same. Qed.

Lemma lab_set_other L p v r :
  r <> p -> lab (set L p.1 p.2 v) r = lab L r.
Proof.
  intros Hne. unfold lab. apply get_set_other.
  destruct p, r; simpl. congruence.
Qed.

Lemma conn_nonzero s r : lab I0 s <> 0 -> conn s r -> lab I0 r <> 0.
Proof.
  intros Hs Hc. apply connected_value in Hc. unfold lab in *. congruence.
Qed.

(** A queued pixel that is already zeroed carries the current label. *)
Lemma expand_inv_zeroed L0 s n Ic L q r :
  expand_inv L0 s n Ic L q -> r ∈ q -> lab Ic r = 0 -> lab L r = n.
Proof.
  intros (Hcons & Hn & Hrange & Hold & (Hs0 & Hs) & Hsound & Hfront & Hq & Hmono)
         Hr Hz.
  destruct Hcons as (_ & _ & _ & _ & _ & _ & Hpix).
  pose proof (Hq r Hr) as Hsr.
  pose proof (conn_nonzero _ _ Hs0 Hsr) as Hr0.
  destruct (decide (lab L r = 0)) as [Hl0|Hl0].
  { apply Hpix in Hl0. congruence. }
  destruct (Hrange r Hl0) as [Hlo Hhi].
  destruct (decide (lab L r = n)) as [|Hne]; [done|]. exfalso.
  destruct (Hold (lab L r)) as [Hclosed _]; [lia|].
  pose proof (closed_class_connected _ _ _ _ Hclosed eq_refl
                (connected_sym _ _ _ _ Hsr)) as Hls.
  destruct Hs as [Hs|[Hs _]]; lia.
Qed.

(** Popping a pixel that is still nonzero: it is labelled, zeroed, and its
    same-value neighbours are queued. *)
Lemma expand_inv_consume L0 s n Ic L i j rest :
  expand_inv L0 s n Ic L ((i, j) :: rest) ->
  get Ic i j <> 0 ->
  expand_inv L0 s n (set Ic i j 0) (set L i j n)
    (getNeighbors Ic rest i j cx).
Proof.
  intros Hinv Hnz.
  pose proof Hinv as
    (Hcons & Hn & Hrange & Hold & (Hs0 & Hs) & Hsound & Hfront & Hq & Hmono).
  destruct Hcons as (HwI & HwL & HhI & HwdI & HhL & HwdL & Hpix).
  set (p0 := (i, j) : vpImagePoint).
  assert (HL0 : lab L p0 = 0).
  { destruct (decide (lab L p0 = 0)) as [|Hl]; [done|].
    apply Hpix in Hl as [Hz _]. done. }
  assert (HIc0 : lab Ic p0 = lab I0 p0) by (by apply Hpix).
  assert (Hin : inside Ic i j) by (by apply get_nonzero_inside).
  assert (HinL : inside L i j) by (unfold inside in *; lia).
  assert (Hsp0 : conn s p0) by (apply Hq; left).
  assert (Hsetp0 : lab (set L i j n) p0 = n) by (by apply (lab_set_same L p0)).
  assert (Hother : forall r, r <> p0 -> lab (set L i j n) r = lab L r)
    by (intros r Hr; by apply (lab_set_other L p0)).
  assert (HotherI : forall r, r <> p0 -> lab (set Ic i j 0) r = lab Ic r)
    by (intros r Hr; by apply (lab_set_other Ic p0)).
  (* a labelled neighbour of the popped pixel carries the current label *)
  assert (Hnb : forall r, lnk p0 r -> lab L r <> 0 -> lab L r = n).
  { intros r Hl Hr0. destruct (Hrange r Hr0) as [Hlo Hhi].
    destruct (decide (lab L r = n)) as [|Hne]; [done|]. exfalso.
    destruct (Hold (lab L r)) as [Hclosed _]; [lia|].
    pose proof (Hclosed r p0 eq_refl (link_sym _ _ _ _ Hl)). lia. }
  unfold expand_inv, consistent. split_and!.
  - by apply wf_set.
  - by apply wf_set.
  - by rewrite getHeight_set.
  - by rewrite getWidth_set.
  - by rewrite getHeight_set.
  - by rewrite getWidth_set.
  - intros p. destruct (decide (p = p0)) as [->|Hne].
    + rewrite Hsetp0. split; [lia|]. intros _. split.
      * by apply (lab_set_same Ic p0).
      * unfold lab in *. simpl in *. congruence.
    + rewrite Hother, HotherI by done. by apply Hpix.
  - done.
  - intros p Hp. destruct (decide (p = p0)) as [->|Hne]; [lia|].
    rewrite Hother in * by done. by apply Hrange.
  - intros l Hl. destruct (Hold l Hl) as [Hclosed Hsnd]. split.
    + intros p q Hp Hlk.
      assert (Hpne : p <> p0) by (intros ->; lia).
      rewrite Hother in Hp by done.
      pose proof (Hclosed p q Hp Hlk) as Hq'.
      assert (Hqne : q <> p0) by (intros ->; lia).
      by rewrite Hother.
    + intros p q Hp Hq'.
      assert (Hpne : p <> p0) by (intros ->; lia).
      assert (Hqne : q <> p0) by (intros ->; lia).
      rewrite Hother in Hp, Hq' by done. by apply Hsnd.
  - done.
  - destruct (decide (s = p0)) as [->|Hne]; [by left|].
    rewrite Hother by done.
    destruct Hs as [Hs|[Hs Hsq]]; [by left|].
    right. split; [done|]. apply elem_of_getNeighbors. left.
    apply elem_of_cons in Hsq as [|]; done.
  - intros p Hp. destruct (decide (p = p0)) as [->|Hne]; [done|].
    rewrite Hother in Hp by done. by apply Hsound.
  - intros p r Hp Hl.
    destruct (decide (r = p0)) as [->|Hrne]; [by left|].
    rewrite (Hother r) by done.
    destruct (decide (p = p0)) as [->|Hne].
    + destruct (decide (lab L r = 0)) as [Hr0|Hr0].
      * right. apply elem_of_getNeighbors. right.
        destruct Hl as (Ha & He & Hv). split; [done|].
        apply Hpix in Hr0. unfold lab in *. simpl in *. congruence.
      * left. by apply Hnb.
    + rewrite Hother in Hp by done.
      destruct (Hfront p r Hp Hl) as [|Hrq]; [by left|].
      right. apply elem_of_getNeighbors. left.
      apply elem_of_cons in Hrq as [|]; done.
  - intros r Hr. apply elem_of_getNeighbors in Hr as [Hr|[Ha He]].
    + apply Hq. by right.
    + eapply rtc_r; [exact Hsp0|].
      assert (HrI : lab Ic r <> 0) by (unfold lab in *; simpl in *; congruence).
      assert (HrL : lab L r = 0).
      { destruct (decide (lab L r = 0)) as [|Hl]; [done|].
        apply Hpix in Hl as [Hz _]. done. }
      apply Hpix in HrL. unfold link. split_and!; [done| |].
      * unfold lab in *. simpl in *. congruence.
      * unfold lab in *. simpl in *. congruence.
  - intros p Hp. destruct (decide (p = p0)) as [->|Hne].
    + exfalso. rewrite <- (Hmono p0 Hp) in Hp. done.
    + rewrite Hother by done. by apply Hmono.
Qed.

(** Popping a pixel that is already zeroed leaves everything but the queue. *)
Lemma expand_inv_skip L0 s n Ic L i j rest :
  expand_inv L0 s n Ic L ((i, j) :: rest) ->
  get Ic i j = 0 ->
  expand_inv L0 s n Ic L rest.
Proof.
  intros Hinv Hz.
  assert (Hp0 : lab L (i, j) = n).
  { eapply expand_inv_zeroed; [exact Hinv|left|done]. }
  destruct Hinv as
    (Hcons & Hn & Hrange & Hold & (Hs0 & Hs) & Hsound & Hfront & Hq & Hmono).
  unfold expand_inv. split_and!; try done.
  - destruct Hs as [Hs|[Hs Hsq]]; [by left|].
    apply elem_of_cons in Hsq as [->|Hsq]; [lia|]. by right.
  - intros p r Hp Hl. destruct (Hfront p r Hp Hl) as [|Hrq]; [by left|].
    apply elem_of_cons in Hrq as [->|Hrq]; [by left|by right].
  - intros r Hr. apply Hq. by right.
Qed.

(** The queue loop terminates within its bound and keeps the invariant. *)
Lemma visitNeighbors_loop_inv L0 s n fuel :
  forall Ic L q,
    expand_inv L0 s n Ic L q ->
    (9 * count_nz Ic + length q < fuel)%nat ->
    exists Ic' L',
      visitNeighbors_loop fuel Ic q L n cx = Some (Ic', L') /\
      expand_inv L0 s n Ic' L' [].
Proof.
  induction fuel as [|fuel IH]; intros Ic L q Hinv Hfuel; [lia|].
  destruct q as [|[i j] rest]; simpl; [eauto|].
  destruct (get Ic i j =? 0) eqn:Hz; simpl.
  - apply Z.eqb_eq in Hz. apply IH.
    + by eapply expand_inv_skip.
    + simpl in Hfuel. lia.
  - apply Z.eqb_neq in Hz. apply IH.
    + by apply expand_inv_consume.
    + pose proof Hinv as ((HwI & _) & _).
      pose proof (count_nz_set_zero Ic i j HwI
                    (get_nonzero_inside _ _ _ HwI Hz) Hz) as Hc.
      pose proof (length_getNeighbors Ic rest i j cx) as Hl.
      simpl in Hfuel. lia.
Qed.

Lemma scan_inv_start Ic L n s :
  scan_inv Ic L n -> lab Ic s <> 0 -> expand_inv L s n Ic L [s].
Proof.
  intros (Hcons & Hn & Hrange & Hold) Hs.
  pose proof Hcons as (_ & _ & _ & _ & _ & _ & Hpix).
  assert (HLs : lab L s = 0).
  { destruct (decide (lab L s = 0)) as [|Hl]; [done|].
    apply Hpix in Hl as [Hz _]. done. }
  unfold expand_inv. split_and!; try done.
  - intros p Hp. apply Hrange in Hp. lia.
  - apply Hpix in HLs. congruence.
  - right. split; [done|]. apply list_elem_of_singleton. done.
  - intros p Hp. assert (lab L p <> 0) as Hne by lia. apply Hrange in Hne. lia.
  - intros p r Hp. assert (lab L p <> 0) as Hne by lia. apply Hrange in Hne. lia.
  - intros r Hr. apply list_elem_of_singleton in Hr as ->. apply rtc_refl.
Qed.

Lemma expand_inv_done L0 s n Ic L :
  expand_inv L0 s n Ic L [] ->
  scan_inv Ic L (n + 1) /\ lab L s = n /\
  (forall p, lab L0 p <> 0 -> lab L p = lab L0 p).
Proof.
  intros (Hcons & Hn & Hrange & Hold & (Hs0 & Hs) & Hsound & Hfront & Hq & Hmono).
  assert (HLs : lab L s = n).
  { destruct Hs as [|[_ Hin]]; [done|]. by apply elem_of_nil in Hin. }
  split_and!; try done.
  unfold scan_inv. split_and!; try done.
  - lia.
  - intros p Hp. apply Hrange in Hp. lia.
  - intros l Hl. destruct (decide (l = n)) as [->|Hne].
    + split.
      * intros p r Hp Hlk. destruct (Hfront p r Hp Hlk) as [|Hin]; [done|].
        by apply elem_of_nil in Hin.
      * intros p r Hp Hr. eapply connected_trans.
        -- apply connected_sym. by apply Hsound.
        -- by apply Hsound.
    + apply Hold. lia.
Qed.

(** One iteration of the double loop of [connectedComponents]. *)
Lemma expand_pixel_inv st a b :
  scan_inv (I_copy st) (labels_copy st) (current_label st) ->
  exists st',
    expand_pixel cx a b st = Some st' /\
    scan_inv (I_copy st') (labels_copy st') (current_label st') /\
    (forall p, lab (labels_copy st) p <> 0 ->
               lab (labels_copy st') p = lab (labels_copy st) p) /\
    (lab I0 (a + 1, b + 1) <> 0 -> lab (labels_copy st') (a + 1, b + 1) <> 0).
Proof.
  intros Hinv. unfold expand_pixel.
  pose proof Hinv as (Hcons & Hn & Hrange & Hold).
  pose proof Hcons as (HwI & HwL & _ & _ & _ & _ & Hpix).
  set (s := (a + 1, b + 1) : vpImagePoint).
  destruct (get (I_copy st) (a + 1) (b + 1) =? 0) eqn:Hz; simpl.
  - apply Z.eqb_eq in Hz. exists st. split_and!; try done.
    intros Hs0 HL. apply Hpix in HL. unfold lab in *. simpl in *. congruence.
  - apply Z.eqb_neq in Hz.
    assert (HLs : lab (labels_copy st) s = 0).
    { destruct (decide (lab (labels_copy st) s = 0)) as [|Hl]; [done|].
      apply Hpix in Hl as [Hz' _]. done. }
    unfold lab in HLs. simpl in HLs. rewrite HLs. simpl.
    pose proof (scan_inv_start _ _ _ s Hinv Hz) as Hstart.
    pose proof (expand_inv_consume _ _ _ _ _ _ _ _ Hstart Hz) as Hfirst.
    destruct (visitNeighbors_loop_inv _ _ _
                (visit_bound (set (I_copy st) (a + 1) (b + 1) 0)
                   (getNeighbors (I_copy st) [] (a + 1) (b + 1) cx))
                _ _ _ Hfirst) as (Ic' & L' & Hrun & Hend).
    { unfold visit_bound. lia. }
    unfold visitNeighbors. rewrite Hrun.
    destruct (expand_inv_done _ _ _ _ _ Hend) as (Hscan & HLs' & Hmono).
    eexists. split; [done|]. simpl. split_and!; try done.
    intros _. fold s. rewrite HLs'. lia.
Qed.

End Expansion.
(** *** The raster scan of [connectedComponents] *)

Section Scan.

Variable I : vpImage.
Variable cx : vpConnectedConnexityType.
Hypothesis wf_I : wf_image I.

Local Abbreviation I0 := (add_border I).

(** Every foreground pixel before raster position [(a, k)] is labelled. *)
Definition labelled_before (a k : Z) (L : vpImage) : Prop :=
  forall i j, 1 <= j <= getWidth I ->
    (i - 1 < a \/ (i - 1 = a /\ j - 1 < k)) ->
    get I0 i j <> 0 -> get L i j <> 0.

Definition row_inv (a k : Z) (st : scan_state) : Prop :=
  scan_inv I0 cx (I_copy st) (labels_copy st) (current_label st) /\
  labelled_before a k (labels_copy st).

Lemma scan_row_inv a st :
  0 <= a -> row_inv a 0 st ->
  exists st',
    for_loop (getWidth I) (fun cpt2 => expand_pixel cx a cpt2) st = Some st' /\
    row_inv (a + 1) 0 st'.
Proof.
  intros Ha Hrow. pose proof wf_I as (_ & Hw & _).
  destruct (for_loop_invariant (row_inv a) (getWidth I)
              (fun cpt2 => expand_pixel cx a cpt2) st Hw Hrow)
    as (st' & Hrun & Hinv & Hlab).
  - intros k s1 Hk [Hinv Hlab].
    destruct (expand_pixel_inv I0 cx s1 a k Hinv)
      as (s2 & Hs2 & Hinv2 & Hmono & Hnew).
    exists s2. split; [done|]. split; [done|].
    intros i j Hj Hpos Hfg.
    destruct (decide (i - 1 = a /\ j - 1 = k)) as [[Hi Hjk]|Hne].
    + replace i with (a + 1) in * by lia. replace j with (k + 1) in * by lia.
      by apply Hnew.
    + assert (Hold : get (labels_copy s1) i j <> 0)
        by (apply Hlab; [done|lia|done]).
      pose proof (Hmono (i, j) Hold) as Heq. unfold lab in Heq. simpl in Heq.
      congruence.
  - exists st'. split; [done|]. split; [done|].
    intros i j Hj Hpos Hfg. apply Hlab; [done| |done]. lia.
Qed.

Lemma scan_inv_initial :
  scan_inv I0 cx I0 (make (getHeight I + 2) (getWidth I + 2) 0) 1.
Proof.
  pose proof wf_I as (Hh & Hw & _).
  assert (Hzero : forall i j, get (make (getHeight I + 2) (getWidth I + 2) 0) i j = 0).
  { intros i j.
    destruct (decide (0 <= i < getHeight I + 2 /\ 0 <= j < getWidth I + 2))
      as [[Hi Hj]|Hout].
    - by apply get_make.
    - apply get_outside; [apply wf_make; lia|]. unfold inside. simpl. lia. }
  unfold scan_inv, consistent. split_and!; try done.
  - by apply wf_add_border.
  - apply wf_make; lia.
  - intros p. unfold lab. rewrite Hzero. split; [done|]. intros Hne. done.
  - intros p. unfold lab. rewrite Hzero. done.
  - intros l Hl. lia.
Qed.

Lemma scan_all_inv :
  exists st,
    for_loop (getHeight I)
      (fun cpt1 => for_loop (getWidth I)
         (fun cpt2 => expand_pixel cx cpt1 cpt2))
      (mkScan I0 (make (getHeight I + 2) (getWidth I + 2) 0) 1) = Some st /\
    row_inv (getHeight I) 0 st.
Proof.
  pose proof wf_I as (Hh & _).
  apply (for_loop_invariant (fun a => row_inv a 0)); [done| |].
  - split; [apply scan_inv_initial|].
    intros i j Hj Hpos Hfg. apply add_border_nonzero in Hfg; [|done]. lia.
  - intros a st Ha Hrow. apply scan_row_inv; [lia|done].
Qed.

End Scan.

(** The labels returned by [connectedComponents] on a well-formed image:
    background is 0, and two foreground pixels share their (nonzero) label
    exactly when a same-value path joins them. *)
Lemma connectedComponents_labels (c : caller) (cx : vpConnectedConnexityType) :
  wf_image (arg_I c) ->
  exists c',
    connectedComponents c cx = Some c' /\
    (forall i j, inside (arg_I c) i j -> get (arg_I c) i j = 0 ->
                 get (arg_labels c') i j = 0) /\
    (forall p q : vpImagePoint,
       inside (arg_I c) p.1 p.2 -> inside (arg_I c) q.1 q.2 ->
       get (arg_I c) p.1 p.2 <> 0 -> get (arg_I c) q.1 q.2 <> 0 ->
       (get (arg_labels c') p.1 p.2 = get (arg_labels c') q.1 q.2 /\
        get (arg_labels c') p.1 p.2 <> 0) <->
       connected (get (arg_I c)) cx p q).
Proof.
  intros Hwf. unfold connectedComponents.
  pose proof Hwf as (Hh & Hw & _).
  destruct (getSize (arg_I c) =? 0) eqn:Hsz.
  { apply Z.eqb_eq in Hsz. unfold getSize in Hsz.
    exists c. split; [done|].
    split; intros; unfold inside in *; nia. }
  destruct (scan_all_inv (arg_I c) cx Hwf) as (st & Hrun & Hinv & Hlab).
  rewrite Hrun. eexists. split; [done|]. simpl.
  set (I := arg_I c) in *. set (L := labels_copy st) in *.
  destruct Hinv as (Hcons & Hn & Hrange & Hclass).
  pose proof Hcons as (_ & _ & _ & _ & _ & _ & Hpix).
  assert (Hget : forall i j, inside I i j ->
            get (remove_border (getHeight I) (getWidth I) L) i j
            = get L (i + 1) (j + 1)).
  { intros i j [Hi Hj]. by apply get_remove_border. }
  assert (HI0 : forall i j, get (add_border I) (i + 1) (j + 1) = get I i j).
  { intros i j. rewrite get_add_border by done. f_equal; lia. }
  assert (Hfg : forall i j, get I i j <> 0 -> get L (i + 1) (j + 1) <> 0).
  { intros i j Hne. pose proof (get_nonzero_inside _ _ _ Hwf Hne) as [Hi Hj].
    apply Hlab; [lia|lia|]. by rewrite HI0. }
  split.
  - intros i j Hin Hz. rewrite Hget by done.
    destruct (decide (get L (i + 1) (j + 1) = 0)) as [|Hne]; [done|].
    apply (Hpix (i + 1, j + 1)) in Hne as [_ Hne]. unfold lab in Hne.
    simpl in Hne. rewrite HI0 in Hne. done.
  - intros [pi pj] [qi qj] Hp Hq Hpf Hqf. simpl in *.
    rewrite !Hget by done.
    pose proof (Hfg _ _ Hpf) as HLp.
    destruct (Hclass (get L (pi + 1) (pj + 1))) as [Hclosed Hsound].
    { apply (Hrange (pi + 1, pj + 1)). done. }
    split.
    + intros [Heq _].
      pose proof (Hsound (pi + 1, pj + 1) (qi + 1, qj + 1) eq_refl
                    (eq_sym Heq)) as Hc.
      apply (connected_translate _ (get I) _ (-1)) in Hc.
      * simpl in Hc.
        replace (pi + 1 + -1) with pi in Hc by lia.
        replace (pj + 1 + -1) with pj in Hc by lia.
        replace (qi + 1 + -1) with qi in Hc by lia.
        replace (qj + 1 + -1) with qj in Hc by lia. done.
      * intros i j. rewrite get_add_border by done. f_equal; lia.
    + intros Hc. split; [|done].
      apply (connected_translate _ (get (add_border I)) _ 1) in Hc; [|done].
      simpl in Hc. symmetry.
      apply (closed_class_connected _ _ _ _ (pi + 1, pj + 1) _ Hclosed eq_refl Hc).
Qed.

(** *** Properties of the two labellers *)

Definition on_U_shape : caller := mkCaller U_shape empty_image 0.
Definition on_hook : caller := mkCaller hook_4x4 empty_image 0.

(** C2.  For every well-formed input raster and either connexity,
    [connectedComponents] returns, every background pixel carries label 0,
    and two foreground pixels carry the same nonzero label if and only if a
    path of same-value pixels joins them under the chosen connexity. *)
Theorem connectedComponents_partition
    (c : caller) (connexity : vpConnectedConnexityType) :
  wf_image (arg_I c) ->
  exists c',
    connectedComponents c connexity = Some c' /\
    (forall i j, inside (arg_I c) i j -> get (arg_I c) i j = 0 ->
                 get (arg_labels c') i j = 0) /\
    (forall p q : vpImagePoint,
       inside (arg_I c) p.1 p.2 -> inside (arg_I c) q.1 q.2 ->
       get (arg_I c) p.1 p.2 <> 0 -> get (arg_I c) q.1 q.2 <> 0 ->
       (get (arg_labels c') p.1 p.2 = get (arg_labels c') q.1 q.2 /\
        get (arg_labels c') p.1 p.2 <> 0) <->
       connected (get (arg_I c)) connexity p q).
Proof. apply connectedComponents_labels. Qed.

Lemma connectedComponents_partition_witness :
  wf_image (arg_I on_U_shape) /\
  exists c',
    connectedComponents on_U_shape CONNECTED_CONNEXITY_4 = Some c' /\
    (forall i j, inside (arg_I on_U_shape) i j ->
                 get (arg_I on_U_shape) i j = 0 ->
                 get (arg_labels c') i j = 0) /\
    (forall p q : vpImagePoint,
       inside (arg_I on_U_shape) p.1 p.2 -> inside (arg_I on_U_shape) q.1 q.2 ->
       get (arg_I on_U_shape) p.1 p.2 <> 0 ->
       get (arg_I on_U_shape) q.1 q.2 <> 0 ->
       (get (arg_labels c') p.1 p.2 = get (arg_labels c') q.1 q.2 /\
        get (arg_labels c') p.1 p.2 <> 0) <->
       connected (get (arg_I on_U_shape)) CONNECTED_CONNEXITY_4 p q).
Proof.
  assert (Hwf : wf_image (arg_I on_U_shape)).
  { apply wf_imageb_spec. vm_compute. reflexivity. }
  split.
  - exact Hwf.
  - exact (connectedComponents_partition on_U_shape CONNECTED_CONNEXITY_4 Hwf).
Defined.

(** C1.  The two labellers disagree on the 4x4 raster [hook_4x4] under
    4-connexity: the expansion labeller finds one component and gives
    (0,1) and (1,3) the same label, while the two-pass labeller reports
    four components and gives these two pixels different labels. *)
Theorem two_pass_disagrees_with_expansion :
  exists c1 c2,
    connectedComponents on_hook CONNECTED_CONNEXITY_4 = Some c1 /\
    connectedComponents2 on_hook CONNECTED_CONNEXITY_4 = Some c2 /\
    arg_nbComponents c1 = 1 /\ arg_nbComponents c2 = 4 /\
    get (arg_labels c1) 0 1 = get (arg_labels c1) 1 3 /\
    get (arg_labels c2) 0 1 = 1 /\ get (arg_labels c2) 1 3 = 2.
Proof.
  eexists. eexists.
  split; [vm_compute; reflexivity|].
  split; [vm_compute; reflexivity|].
  vm_compute. repeat split; reflexivity.
Qed.

(** The two pixels of the disagreement are joined by a path of foreground
    pixels under 4-connexity. *)
Lemma hook_pixels_connected :
  connected (get hook_4x4) CONNECTED_CONNEXITY_4 (0, 1) (1, 3).
Proof.
  assert (Hstep : forall p q : vpImagePoint,
            adjacent CONNECTED_CONNEXITY_4 p q ->
            get hook_4x4 p.1 p.2 = 1 -> get hook_4x4 q.1 q.2 = 1 ->
            link (get hook_4x4) CONNECTED_CONNEXITY_4 p q).
  { intros p q Ha Hp Hq. unfold link. rewrite Hp, Hq. done. }
  eapply rtc_l; [apply (Hstep (0, 1) (1, 1)); [vm_compute|..]; reflexivity|].
  eapply rtc_l; [apply (Hstep (1, 1) (1, 0)); [vm_compute|..]; reflexivity|].
  eapply rtc_l; [apply (Hstep (1, 0) (2, 0)); [vm_compute|..]; reflexivity|].
  eapply rtc_l; [apply (Hstep (2, 0) (3, 0)); [vm_compute|..]; reflexivity|].
  eapply rtc_l; [apply (Hstep (3, 0) (3, 1)); [vm_compute|..]; reflexivity|].
  eapply rtc_l; [apply (Hstep (3, 1) (3, 2)); [vm_compute|..]; reflexivity|].
  eapply rtc_l; [apply (Hstep (3, 2) (2, 2)); [vm_compute|..]; reflexivity|].
  eapply rtc_l; [apply (Hstep (2, 2) (2, 3)); [vm_compute|..]; reflexivity|].
  eapply rtc_l; [apply (Hstep (2, 3) (1, 3)); [vm_compute|..]; reflexivity|].
  apply rtc_refl.
Qed.

(** *** Numbering of the components by the expansion labeller *)

(** Raster order of two pixels. *)
Definition raster_lt (r p : vpImagePoint) : Prop :=
  r.1 < p.1 \/ (r.1 = p.1 /\ r.2 < p.2).

(** An iteration of the double loop either leaves the state as it is or
    gives the current label to the pixel under the scan and increments
    it. *)
Lemma expand_pixel_fresh I0 cx st a b st' :
  scan_inv I0 cx (I_copy st) (labels_copy st) (current_label st) ->
  expand_pixel cx a b st = Some st' ->
  st' = st \/
  (current_label st' = current_label st + 1 /\
   lab (labels_copy st') (a + 1, b + 1) = current_label st).
Proof.
  intros Hinv. unfold expand_pixel.
  destruct (negb (get (I_copy st) (a + 1) (b + 1) =? 0)
            && (get (labels_copy st) (a + 1) (b + 1) =? 0)) eqn:Hc; simpl.
  2:{ intros [= <-]. by left. }
  apply andb_true_iff in Hc as [Hz _]. apply negb_true_iff, Z.eqb_neq in Hz.
  set (s := (a + 1, b + 1) : vpImagePoint).
  pose proof (scan_inv_start I0 cx _ _ _ s Hinv Hz) as Hstart.
  pose proof (expand_inv_consume I0 cx _ _ _ _ _ _ _ _ Hstart Hz) as Hfirst.
  destruct (visitNeighbors_loop_inv I0 cx _ _ _
              (visit_bound (set (I_copy st) (a + 1) (b + 1) 0)
                 (getNeighbors (I_copy st) [] (a + 1) (b + 1) cx))
              _ _ _ Hfirst) as (Ic' & L' & Hrun & Hend).
  { unfold visit_bound. lia. }
  unfold visitNeighbors. rewrite Hrun. intros [= <-]. right. simpl.
  split; [done|].
  by destruct (expand_inv_done I0 cx _ _ _ _ _ Hend) as (_ & HLs & _).
Qed.

Section Numbering.

Variable I : vpImage.
Variable cx : vpConnectedConnexityType.
Hypothesis wf_I : wf_image I.

Local Abbreviation I0 := (add_border I).

(** The pixel [r] of the bordered copy lies before raster position
    [(a, k)] of the input. *)
Definition scanned (a k : Z) (r : vpImagePoint) : Prop :=
  r.1 - 1 < a \/ (r.1 - 1 = a /\ r.2 - 1 < k).

(** Every label given so far is carried by a scanned pixel, and the pixels
    of a label come after the first pixel of every smaller label. *)
Definition numbered (a k : Z) (st : scan_state) : Prop :=
  (forall l, 1 <= l < current_label st ->
     exists r, lab (labels_copy st) r = l /\ scanned a k r) /\
  (forall p l, 1 <= l < lab (labels_copy st) p ->
     exists r, lab (labels_copy st) r = l /\ raster_lt r p).

Definition numbering_inv (a k : Z) (st : scan_state) : Prop :=
  row_inv I cx a k st /\ numbered a k st.

Lemma numbering_step a k st :
  numbering_inv a k st ->
  exists st', expand_pixel cx a k st = Some st' /\ numbering_inv a (k + 1) st'.
Proof.
  intros [[Hinv Hlab] [Hused Hord]].
  destruct (expand_pixel_inv I0 cx st a k Hinv)
    as (st' & Hrun & Hinv' & Hmono & Hnew).
  exists st'. split; [done|].
  pose proof (expand_pixel_fresh I0 cx st a k st' Hinv Hrun) as Hcase.
  pose proof Hinv' as (Hcons' & _ & Hrange' & _).
  pose proof Hcons' as (_ & _ & _ & _ & _ & _ & Hpix').
  assert (Hlab' : labelled_before I (a) (k + 1) (labels_copy st')).
  { intros i j Hj Hpos Hfg.
    destruct (decide (i - 1 = a /\ j - 1 = k)) as [[Hi Hjk]|Hne].
    - replace i with (a + 1) in * by lia. replace j with (k + 1) in * by lia.
      by apply Hnew.
    - assert (Hold : get (labels_copy st) i j <> 0)
        by (apply Hlab; [done|lia|done]).
      pose proof (Hmono (i, j) Hold) as Heq. unfold lab in Heq. simpl in Heq.
      congruence. }
  split; [done|].
  (* a pixel labelled by this iteration is not a scanned one *)
  assert (Hlate : forall p, lab (labels_copy st) p = 0 ->
            lab (labels_copy st') p <> 0 -> ~ scanned a k p).
  { intros [i j] Hp0 Hp' Hsc. unfold scanned in Hsc. simpl in Hsc.
    destruct (Hpix' (i, j)) as [_ Hfg]. destruct (Hfg Hp') as [_ Hfg0].
    unfold lab in Hfg0. simpl in Hfg0.
    pose proof (add_border_nonzero I i j wf_I Hfg0) as [_ Hj].
    apply (Hlab i j Hj Hsc Hfg0). exact Hp0. }
  assert (Hused' : forall l, 1 <= l < current_label st' ->
            exists r, lab (labels_copy st') r = l /\ scanned a (k + 1) r).
  { intros l Hl. destruct Hcase as [->|[Hcl Hseed]].
    - destruct (Hused l Hl) as (r & Hr & Hsc). exists r. split; [done|].
      unfold scanned in *. lia.
    - destruct (decide (l = current_label st)) as [->|Hne].
      + exists (a + 1, k + 1). split; [done|]. unfold scanned. simpl. lia.
      + destruct (Hused l) as (r & Hr & Hsc); [lia|]. exists r. split.
        * rewrite Hmono; [done|lia].
        * unfold scanned in *. lia. }
  split; [done|].
  intros p l Hl.
  destruct (decide (lab (labels_copy st) p = 0)) as [Hp0|Hp0].
  - assert (Hp' : lab (labels_copy st') p <> 0) by lia.
    pose proof (Hlate p Hp0 Hp') as Hnsc.
    destruct (Hrange' p Hp') as [_ Hhi].
    destruct Hcase as [->|[Hcl Hseed]]; [done|].
    destruct (Hused l) as (r & Hr & Hsc); [lia|]. exists r. split.
    + rewrite Hmono; [done|lia].
    + unfold scanned, raster_lt in *. lia.
  - rewrite (Hmono p Hp0) in Hl.
    destruct (Hord p l Hl) as (r & Hr & Hlt). exists r. split; [|done].
    rewrite Hmono; [done|lia].
Qed.

Lemma numbering_row a st :
  0 <= a -> numbering_inv a 0 st ->
  exists st',
    for_loop (getWidth I) (fun cpt2 => expand_pixel cx a cpt2) st = Some st' /\
    numbering_inv (a + 1) 0 st'.
Proof.
  intros Ha Hstart. pose proof wf_I as (_ & Hw & _).
  destruct (for_loop_invariant (numbering_inv a) (getWidth I)
              (fun cpt2 => expand_pixel cx a cpt2) st Hw Hstart)
    as (st' & Hrun & [Hinv Hlab] & Hused & Hord).
  - intros k s1 _ Hs1. by apply numbering_step.
  - exists st'. split; [done|]. split; [split; [done|]|split; [|done]].
    + intros i j Hj Hpos Hfg. apply Hlab; [done| |done]. lia.
    + intros l Hl. destruct (Hused l Hl) as (r & Hr & Hsc).
      exists r. split; [done|]. unfold scanned in *. lia.
Qed.

Lemma numbering_all :
  exists st,
    for_loop (getHeight I)
      (fun cpt1 => for_loop (getWidth I)
         (fun cpt2 => expand_pixel cx cpt1 cpt2))
      (mkScan I0 (make (getHeight I + 2) (getWidth I + 2) 0) 1) = Some st /\
    numbering_inv (getHeight I) 0 st.
Proof.
  pose proof wf_I as (Hh & Hw & _).
  apply (for_loop_invariant (fun a => numbering_inv a 0)); [done| |].
  - split; [split|split].
    + by apply scan_inv_initial.
    + intros i j Hj Hpos Hfg. apply add_border_nonzero in Hfg; [|done]. lia.
    + simpl. intros l Hl. lia.
    + simpl. intros p l Hl. unfold lab in Hl.
      destruct (decide (0 <= p.1 < getHeight I + 2 /\ 0 <= p.2 < getWidth I + 2))
        as [[Hi Hj]|Hout].
      * rewrite get_make in Hl by done. lia.
      * rewrite get_outside in Hl; [lia|apply wf_make; lia|].
        unfold inside. simpl. lia.
  - intros a st Ha Hrow. apply numbering_row; [lia|done].
Qed.

End Numbering.

Lemma wf_remove_border h w L :
  0 <= h -> 0 <= w -> wf_image L ->
  getHeight L = h + 2 -> getWidth L = w + 2 ->
  wf_image (remove_border h w L).
Proof.
  intros Hh Hw (_ & _ & Hl & Hr) HhL HwL. unfold remove_border.
  repeat split; simpl; try done.
  - rewrite length_map, length_take, length_drop. lia.
  - apply Forall_forall. intros r' Hin.
    apply list_elem_of_In, in_map_iff in Hin as (r & <- & Hin).
    apply list_elem_of_In in Hin.
    apply elem_of_take in Hin as (n & Hin & _).
    rewrite lookup_drop in Hin. apply list_elem_of_lookup_2 in Hin.
    rewrite Forall_forall in Hr. specialize (Hr r Hin).
    rewrite length_take, length_drop. lia.
Qed.

(** The labels of a completed call in terms of the count it returns. *)
Lemma connectedComponents_numbering (c : caller) (cx : vpConnectedConnexityType) :
  wf_image (arg_I c) -> getSize (arg_I c) <> 0 ->
  exists c',
    connectedComponents c cx = Some c' /\
    wf_image (arg_labels c') /\
    getHeight (arg_labels c') = getHeight (arg_I c) /\
    getWidth (arg_labels c') = getWidth (arg_I c) /\
    (forall i j, inside (arg_I c) i j ->
       0 <= get (arg_labels c') i j <= arg_nbComponents c') /\
    (forall l, 1 <= l <= arg_nbComponents c' ->
       exists r : vpImagePoint,
         inside (arg_I c) r.1 r.2 /\ get (arg_labels c') r.1 r.2 = l) /\
    (forall (p : vpImagePoint) l,
       inside (arg_I c) p.1 p.2 -> 1 <= l < get (arg_labels c') p.1 p.2 ->
       exists r : vpImagePoint,
         inside (arg_I c) r.1 r.2 /\ get (arg_labels c') r.1 r.2 = l /\
         raster_lt r p).
Proof.
  intros Hwf Hsz. unfold connectedComponents.
  pose proof Hwf as (Hh & Hw & _).
  apply Z.eqb_neq in Hsz. rewrite Hsz.
  destruct (numbering_all (arg_I c) cx Hwf)
    as (st & Hrun & [Hinv Hlab] & Hused & Hord).
  rewrite Hrun. eexists. split; [done|]. simpl.
  set (I := arg_I c) in *. set (L := labels_copy st) in *.
  destruct Hinv as (Hcons & Hn & Hrange & Hclass).
  pose proof Hcons as (_ & HwfL & _ & _ & HhL & HwL & Hpix).
  simpl in HhL, HwL.
  assert (Hget : forall i j, inside I i j ->
            get (remove_border (getHeight I) (getWidth I) L) i j
            = get L (i + 1) (j + 1)).
  { intros i j [Hi Hj]. by apply get_remove_border. }
  (* a labelled pixel of the bordered copy lies over the input *)
  assert (Hin : forall r : vpImagePoint, lab L r <> 0 ->
            inside I (r.1 - 1) (r.2 - 1)).
  { intros [i j] Hr. apply Hpix in Hr as [_ Hr]. unfold lab in Hr.
    simpl in *. apply add_border_nonzero in Hr; [|done].
    unfold inside. lia. }
  split_and!.
  - by apply wf_remove_border.
  - done.
  - done.
  - intros i j Hij. rewrite Hget by done.
    destruct (decide (get L (i + 1) (j + 1) = 0)) as [->|Hne]; [lia|].
    pose proof (Hrange (i + 1, j + 1) Hne) as Hr. unfold lab in Hr.
    simpl in Hr. lia.
  - intros l Hl. destruct (Hused l) as ([i j] & Hr & _); [lia|].
    assert (Hne : lab L (i, j) <> 0) by lia.
    pose proof (Hin _ Hne) as Hins. simpl in Hins.
    exists (i - 1, j - 1). simpl. split; [done|].
    rewrite Hget by done. unfold lab in Hr. simpl in Hr.
    by replace (i - 1 + 1) with i by lia; replace (j - 1 + 1) with j by lia.
  - intros [pi pj] l Hp Hl. simpl in *. rewrite Hget in Hl by done.
    destruct (Hord (pi + 1, pj + 1) l Hl) as ([i j] & Hr & Hlt).
    assert (Hne : lab L (i, j) <> 0) by lia.
    pose proof (Hin _ Hne) as Hins. simpl in Hins.
    exists (i - 1, j - 1). simpl. split; [done|]. split.
    + rewrite Hget by done. unfold lab in Hr. simpl in Hr.
      by replace (i - 1 + 1) with i by lia; replace (j - 1 + 1) with j by lia.
    + unfold raster_lt in *. simpl in *. lia.
Qed.

(** X1.  On a well-formed raster that is not empty, [connectedComponents]
    returns a well-formed label raster of the dimensions of the input whose
    labels are exactly the numbers [1 .. nbComponents] (and 0): every label
    lies in that range and every number of it labels some pixel. *)
Theorem connectedComponents_labels_exact
    (c : caller) (connexity : vpConnectedConnexityType) :
  wf_image (arg_I c) -> getSize (arg_I c) <> 0 ->
  exists c',
    connectedComponents c connexity = Some c' /\
    wf_image (arg_labels c') /\
    getHeight (arg_labels c') = getHeight (arg_I c) /\
    getWidth (arg_labels c') = getWidth (arg_I c) /\
    (forall i j, inside (arg_I c) i j ->
       0 <= get (arg_labels c') i j <= arg_nbComponents c') /\
    (forall l, 1 <= l <= arg_nbComponents c' ->
       exists r : vpImagePoint,
         inside (arg_I c) r.1 r.2 /\ get (arg_labels c') r.1 r.2 = l).
Proof.
  intros Hwf Hsz.
  destruct (connectedComponents_numbering c connexity Hwf Hsz)
    as (c' & Hrun & H1 & H2 & H3 & H4 & H5 & _).
  exists c'. by split_and!.
Qed.

Lemma connectedComponents_labels_exact_witness :
  wf_image (arg_I on_U_shape) /\ getSize (arg_I on_U_shape) <> 0 /\
  exists c',
    connectedComponents on_U_shape CONNECTED_CONNEXITY_8 = Some c' /\
    wf_image (arg_labels c') /\
    getHeight (arg_labels c') = getHeight (arg_I on_U_shape) /\
    getWidth (arg_labels c') = getWidth (arg_I on_U_shape) /\
    (forall i j, inside (arg_I on_U_shape) i j ->
       0 <= get (arg_labels c') i j <= arg_nbComponents c') /\
    (forall l, 1 <= l <= arg_nbComponents c' ->
       exists r : vpImagePoint,
         inside (arg_I on_U_shape) r.1 r.2 /\
         get (arg_labels c') r.1 r.2 = l).
Proof.
  assert (Hwf : wf_image (arg_I on_U_shape)).
  { apply wf_imageb_spec. vm_compute. reflexivity. }
  assert (Hsz : getSize (arg_I on_U_shape) <> 0) by (vm_compute; discriminate).
  split; [exact Hwf|]. split; [exact Hsz|].
  exact (connectedComponents_labels_exact on_U_shape CONNECTED_CONNEXITY_8
           Hwf Hsz).
Defined.

Definition two_dots : vpImage := mkImage 1 3 [[1; 0; 1]].
Definition on_two_dots : caller := mkCaller two_dots empty_image 0.

(** X2.  [connectedComponents] numbers the components in the raster order
    of their first pixels: whenever a pixel carries a label, every smaller
    positive number labels a pixel that comes earlier in the raster scan. *)
Theorem connectedComponents_raster_numbering
    (c : caller) (connexity : vpConnectedConnexityType) :
  wf_image (arg_I c) -> getSize (arg_I c) <> 0 ->
  exists c',
    connectedComponents c connexity = Some c' /\
    forall (p : vpImagePoint) l,
      inside (arg_I c) p.1 p.2 -> 1 <= l < get (arg_labels c') p.1 p.2 ->
      exists r : vpImagePoint,
        inside (arg_I c) r.1 r.2 /\ get (arg_labels c') r.1 r.2 = l /\
        raster_lt r p.
Proof.
  intros Hwf Hsz.
  destruct (connectedComponents_numbering c connexity Hwf Hsz)
    as (c' & Hrun & _ & _ & _ & _ & _ & H6).
  exists c'. by split.
Qed.

Lemma connectedComponents_raster_numbering_witness :
  wf_image (arg_I on_two_dots) /\ getSize (arg_I on_two_dots) <> 0 /\
  exists c',
    connectedComponents on_two_dots CONNECTED_CONNEXITY_4 = Some c' /\
    forall (p : vpImagePoint) l,
      inside (arg_I on_two_dots) p.1 p.2 ->
      1 <= l < get (arg_labels c') p.1 p.2 ->
      exists r : vpImagePoint,
        inside (arg_I on_two_dots) r.1 r.2 /\
        get (arg_labels c') r.1 r.2 = l /\ raster_lt r p.
Proof.
  assert (Hwf : wf_image (arg_I on_two_dots)).
  { apply wf_imageb_spec. vm_compute. reflexivity. }
  assert (Hsz : getSize (arg_I on_two_dots) <> 0) by (vm_compute; discriminate).
  split; [exact Hwf|]. split; [exact Hsz|].
  exact (connectedComponents_raster_numbering on_two_dots CONNECTED_CONNEXITY_4
           Hwf Hsz).
Defined.

(** *** The two-pass labeller: what its labels guarantee *)

Lemma elem_of_insert_if b v s x :
  x ∈ insert_if b v s <-> (b = true /\ x = v) \/ x ∈ s.
Proof.
  unfold insert_if. destruct b.
  - rewrite elem_of_union, elem_of_singleton. tauto.
  - split; [tauto|]. intros [[? _]|?]; done.
Qed.

(** The neighbours already visited by a raster scan under each connexity:
    top and left, and the two upper diagonals under 8-connexity. *)
Definition visited_neighbours (connexity : vpConnectedConnexityType)
    (i j : Z) : list vpImagePoint :=
  match connexity with
  | CONNECTED_CONNEXITY_4 => [(i - 1, j); (i, j - 1)]
  | CONNECTED_CONNEXITY_8 =>
      [(i - 1, j - 1); (i - 1, j); (i - 1, j + 1); (i, j - 1)]
  end.

Lemma elem_of_getNeighborLabels I labels i j c x :
  x ∈ getNeighborLabels I labels i j c <->
  exists r : vpImagePoint,
    r ∈ visited_neighbours c i j /\
    get I r.1 r.2 = get I i j /\ get labels r.1 r.2 = x /\ x <> 0.
Proof.
  unfold getNeighborLabels, visited_neighbours. destruct c; simpl.
  - rewrite !elem_of_insert_if, !andb_true_iff, !negb_true_iff,
      !Z.eqb_eq, !Z.eqb_neq. split.
    + intros [[[He Hn] ->]|[[[He Hn] ->]|H]].
      * exists (i, j - 1). simpl. split_and!; try done.
        repeat first [by left | right].
      * exists (i - 1, j). simpl. split_and!; try done.
        repeat first [by left | right].
      * by apply not_elem_of_empty in H.
    + intros ([a b] & Hr & He & <- & Hn). simpl in *.
      apply elem_of_cons in Hr as [[= -> ->]|Hr]; [right; left; done|].
      apply elem_of_cons in Hr as [[= -> ->]|Hr]; [left; done|].
      by apply elem_of_nil in Hr.
  - rewrite !elem_of_insert_if, !andb_true_iff, !negb_true_iff,
      !Z.eqb_eq, !Z.eqb_neq. rewrite !Z.add_0_r. split.
    + intros [[[He Hn] ->]|[[[He Hn] ->]|[[[He Hn] ->]|[[[He Hn] ->]|H]]]].
      * exists (i, j - 1). simpl. split_and!; try done.
        repeat first [by left | right].
      * exists (i - 1, j + 1). simpl. split_and!; try done.
        repeat first [by left | right].
      * exists (i - 1, j). simpl. split_and!; try done.
        repeat first [by left | right].
      * exists (i - 1, j + -1). simpl. split_and!; try done.
        replace (j + -1) with (j - 1) by lia.
        repeat first [by left | right].
      * by apply not_elem_of_empty in H.
    + intros ([a b] & Hr & He & <- & Hn). simpl in *.
      apply elem_of_cons in Hr as [[= -> ->]|Hr].
      { right; right; right; left. replace (j + -1) with (j - 1) by lia. done. }
      apply elem_of_cons in Hr as [[= -> ->]|Hr]; [right; right; left; done|].
      apply elem_of_cons in Hr as [[= -> ->]|Hr]; [right; left; done|].
      apply elem_of_cons in Hr as [[= -> ->]|Hr]; [left; done|].
      by apply elem_of_nil in Hr.
Qed.

Lemma visited_neighbours_adjacent c i j r :
  r ∈ visited_neighbours c i j -> adjacent c (i, j) r.
Proof.
  unfold visited_neighbours, adjacent. destruct c; simpl; intros Hr;
    repeat (apply elem_of_cons in Hr as [->|Hr]; [simpl; lia|]);
    by apply elem_of_nil in Hr.
Qed.

Lemma visited_neighbours_scanned c a k r :
  r ∈ visited_neighbours c (a + 1) (k + 1) -> r.1 - 1 < a \/ (r.1 - 1 = a /\ r.2 - 1 < k).
Proof.
  unfold visited_neighbours. destruct c; simpl; intros Hr;
    repeat (apply elem_of_cons in Hr as [->|Hr]; [simpl; lia|]);
    by apply elem_of_nil in Hr.
Qed.

Lemma elem_of_set_elements (s : gset Z) x : x ∈ set_elements s <-> x ∈ s.
Proof.
  unfold set_elements. rewrite merge_sort_Permutation. apply elem_of_elements.
Qed.

Lemma set_elements_nil (s : gset Z) : set_elements s = [] -> s = ∅.
Proof.
  intros Hnil. apply set_eq. intros x. rewrite <- elem_of_set_elements, Hnil.
  split; intros Hx; [by apply elem_of_nil in Hx|by apply not_elem_of_empty in Hx].
Qed.

Lemma set_begin_elem (s : gset Z) x : x ∈ s -> set_begin s ∈ s.
Proof.
  intros Hx. unfold set_begin.
  destruct (set_elements s) as [|y l] eqn:Hl.
  - apply set_elements_nil in Hl. subst s. by apply not_elem_of_empty in Hx.
  - simpl. apply elem_of_set_elements. rewrite Hl. left.
Qed.

Lemma elem_of_at_key (m : gmap Z (gset Z)) k x :
  x ∈ at_key m k <-> exists s, m !! k = Some s /\ x ∈ s.
Proof.
  unfold at_key. destruct (m !! k) as [s|]; simpl.
  - split; [eauto|]. by intros (s' & [= <-] & ?).
  - split; [intros Hx; by apply not_elem_of_empty in Hx|]. by intros (s & ? & _).
Qed.

Lemma at_key_insert (m : gmap Z (gset Z)) k s : at_key (<[k := s]> m) k = s.
Proof. unfold at_key. by rewrite lookup_insert_eq. Qed.

Lemma at_key_insert_ne (m : gmap Z (gset Z)) k k' s :
  k <> k' -> at_key (<[k := s]> m) k' = at_key m k'.
Proof. intros Hne. unfold at_key. by rewrite lookup_insert_ne. Qed.

Section TwoPass.

Variable I : vpImage.
Variable cx : vpConnectedConnexityType.
Hypothesis wf_I : wf_image I.

Local Abbreviation Ic := (add_border I).
Local Abbreviation conn := (connected (get Ic) cx).

(** Pixels that share a label are joined by a path. *)
Definition class_sound (L : vpImage) : Prop :=
  forall p q, lab L p <> 0 -> lab L p = lab L q -> conn p q.

(** Some pixel labelled [k] is joined to some pixel labelled [x]. *)
Definition conn_lab (L : vpImage) (k x : Z) : Prop :=
  exists p q, lab L p = k /\ lab L q = x /\ conn p q.

(** The recorded equivalences only relate labels of joined pixels, and
    every label given so far is recorded as equivalent to itself. *)
Definition eq_ok (L : vpImage) (cl : Z) (m : gmap Z (gset Z)) : Prop :=
  (forall k s x, m !! k = Some s -> x ∈ s ->
     1 <= k < cl /\ 1 <= x < cl /\ conn_lab L k x) /\
  (forall k, 1 <= k < cl -> k ∈ at_key m k).

Lemma conn_lab_trans L k x y :
  class_sound L -> x <> 0 ->
  conn_lab L k x -> conn_lab L x y -> conn_lab L k y.
Proof.
  intros Hs Hx (p & q & Hp & Hq & Hpq) (q' & r & Hq' & Hr & Hqr).
  exists p, r. split_and!; [done|done|].
  eapply connected_trans; [exact Hpq|].
  eapply connected_trans; [|exact Hqr].
  apply Hs; congruence.
Qed.

(** One step of the loop between the passes keeps the equivalences sound. *)
Lemma merge_step_ok L cl m k x :
  class_sound L -> eq_ok L cl m ->
  1 <= k < cl -> 1 <= x < cl -> conn_lab L k x ->
  eq_ok L cl (if negb (k =? x) then <[k := at_key m k ∪ at_key m x]> m else m).
Proof.
  intros Hs [Hrel Hself] Hk Hx Hkx.
  destruct (negb (k =? x)); [|done]. split.
  - intros k' s y Hlook Hy.
    apply lookup_insert_Some in Hlook as [[<- <-]|[Hne Hlook]].
    + apply elem_of_union in Hy as [Hy|Hy].
      * apply elem_of_at_key in Hy as (s & Hlook & Hy). by eapply Hrel.
      * apply elem_of_at_key in Hy as (s & Hlook & Hy).
        destruct (Hrel x s y Hlook Hy) as (_ & Hyr & Hxy).
        split; [lia|]. split; [lia|].
        eapply conn_lab_trans; [done| |exact Hkx|exact Hxy]. lia.
    + by eapply Hrel.
  - intros k' Hk'. destruct (decide (k' = k)) as [->|Hne].
    + rewrite at_key_insert. apply elem_of_union. left. by apply Hself.
    + rewrite at_key_insert_ne by done. by apply Hself.
Qed.

Lemma merge_equivalences_ok L cl m :
  class_sound L -> eq_ok L cl m -> eq_ok L cl (merge_equivalences m).
Proof.
  intros Hs. unfold merge_equivalences.
  generalize (merge_sort Z.le (elements (dom m))). intros ks.
  revert m. induction ks as [|k ks IH]; intros m Hok; [done|].
  simpl. apply IH.
  assert (Hall : forall x, x ∈ set_elements (at_key m k) ->
            1 <= k < cl /\ 1 <= x < cl /\ conn_lab L k x).
  { intros x Hx. apply elem_of_set_elements, elem_of_at_key in Hx
      as (s & Hlook & Hx). destruct Hok as [Hrel _]. by eapply Hrel. }
  revert Hall. generalize (set_elements (at_key m k)). intros xs.
  revert m Hok. induction xs as [|x xs IHx]; intros m Hok Hall; [done|].
  simpl. apply IHx.
  - destruct (Hall x) as (Hk & Hx & Hkx); [left|].
    by apply merge_step_ok.
  - intros y Hy. apply Hall. by right.
Qed.

(** The state of the first pass before raster position [(a, k)]. *)
Definition first_pass_inv (a k : Z) (st : pass_state) : Prop :=
  let L := p_labels_copy st in
  wf_image L /\
  getHeight L = getHeight I + 2 /\ getWidth L = getWidth I + 2 /\
  1 <= p_current_label st /\
  (forall p, lab L p <> 0 ->
     lab Ic p <> 0 /\ 1 <= lab L p < p_current_label st /\ scanned a k p) /\
  labelled_before I a k L /\
  class_sound L /\
  eq_ok L (p_current_label st) (equivalent_labels st).


(** Labelling one more pixel keeps the pairs of joined labels. *)
Lemma conn_lab_set L i j v k x :
  get L i j = 0 -> k <> 0 -> x <> 0 ->
  conn_lab L k x -> conn_lab (set L i j v) k x.
Proof.
  intros H0 Hk Hx (p & q & Hp & Hq & Hpq). exists p, q.
  split_and!; [| |done].
  - rewrite (lab_set_other L (i, j)); [done|]. intros ->. unfold lab in Hp.
    simpl in Hp. congruence.
  - rewrite (lab_set_other L (i, j)); [done|]. intros ->. unfold lab in Hq.
    simpl in Hq. congruence.
Qed.

Lemma eq_ok_set L i j v cl cl' m :
  get L i j = 0 -> cl <= cl' ->
  eq_ok L cl m ->
  (forall k s x, m !! k = Some s -> x ∈ s ->
     1 <= k < cl' /\ 1 <= x < cl' /\ conn_lab (set L i j v) k x).
Proof.
  intros H0 Hle [Hrel _] k s x Hlook Hx.
  destruct (Hrel k s x Hlook Hx) as (Hk & Hxr & Hkx).
  split; [lia|]. split; [lia|]. apply conn_lab_set; [done|lia|lia|done].
Qed.

(** The pixel under the scan receives the label [v], a label whose pixels
    are all joined to it. *)
Lemma first_pass_assign a k st v cl' m' :
  first_pass_inv a k st ->
  get Ic (a + 1) (k + 1) <> 0 ->
  1 <= v < cl' -> p_current_label st <= cl' ->
  (forall q, lab (p_labels_copy st) q = v -> conn (a + 1, k + 1) q) ->
  eq_ok (set (p_labels_copy st) (a + 1) (k + 1) v) cl' m' ->
  first_pass_inv a (k + 1)
    (mkPass (set (p_labels_copy st) (a + 1) (k + 1) v) cl' m').
Proof.
  intros (HwfL & HhL & HwL & Hcl & Hlabs & Hbefore & Hsound & Hok)
         Hfg Hv Hle Hjoin Hok'.
  set (L := p_labels_copy st) in *. set (p0 := (a + 1, k + 1) : vpImagePoint).
  assert (Hp0 : lab L p0 = 0).
  { destruct (decide (lab L p0 = 0)) as [|Hne]; [done|].
    destruct (Hlabs p0 Hne) as (_ & _ & Hsc). unfold scanned in Hsc.
    simpl in Hsc. lia. }
  assert (Hin : inside L (a + 1) (k + 1)).
  { apply add_border_nonzero in Hfg; [|done]. unfold inside. lia. }
  assert (Hsame : lab (set L (a + 1) (k + 1) v) p0 = v)
    by (by apply (lab_set_same L p0)).
  assert (Hother : forall r, r <> p0 -> lab (set L (a + 1) (k + 1) v) r = lab L r)
    by (intros r Hr; by apply (lab_set_other L p0)).
  unfold first_pass_inv. simpl. split_and!.
  - by apply wf_set.
  - by rewrite getHeight_set.
  - by rewrite getWidth_set.
  - lia.
  - intros p Hp. destruct (decide (p = p0)) as [->|Hne].
    + rewrite Hsame. split; [done|]. split; [lia|].
      unfold scanned. simpl. lia.
    + rewrite Hother in * by done.
      destruct (Hlabs p Hp) as (Hpf & Hr & Hsc).
      split; [done|]. split; [lia|]. unfold scanned in *. lia.
  - intros i j Hj Hpos Hf.
    destruct (decide ((i, j) = p0)) as [Heq|Hne].
    + injection Heq as -> ->. change (lab (set L (a + 1) (k + 1) v) p0 <> 0).
      rewrite Hsame. lia.
    + change (lab (set L (a + 1) (k + 1) v) (i, j) <> 0).
      rewrite Hother by done.
      apply Hbefore; [done| |done].
      assert (Hd : i <> a + 1 \/ j <> k + 1).
      { destruct (decide (i = a + 1)) as [->|]; [|by left].
        destruct (decide (j = k + 1)) as [->|]; [|by right]. done. }
      clear - Hpos Hd. simpl. lia.
  - intros p q Hp Hpq.
    destruct (decide (p = p0)) as [->|Hnp], (decide (q = p0)) as [->|Hnq].
    + apply rtc_refl.
    + rewrite Hsame, Hother in Hpq by done. by apply Hjoin.
    + rewrite Hsame, Hother in Hpq by done. apply connected_sym. by apply Hjoin.
    + rewrite !Hother in * by done. by apply Hsound.
  - done.
Qed.

Lemma first_pass_step a k st :
  first_pass_inv a k st ->
  exists st',
    first_pass_pixel Ic cx a k st = Some st' /\ first_pass_inv a (k + 1) st'.
Proof.
  intros Hinv. destruct st as [L cl m].
  pose proof Hinv as (HwfL & HhL & HwL & Hcl & Hlabs & Hbefore & Hsound & Hok).
  simpl in HwfL, HhL, HwL, Hcl, Hlabs, Hbefore, Hsound, Hok.
  unfold first_pass_pixel. simpl.
  destruct (get Ic (a + 1) (k + 1) =? 0) eqn:Hz; simpl.
  - apply Z.eqb_eq in Hz. eexists. split; [done|].
    unfold first_pass_inv. simpl. split_and!; try done.
    + intros p Hp. destruct (Hlabs p Hp) as (Hpf & Hr & Hsc).
      split; [done|]. split; [done|]. unfold scanned in *. lia.
    + intros i j Hj Hpos Hf. apply Hbefore; [done| |done].
      destruct (decide (i = a + 1 /\ j = k + 1)) as [[-> ->]|Hne]; [done|].
      clear - Hpos Hne. lia.
  - apply Z.eqb_neq in Hz.
    set (p0 := (a + 1, k + 1) : vpImagePoint).
    assert (Hp0 : get L (a + 1) (k + 1) = 0).
    { destruct (decide (lab L p0 = 0)) as [|Hne]; [done|].
      destruct (Hlabs p0 Hne) as (_ & _ & Hsc). unfold scanned in Hsc.
      simpl in Hsc. lia. }
    assert (Hin : inside L (a + 1) (k + 1)).
    { apply add_border_nonzero in Hz; [|done]. unfold inside. lia. }
    (* every label of a visited neighbour is the label of a pixel joined
       to the pixel under the scan *)
    assert (Hnl : forall x, x ∈ getNeighborLabels Ic L (a + 1) (k + 1) cx ->
              1 <= x < cl /\
              exists r, lab L r = x /\ conn p0 r).
    { intros x Hx. apply elem_of_getNeighborLabels in Hx
        as (r & Hr & He & Hlr & Hx0).
      assert (Hne : lab L r <> 0) by (unfold lab; congruence).
      destruct (Hlabs r Hne) as (_ & Hrange & _).
      split; [unfold lab in Hrange; lia|].
      exists r. split; [done|]. apply rtc_once. unfold link. split_and!.
      - by apply visited_neighbours_adjacent.
      - simpl. done.
      - done. }
    destruct (set_elements (getNeighborLabels Ic L (a + 1) (k + 1) cx))
      as [|s0 rest] eqn:Hel.
    + (* a fresh provisional label *)
      eexists. split; [done|].
      apply (first_pass_assign a k (mkPass L cl m)); simpl;
        [done|done|lia|lia| |].
      * intros q Hq. assert (Hne : lab L q <> 0) by lia.
        destruct (Hlabs q Hne) as (_ & Hrange & _). lia.
      * split.
        -- intros k' s x Hlook Hx.
           apply lookup_insert_Some in Hlook as [[<- <-]|[Hne Hlook]].
           ++ apply elem_of_union in Hx as [Hx|Hx].
              ** apply elem_of_singleton in Hx as ->.
                 split; [lia|]. split; [lia|]. exists p0, p0.
                 split_and!; [| |apply rtc_refl];
                   by apply (lab_set_same L p0).
              ** apply elem_of_at_key in Hx as (s & Hlook & Hx).
                 destruct Hok as [Hrel _].
                 destruct (Hrel cl s x Hlook Hx) as (Hbad & _). lia.
           ++ eapply (eq_ok_set L _ _ _ cl (cl + 1) m); [done|lia|done|done|done].
        -- intros k' Hk'. destruct (decide (k' = cl)) as [->|Hne].
           ++ rewrite at_key_insert. apply elem_of_union. left.
              by apply elem_of_singleton.
           ++ rewrite at_key_insert_ne by done.
              destruct Hok as [_ Hself]. apply Hself. lia.
    + (* the smallest label of the visited neighbours *)
      assert (Hs0 : s0 ∈ getNeighborLabels Ic L (a + 1) (k + 1) cx).
      { apply elem_of_set_elements. rewrite Hel. left. }
      destruct (Hnl s0 Hs0) as (Hs0r & r0 & Hr0 & Hc0).
      assert (Hall : forall x, x ∈ s0 :: rest ->
                x ∈ getNeighborLabels Ic L (a + 1) (k + 1) cx)
        by (intros x; rewrite <- Hel; apply elem_of_set_elements).
      eexists. split; [done|].
      apply (first_pass_assign a k (mkPass L cl m));
        [done|done|simpl; lia|simpl; lia| |].
      * simpl. intros q Hq. eapply connected_trans; [exact Hc0|].
        apply Hsound; [lia|congruence].
      * cbn [p_labels_copy].
        assert (Hstart : eq_ok (set L (a + 1) (k + 1) s0) cl m).
        { split.
          - by apply (eq_ok_set L _ _ _ cl cl m); [|lia|].
          - by destruct Hok. }
        clear Hinv Hok. revert Hall Hstart. generalize (s0 :: rest).
        intros xs. revert m.
        induction xs as [|x xs IH]; intros m Hall Hstart; [done|].
        simpl. apply IH.
        -- intros y Hy. apply Hall. by right.
        -- destruct Hstart as [Hrel Hself]. split.
           ++ intros k' s y Hlook Hy.
              apply lookup_insert_Some in Hlook as [[<- <-]|[Hne Hlook]];
                [|by eapply Hrel].
              apply elem_of_union in Hy as [Hy|Hy].
              { apply elem_of_at_key in Hy as (s & Hlook & Hy). by eapply Hrel. }
              destruct (Hnl x) as (Hxr & rx & Hrx & Hcx); [apply Hall; left|].
              destruct (Hnl y Hy) as (Hyr & ry & Hry & Hcy).
              split; [lia|]. split; [lia|]. exists rx, ry.
              split_and!.
              ** rewrite (lab_set_other L p0); [done|]. intros ->.
                 unfold lab in Hrx. simpl in Hrx. lia.
              ** rewrite (lab_set_other L p0); [done|]. intros ->.
                 unfold lab in Hry. simpl in Hry. lia.
              ** eapply connected_trans; [|exact Hcy].
                 by apply connected_sym.
           ++ intros k' Hk'. destruct (decide (k' = x)) as [->|Hne].
              ** rewrite at_key_insert. apply elem_of_union. left. by apply Hself.
              ** rewrite at_key_insert_ne by done. by apply Hself.
Qed.

Lemma first_pass_row a st :
  first_pass_inv a 0 st ->
  exists st',
    for_loop (getWidth I) (fun cpt2 => first_pass_pixel Ic cx a cpt2) st
    = Some st' /\
    first_pass_inv (a + 1) 0 st'.
Proof.
  intros Hstart. pose proof wf_I as (_ & Hw & _).
  destruct (for_loop_invariant (first_pass_inv a) (getWidth I)
              (fun cpt2 => first_pass_pixel Ic cx a cpt2) st Hw Hstart)
    as (st' & Hrun & HwfL & HhL & HwL & Hcl & Hlabs & Hbefore & Hsound & Hok).
  - intros k s1 _ Hs1. by apply first_pass_step.
  - exists st'. split; [done|]. unfold first_pass_inv. split_and!; try done.
    + intros p Hp. destruct (Hlabs p Hp) as (Hpf & Hr & Hsc).
      split; [done|]. split; [done|]. unfold scanned in *. lia.
    + intros i j Hj Hpos Hf. apply Hbefore; [done| |done]. lia.
Qed.

Lemma first_pass_all :
  exists st,
    for_loop (getHeight I)
      (fun cpt1 => for_loop (getWidth I)
         (fun cpt2 => first_pass_pixel Ic cx cpt1 cpt2))
      (mkPass (make (getHeight I + 2) (getWidth I + 2) 0) 1 ∅) = Some st /\
    first_pass_inv (getHeight I) 0 st.
Proof.
  pose proof wf_I as (Hh & Hw & _).
  assert (Hzero : forall p, lab (make (getHeight I + 2) (getWidth I + 2) 0) p = 0).
  { intros [i j]. unfold lab. simpl.
    destruct (decide (0 <= i < getHeight I + 2 /\ 0 <= j < getWidth I + 2))
      as [[Hi Hj]|Hout].
    - by apply get_make.
    - apply get_outside; [apply wf_make; lia|]. unfold inside. simpl. lia. }
  apply (for_loop_invariant (fun a => first_pass_inv a 0)); [done| |].
  - unfold first_pass_inv. simpl. split_and!; try done.
    + apply wf_make; lia.
    + intros p Hp. by rewrite Hzero in Hp.
    + intros i j Hj Hpos Hfg. apply add_border_nonzero in Hfg; [|done]. lia.
    + intros p q Hp. by rewrite Hzero in Hp.
    + split; [|intros k Hk; lia]. intros k s x Hlook.
      by rewrite lookup_empty in Hlook.
  - intros a st _ Hrow. by apply first_pass_row.
Qed.

(** The second pass before raster position [(a, k)]: the scanned
    foreground pixels carry the representative of their provisional label
    [L1], the other pixels still carry [L1]. *)
Definition second_pass_inv (m : gmap Z (gset Z)) (L1 : vpImage) (a k : Z)
    (L : vpImage) : Prop :=
  wf_image L /\
  getHeight L = getHeight I + 2 /\ getWidth L = getWidth I + 2 /\
  forall p,
    (scanned a k p -> lab Ic p <> 0 ->
     lab L p = set_begin (at_key m (lab L1 p))) /\
    (~ (scanned a k p /\ lab Ic p <> 0) -> lab L p = lab L1 p).

Lemma second_pass_step m L1 a k L :
  second_pass_inv m L1 a k L ->
  exists L',
    second_pass_pixel Ic m a k L = Some L' /\ second_pass_inv m L1 a (k + 1) L'.
Proof.
  intros (HwfL & HhL & HwL & Hpix). unfold second_pass_pixel.
  set (p0 := (a + 1, k + 1) : vpImagePoint).
  assert (Hnot : ~ scanned a k p0) by (unfold scanned; simpl; lia).
  assert (Hnext : forall p, p <> p0 -> scanned a (k + 1) p -> scanned a k p).
  { intros [i j] Hne Hsc. unfold scanned in *. simpl in *.
    destruct (decide (i = a + 1)) as [->|]; [|lia].
    destruct (decide (j = k + 1)) as [->|]; [done|lia]. }
  destruct (get Ic (a + 1) (k + 1) =? 0) eqn:Hz; simpl.
  - apply Z.eqb_eq in Hz. exists L. split; [done|].
    unfold second_pass_inv. split_and!; try done.
    intros p. destruct (Hpix p) as [Hdone Htodo]. split.
    + intros Hsc Hfg. apply Hdone; [|done]. apply Hnext; [|done].
      intros ->. done.
    + intros Hn. apply Htodo. intros [Hsc Hfg]. apply Hn. split; [|done].
      unfold scanned in *. lia.
  - apply Z.eqb_neq in Hz. eexists. split; [done|].
    assert (Hin : inside L (a + 1) (k + 1)).
    { apply add_border_nonzero in Hz; [|done]. unfold inside. lia. }
    assert (Hold : get L (a + 1) (k + 1) = lab L1 p0).
    { destruct (Hpix p0) as [_ Htodo]. apply Htodo. tauto. }
    rewrite Hold. unfold second_pass_inv. split_and!.
    + by apply wf_set.
    + by rewrite getHeight_set.
    + by rewrite getWidth_set.
    + intros p. destruct (Hpix p) as [Hdone Htodo].
      destruct (decide (p = p0)) as [->|Hne].
      * split.
        -- intros _ _. by apply (lab_set_same L p0).
        -- intros Hn. exfalso. apply Hn. split; [|done].
           unfold scanned. simpl. lia.
      * rewrite (lab_set_other L p0) by done. split.
        -- intros Hsc Hfg. apply Hdone; [|done]. by apply Hnext.
        -- intros Hn. apply Htodo. intros [Hsc Hfg]. apply Hn. split; [|done].
           unfold scanned in *. lia.
Qed.

Lemma second_pass_all m L1 :
  wf_image L1 ->
  getHeight L1 = getHeight I + 2 -> getWidth L1 = getWidth I + 2 ->
  exists L,
    for_loop (getHeight I)
      (fun cpt1 => for_loop (getWidth I)
         (fun cpt2 => second_pass_pixel Ic m cpt1 cpt2)) L1 = Some L /\
    second_pass_inv m L1 (getHeight I) 0 L.
Proof.
  intros HwfL HhL HwL. pose proof wf_I as (Hh & Hw & _).
  apply (for_loop_invariant (fun a => second_pass_inv m L1 a 0)); [done| |].
  - unfold second_pass_inv. split_and!; try done.
    intros p. split; [|done]. intros Hsc Hfg. exfalso.
    destruct p as [i j]. unfold lab in Hfg. simpl in Hfg.
    apply add_border_nonzero in Hfg; [|done].
    unfold scanned in Hsc. simpl in Hsc. lia.
  - intros a L _ Hrow.
    destruct (for_loop_invariant (second_pass_inv m L1 a) (getWidth I)
                (fun cpt2 => second_pass_pixel Ic m a cpt2) L Hw Hrow)
      as (L' & Hrun & HwfL' & HhL' & HwL' & Hpix).
    + intros k s1 _ Hs1. by apply second_pass_step.
    + exists L'. split; [done|]. unfold second_pass_inv. split_and!; try done.
      intros p. destruct (Hpix p) as [Hdone Htodo]. split.
      * intros Hsc Hfg.
        destruct (decide (scanned a (getWidth I) p)) as [Hs|Hs];
          [by apply Hdone|].
        exfalso. destruct p as [i j]. unfold lab in Hfg. simpl in Hfg.
        apply add_border_nonzero in Hfg; [|done].
        unfold scanned in *. simpl in *. lia.
      * intros Hn. apply Htodo. intros [Hsc Hfg]. apply Hn. split; [|done].
        unfold scanned in *. lia.
Qed.

End TwoPass.

(** The labels returned by [connectedComponents2] on a well-formed image. *)
Lemma connectedComponents2_labels (c : caller) (cx : vpConnectedConnexityType) :
  wf_image (arg_I c) ->
  exists c',
    connectedComponents2 c cx = Some c' /\
    (forall i j, inside (arg_I c) i j -> get (arg_I c) i j = 0 ->
                 get (arg_labels c') i j = 0) /\
    (forall i j, inside (arg_I c) i j -> get (arg_I c) i j <> 0 ->
                 1 <= get (arg_labels c') i j <= arg_nbComponents c') /\
    (forall p q : vpImagePoint,
       inside (arg_I c) p.1 p.2 -> inside (arg_I c) q.1 q.2 ->
       get (arg_labels c') p.1 p.2 <> 0 ->
       get (arg_labels c') p.1 p.2 = get (arg_labels c') q.1 q.2 ->
       connected (get (arg_I c)) cx p q) /\
    (getSize (arg_I c) <> 0 -> 0 <= arg_nbComponents c').
Proof.
  intros Hwf. unfold connectedComponents2.
  pose proof Hwf as (Hh & Hw & _).
  destruct (getSize (arg_I c) =? 0) eqn:Hsz.
  { apply Z.eqb_eq in Hsz. exists c. split; [done|].
    split_and!; intros; unfold inside, getSize in *; nia. }
  destruct (first_pass_all (arg_I c) cx Hwf) as (st & Hrun1 & Hinv).
  rewrite Hrun1.
  destruct Hinv as (HwfL & HhL & HwL & Hcl & Hlabs & Hbefore & Hsound & Hok).
  destruct (second_pass_all (arg_I c) Hwf
              (merge_equivalences (equivalent_labels st))
              (p_labels_copy st) HwfL HhL HwL)
    as (L2 & Hrun2 & _ & _ & _ & Hpix).
  rewrite Hrun2. eexists. split; [done|]. simpl.
  set (I := arg_I c) in *. set (L1 := p_labels_copy st) in *.
  set (m := merge_equivalences (equivalent_labels st)) in *.
  pose proof (merge_equivalences_ok I cx L1 _ _ Hsound Hok) as [Hrel Hself].
  fold m in Hrel, Hself.
  assert (Hget : forall i j, inside I i j ->
            get (remove_border (getHeight I) (getWidth I) L2) i j
            = get L2 (i + 1) (j + 1)).
  { intros i j [Hi Hj]. by apply get_remove_border. }
  assert (HI0 : forall i j, get (add_border I) (i + 1) (j + 1) = get I i j).
  { intros i j. rewrite get_add_border by done. f_equal; lia. }
  (* the label of a background and of a foreground pixel *)
  assert (Hbg : forall i j, get I i j = 0 -> get L2 (i + 1) (j + 1) = 0).
  { intros i j Hz. destruct (Hpix (i + 1, j + 1)) as [_ Htodo].
    unfold lab in Htodo. simpl in Htodo. rewrite Htodo.
    - destruct (decide (get L1 (i + 1) (j + 1) = 0)) as [|Hne]; [done|].
      destruct (Hlabs (i + 1, j + 1) Hne) as (Hfg & _).
      unfold lab in Hfg. simpl in Hfg. by rewrite HI0 in Hfg.
    - intros [_ Hfg]. by rewrite HI0 in Hfg. }
  assert (Hfg : forall i j, inside I i j -> get I i j <> 0 ->
            exists l, get L1 (i + 1) (j + 1) = l /\ 1 <= l < p_current_label st /\
              get L2 (i + 1) (j + 1) = set_begin (at_key m l) /\
              set_begin (at_key m l) ∈ at_key m l).
  { intros i j [Hi Hj] Hne. exists (get L1 (i + 1) (j + 1)).
    assert (Hl1 : get L1 (i + 1) (j + 1) <> 0).
    { apply Hbefore; [lia|lia|]. by rewrite HI0. }
    destruct (Hlabs (i + 1, j + 1) Hl1) as (_ & Hrange & _).
    unfold lab in Hrange. simpl in Hrange.
    split; [done|]. split; [done|]. split.
    - destruct (Hpix (i + 1, j + 1)) as [Hdone _].
      unfold lab in Hdone. simpl in Hdone. apply Hdone.
      + unfold scanned. simpl. lia.
      + by rewrite HI0.
    - eapply set_begin_elem. by apply Hself. }
  split_and!.
  - intros i j Hin Hz. rewrite Hget by done. by apply Hbg.
  - intros i j Hin Hne. rewrite Hget by done.
    destruct (Hfg i j Hin Hne) as (l & Hl & Hrange & -> & Hmem).
    apply elem_of_at_key in Hmem as (s & Hlook & Hmem).
    destruct (Hrel l s _ Hlook Hmem) as (_ & Hr & _). lia.
  - intros [pi pj] [qi qj] Hp Hq Hnz Heq. simpl in *.
    rewrite !Hget in * by done.
    assert (Hpf : get I pi pj <> 0).
    { intros Hz. by apply Hbg in Hz. }
    assert (Hqf : get I qi qj <> 0).
    { intros Hz. apply Hbg in Hz. congruence. }
    destruct (Hfg pi pj Hp Hpf) as (lp & Hlp & Hrp & Hp2 & Hmp).
    destruct (Hfg qi qj Hq Hqf) as (lq & Hlq & Hrq & Hq2 & Hmq).
    apply elem_of_at_key in Hmp as (sp & Hlookp & Hmp).
    apply elem_of_at_key in Hmq as (sq & Hlookq & Hmq).
    destruct (Hrel lp sp _ Hlookp Hmp) as (_ & Hkr & p1 & q1 & Hp1 & Hq1 & Hc1).
    destruct (Hrel lq sq _ Hlookq Hmq) as (_ & _ & p2 & q2 & Hp2' & Hq2' & Hc2).
    assert (Hc : connected (get (add_border I)) cx (pi + 1, pj + 1)
                   (qi + 1, qj + 1)).
    { eapply connected_trans; [apply (Hsound (pi + 1, pj + 1) p1)|].
      - unfold lab. simpl. lia.
      - unfold lab in *. simpl. congruence.
      - eapply connected_trans; [exact Hc1|].
        eapply connected_trans; [apply (Hsound q1 q2)|].
        + lia.
        + congruence.
        + eapply connected_trans; [apply connected_sym; exact Hc2|].
          apply Hsound; [lia|]. unfold lab in *. simpl. congruence. }
    apply (connected_translate _ (get I) _ (-1)) in Hc.
    + simpl in Hc.
      replace (pi + 1 + -1) with pi in Hc by lia.
      replace (pj + 1 + -1) with pj in Hc by lia.
      replace (qi + 1 + -1) with qi in Hc by lia.
      replace (qj + 1 + -1) with qj in Hc by lia. done.
    + intros i j. rewrite get_add_border by done. f_equal; lia.
  - intros _. lia.
Qed.

(** X3.  For every well-formed input raster and either connexity,
    [connectedComponents2] gives label 0 to the background, a label of
    [1 .. nbComponents] to every foreground pixel, and never gives one
    label to two pixels that no same-value path joins: it may split a
    component, it does not merge two. *)
Theorem connectedComponents2_sound
    (c : caller) (connexity : vpConnectedConnexityType) :
  wf_image (arg_I c) ->
  exists c',
    connectedComponents2 c connexity = Some c' /\
    (forall i j, inside (arg_I c) i j -> get (arg_I c) i j = 0 ->
                 get (arg_labels c') i j = 0) /\
    (forall i j, inside (arg_I c) i j -> get (arg_I c) i j <> 0 ->
                 1 <= get (arg_labels c') i j <= arg_nbComponents c') /\
    (forall p q : vpImagePoint,
       inside (arg_I c) p.1 p.2 -> inside (arg_I c) q.1 q.2 ->
       get (arg_labels c') p.1 p.2 <> 0 ->
       get (arg_labels c') p.1 p.2 = get (arg_labels c') q.1 q.2 ->
       connected (get (arg_I c)) connexity p q).
Proof.
  intros Hwf.
  destruct (connectedComponents2_labels c connexity Hwf)
    as (c' & Hrun & Hbg & Hrange & Hsound & _).
  exists c'. by split_and!.
Qed.

Lemma connectedComponents2_sound_witness :
  wf_image (arg_I on_hook) /\
  exists c',
    connectedComponents2 on_hook CONNECTED_CONNEXITY_4 = Some c' /\
    (forall i j, inside (arg_I on_hook) i j -> get (arg_I on_hook) i j = 0 ->
                 get (arg_labels c') i j = 0) /\
    (forall i j, inside (arg_I on_hook) i j -> get (arg_I on_hook) i j <> 0 ->
                 1 <= get (arg_labels c') i j <= arg_nbComponents c') /\
    (forall p q : vpImagePoint,
       inside (arg_I on_hook) p.1 p.2 -> inside (arg_I on_hook) q.1 q.2 ->
       get (arg_labels c') p.1 p.2 <> 0 ->
       get (arg_labels c') p.1 p.2 = get (arg_labels c') q.1 q.2 ->
       connected (get (arg_I on_hook)) CONNECTED_CONNEXITY_4 p q).
Proof.
  assert (Hwf : wf_image (arg_I on_hook)).
  { apply wf_imageb_spec. vm_compute. reflexivity. }
  split.
  - exact Hwf.
  - exact (connectedComponents2_sound on_hook CONNECTED_CONNEXITY_4 Hwf).
Defined.

(** X4.  On every well-formed raster both labellers return, and the count
    of [connectedComponents2] is never below the count of
    [connectedComponents]. *)
Theorem two_pass_count_not_below (c : caller) (cx : vpConnectedConnexityType) :
  wf_image (arg_I c) ->
  exists c1 c2,
    connectedComponents c cx = Some c1 /\
    connectedComponents2 c cx = Some c2 /\
    arg_nbComponents c1 <= arg_nbComponents c2.
Proof.
  intros Hwf.
  destruct (decide (getSize (arg_I c) = 0)) as [Hsz|Hsz].
  { exists c, c. unfold connectedComponents, connectedComponents2.
    apply Z.eqb_eq in Hsz. rewrite Hsz. split_and!; [done|done|lia]. }
  destruct (connectedComponents_numbering c cx Hwf Hsz)
    as (c1 & Hrun1 & _ & _ & _ & Hrange1 & Hused1 & _).
  destruct (connectedComponents_labels c cx Hwf)
    as (c1' & Hrun1' & Hbg1 & Hiff1).
  rewrite Hrun1 in Hrun1'. injection Hrun1' as <-.
  destruct (connectedComponents2_labels c cx Hwf)
    as (c2 & Hrun2 & Hbg2 & Hrange2 & Hsound2 & Hpos2).
  exists c1, c2. split; [done|]. split; [done|].
  set (I := arg_I c) in *.
  set (l1 := fun r : vpImagePoint => get (arg_labels c1) r.1 r.2).
  set (l2 := fun r : vpImagePoint => get (arg_labels c2) r.1 r.2).
  (* a labelled pixel is a foreground pixel *)
  assert (Hfg : forall r : vpImagePoint, inside I r.1 r.2 -> l1 r <> 0 ->
            get I r.1 r.2 <> 0).
  { intros r Hin Hl Hz. apply Hl. by apply Hbg1. }
  (* one pixel for each of the first [n] labels of the expansion, with
     pairwise different labels of the two-pass labeller *)
  assert (Hpick : forall n : nat, Z.of_nat n <= arg_nbComponents c1 ->
            exists rs : list vpImagePoint,
              length rs = n /\ NoDup (l2 <$> rs) /\
              Forall (fun r => inside I r.1 r.2 /\ 1 <= l1 r <= Z.of_nat n) rs).
  { induction n as [|n IH]; intros Hn.
    - exists []. split; [done|]. split; [constructor|constructor].
    - destruct IH as (rs & Hlen & Hnd & Hall); [lia|].
      destruct (Hused1 (Z.of_nat (S n))) as (r & Hrin & Hrl); [lia|].
      exists (r :: rs). split; [simpl; lia|]. split.
      + rewrite fmap_cons. constructor; [|done].
        intros Hmem. apply list_elem_of_fmap in Hmem as (r' & Heq & Hr').
        rewrite Forall_forall in Hall. destruct (Hall r' Hr') as [Hin' Hl'].
        assert (Hc : connected (get I) cx r r').
        { apply Hsound2; [done|done| |done].
          fold (l2 r). destruct (Hrange2 r.1 r.2 Hrin) as [Hlo _]; [|unfold l2; lia].
          apply Hfg; [done|]. unfold l1. lia. }
        apply Hiff1 in Hc as [Heq1 _]; [| | | |]; try done.
        * unfold l1 in Hl'. lia.
        * apply Hfg; [done|]. unfold l1. lia.
        * apply Hfg; [done|]. lia.
      + constructor.
        * split; [done|]. unfold l1. lia.
        * eapply Forall_impl; [exact Hall|]. intros r' [Hin' Hl']. simpl.
          split; [done|]. lia. }
  destruct (decide (arg_nbComponents c1 <= 0)) as [Hle|Hpos].
  { specialize (Hpos2 Hsz). lia. }
  destruct (Hpick (Z.to_nat (arg_nbComponents c1))) as (rs & Hlen & Hnd & Hall);
    [lia|].
  assert (Hsub : l2 <$> rs ⊆+ seqZ 1 (arg_nbComponents c2)).
  { apply NoDup_submseteq; [done|]. intros x Hx.
    apply list_elem_of_fmap in Hx as (r & -> & Hr).
    rewrite Forall_forall in Hall. destruct (Hall r Hr) as [Hin Hl].
    apply elem_of_seqZ.
    assert (get I r.1 r.2 <> 0) by (apply Hfg; [done|lia]).
    pose proof (Hrange2 r.1 r.2 Hin H). unfold l2. lia. }
  apply submseteq_length in Hsub.
  rewrite length_fmap, length_seqZ, Hlen in Hsub. lia.
Qed.

Lemma two_pass_count_not_below_witness :
  wf_image (arg_I on_hook) /\
  exists c1 c2,
    connectedComponents on_hook CONNECTED_CONNEXITY_4 = Some c1 /\
    connectedComponents2 on_hook CONNECTED_CONNEXITY_4 = Some c2 /\
    arg_nbComponents c1 <= arg_nbComponents c2.
Proof.
  assert (Hwf : wf_image (arg_I on_hook)).
  { apply wf_imageb_spec. vm_compute. reflexivity. }
  split.
  - exact Hwf.
  - exact (two_pass_count_not_below on_hook CONNECTED_CONNEXITY_4 Hwf).
Defined.

(** *** The two neighbourhood functions *)

Lemma push_if_app b p q : push_if b p q = q ++ (if b then [p] else []).
Proof. unfold push_if. destruct b; [done|by rewrite app_nil_r]. Qed.

Lemma getNeighbors_app I q i j c :
  getNeighbors I q i j c = q ++ getNeighbors I [] i j c.
Proof.
  unfold getNeighbors. destruct c; simpl; rewrite !push_if_app;
    simpl; by rewrite <- ?app_assoc.
Qed.

(** The eight neighbours of [(i, j)] are samples of [I]: the pixel is
    not on the rim of the raster.  The two neighbourhood functions index
    the rows around [(i, j)] without a test; this is what the bordered
    copies of the labellers guarantee at every pixel they are called on. *)
Definition interior (I : vpImage) (i j : Z) : Prop :=
  1 <= i < getHeight I - 1 /\ 1 <= j < getWidth I - 1.

Lemma adjacent_interior_inside I i j c (x : vpImagePoint) :
  interior I i j -> adjacent c (i, j) x -> inside I x.1 x.2.
Proof.
  intros [Hi Hj] Ha. unfold inside.
  destruct c; unfold adjacent in Ha; simpl in Ha; lia.
Qed.

(** X5.  At a pixel [(i, j)] of a well-formed raster that is not on its
    rim, [getNeighbors] leaves the entries of the queue where they are and
    pushes behind them exactly the pixels adjacent to [(i, j)] under the
    connexity that hold the value of [(i, j)], at most four or eight; all
    of them are samples of the raster. *)
Theorem getNeighbors_pushes (I : vpImage) (q : list vpImagePoint) (i j : Z)
    (connexity : vpConnectedConnexityType) :
  wf_image I -> interior I i j ->
  getNeighbors I q i j connexity = q ++ getNeighbors I [] i j connexity /\
  (length (getNeighbors I [] i j connexity)
   <= match connexity with
      | CONNECTED_CONNEXITY_4 => 4
      | CONNECTED_CONNEXITY_8 => 8
      end)%nat /\
  forall x : vpImagePoint,
    x ∈ getNeighbors I [] i j connexity <->
    inside I x.1 x.2 /\
    adjacent connexity (i, j) x /\ get I x.1 x.2 = get I i j.
Proof.
  intros _ Hint.
  split; [apply getNeighbors_app|]. split.
  - unfold getNeighbors, push_if. destruct connexity; simpl;
      repeat match goal with
             | |- context [if ?b then _ else _] => destruct b
             end;
      rewrite ?length_app; simpl; lia.
  - intros x. rewrite elem_of_getNeighbors. split.
    + intros [Hx|[Ha He]]; [by apply elem_of_nil in Hx|].
      split; [by eapply adjacent_interior_inside|done].
    + intros (_ & Hx). by right.
Qed.

(** The one-row raster [[1; 1]] inside its border of zeros, and a label
    raster of the same dimensions with its first pixel labelled 5. *)
Definition bordered_pair : vpImage := add_border (mkImage 1 2 [[1; 1]]).

Definition one_label : vpImage :=
  mkImage 3 4 [[0; 0; 0; 0]; [0; 5; 0; 0]; [0; 0; 0; 0]].

Lemma getNeighbors_pushes_witness :
  getNeighbors bordered_pair [(2, 2)] 1 1
    CONNECTED_CONNEXITY_8
  = [(2, 2)] ++ getNeighbors bordered_pair [] 1 1
                  CONNECTED_CONNEXITY_8 /\
  (length (getNeighbors bordered_pair [] 1 1
             CONNECTED_CONNEXITY_8) <= 8)%nat /\
  forall x : vpImagePoint,
    x ∈ getNeighbors bordered_pair [] 1 1
          CONNECTED_CONNEXITY_8 <->
    inside bordered_pair x.1 x.2 /\
    adjacent CONNECTED_CONNEXITY_8 (1, 1) x /\
    get bordered_pair x.1 x.2
    = get bordered_pair 1 1.
Proof.
  apply (getNeighbors_pushes bordered_pair [(2, 2)] 1 1
           CONNECTED_CONNEXITY_8).
  - by apply wf_imageb_spec.
  - split; simpl; lia.
Defined.

(** X6.  At a pixel [(i, j)] that is not on the rim of a well-formed
    raster, with a label raster of the same dimensions, [getNeighborLabels]
    returns exactly the nonzero labels of the pixels that are adjacent to
    [(i, j)] under the connexity, precede it in the raster scan and hold
    its value; it never contains 0. *)
Theorem getNeighborLabels_visited (I labels : vpImage) (i j : Z)
    (connexity : vpConnectedConnexityType) (x : Z) :
  wf_image I -> wf_image labels ->
  getHeight labels = getHeight I -> getWidth labels = getWidth I ->
  interior I i j ->
  x ∈ getNeighborLabels I labels i j connexity <->
  x <> 0 /\
  exists r : vpImagePoint,
    inside I r.1 r.2 /\
    adjacent connexity (i, j) r /\ raster_lt r (i, j) /\
    get I r.1 r.2 = get I i j /\ get labels r.1 r.2 = x.
Proof.
  intros _ _ _ _ Hint.
  rewrite elem_of_getNeighborLabels. split.
  - intros (r & Hr & He & Hl & Hx). split; [done|]. exists r.
    pose proof (visited_neighbours_adjacent _ _ _ _ Hr) as Ha.
    split; [by eapply adjacent_interior_inside|].
    split; [done|]. split; [|done].
    unfold visited_neighbours in Hr. unfold raster_lt.
    destruct connexity;
      repeat (apply elem_of_cons in Hr as [->|Hr]; [simpl; lia|]);
      by apply elem_of_nil in Hr.
  - intros (Hx & [a b] & _ & Ha & Hlt & He & Hl). exists (a, b).
    split; [|done]. unfold adjacent, raster_lt, visited_neighbours in *.
    simpl in *. destruct connexity.
    + assert (Hc : (a = i - 1 /\ b = j) \/ (a = i /\ b = j - 1))
        by (clear - Ha Hlt; lia).
      destruct Hc as [[-> ->]|[-> ->]]; repeat first [by left | right].
    + assert (Hc : (a = i - 1 /\ b = j - 1) \/ (a = i - 1 /\ b = j) \/
                   (a = i - 1 /\ b = j + 1) \/ (a = i /\ b = j - 1))
        by (clear - Ha Hlt; lia).
      destruct Hc as [[-> ->]|[[-> ->]|[[-> ->]|[-> ->]]]];
        repeat first [by left | right].
Qed.

Lemma getNeighborLabels_visited_witness :
  5 ∈ getNeighborLabels bordered_pair
        one_label 1 2
        CONNECTED_CONNEXITY_4 <->
  5 <> 0 /\
  exists r : vpImagePoint,
    inside bordered_pair r.1 r.2 /\
    adjacent CONNECTED_CONNEXITY_4 (1, 2) r /\ raster_lt r (1, 2) /\
    get bordered_pair r.1 r.2
    = get bordered_pair 1 2 /\
    get one_label r.1 r.2 = 5.
Proof.
  apply (getNeighborLabels_visited bordered_pair
           one_label 1 2
           CONNECTED_CONNEXITY_4 5).
  - by apply wf_imageb_spec.
  - by apply wf_imageb_spec.
  - reflexivity.
  - reflexivity.
  - split; simpl; lia.
Defined.

(** *** The two connexities *)

Lemma adjacent_4_8 p q :
  adjacent CONNECTED_CONNEXITY_4 p q -> adjacent CONNECTED_CONNEXITY_8 p q.
Proof. unfold adjacent. lia. Qed.

Lemma connected_4_8 f p q :
  connected f CONNECTED_CONNEXITY_4 p q -> connected f CONNECTED_CONNEXITY_8 p q.
Proof.
  induction 1 as [|p q r (Ha & He & Hn) _ IH]; [apply rtc_refl|].
  eapply rtc_l; [|exact IH]. split_and!; [by apply adjacent_4_8|done|done].
Qed.

(** X11.  On every well-formed raster [connectedComponents] finds at most
    as many components under 8-connexity as under 4-connexity, and two
    pixels that share a label under 4-connexity share one under
    8-connexity. *)
Theorem connexity_8_is_coarser (c : caller) :
  wf_image (arg_I c) ->
  exists c4 c8,
    connectedComponents c CONNECTED_CONNEXITY_4 = Some c4 /\
    connectedComponents c CONNECTED_CONNEXITY_8 = Some c8 /\
    arg_nbComponents c8 <= arg_nbComponents c4 /\
    forall p q : vpImagePoint,
      inside (arg_I c) p.1 p.2 -> inside (arg_I c) q.1 q.2 ->
      get (arg_labels c4) p.1 p.2 = get (arg_labels c4) q.1 q.2 ->
      get (arg_labels c8) p.1 p.2 = get (arg_labels c8) q.1 q.2.
Proof.
  intros Hwf.
  destruct (connectedComponents_labels c CONNECTED_CONNEXITY_4 Hwf)
    as (c4 & Hrun4 & Hbg4 & Hiff4).
  destruct (connectedComponents_labels c CONNECTED_CONNEXITY_8 Hwf)
    as (c8 & Hrun8 & Hbg8 & Hiff8).
  exists c4, c8. split; [done|]. split; [done|].
  set (I := arg_I c) in *.
  set (l4 := fun r : vpImagePoint => get (arg_labels c4) r.1 r.2).
  set (l8 := fun r : vpImagePoint => get (arg_labels c8) r.1 r.2).
  (* a foreground pixel carries a nonzero label *)
  assert (Hnz4 : forall r : vpImagePoint, inside I r.1 r.2 ->
            get I r.1 r.2 <> 0 -> l4 r <> 0).
  { intros r Hin Hfg. by apply (Hiff4 r r Hin Hin Hfg Hfg), rtc_refl. }
  assert (Hnz8 : forall r : vpImagePoint, inside I r.1 r.2 ->
            get I r.1 r.2 <> 0 -> l8 r <> 0).
  { intros r Hin Hfg. by apply (Hiff8 r r Hin Hin Hfg Hfg), rtc_refl. }
  assert (Hcoarser : forall p q : vpImagePoint,
            inside I p.1 p.2 -> inside I q.1 q.2 -> l4 p = l4 q -> l8 p = l8 q).
  { intros p q Hp Hq Heq.
    destruct (decide (get I p.1 p.2 = 0)) as [Hpz|Hpf],
             (decide (get I q.1 q.2 = 0)) as [Hqz|Hqf].
    - unfold l8. by rewrite (Hbg8 _ _ Hp Hpz), (Hbg8 _ _ Hq Hqz).
    - exfalso. apply (Hnz4 q Hq Hqf). rewrite <- Heq. by apply Hbg4.
    - exfalso. apply (Hnz4 p Hp Hpf). rewrite Heq. by apply Hbg4.
    - assert (Hc : connected (get I) CONNECTED_CONNEXITY_4 p q).
      { apply Hiff4; try done. split; [done|by apply Hnz4]. }
      apply connected_4_8 in Hc. by apply Hiff8 in Hc as [Heq8 _]. }
  split; [|exact Hcoarser].
  destruct (decide (getSize I = 0)) as [Hsz|Hsz].
  { unfold connectedComponents in Hrun4, Hrun8. apply Z.eqb_eq in Hsz.
    fold I in Hrun4, Hrun8. rewrite Hsz in Hrun4, Hrun8.
    injection Hrun4 as <-. injection Hrun8 as <-. lia. }
  destruct (connectedComponents_numbering c CONNECTED_CONNEXITY_4 Hwf Hsz)
    as (c4' & Hrun4' & _ & _ & _ & Hrange4 & _ & _).
  rewrite Hrun4 in Hrun4'. injection Hrun4' as <-.
  destruct (connectedComponents_numbering c CONNECTED_CONNEXITY_8 Hwf Hsz)
    as (c8' & Hrun8' & _ & _ & _ & Hrange8 & Hused8 & _).
  rewrite Hrun8 in Hrun8'. injection Hrun8' as <-.
  fold I in Hrange4, Hrange8, Hused8.
  (* one pixel for each of the first [n] labels under 8-connexity, with
     pairwise different labels under 4-connexity *)
  assert (Hpick : forall n : nat, Z.of_nat n <= arg_nbComponents c8 ->
            exists rs : list vpImagePoint,
              length rs = n /\ NoDup (l4 <$> rs) /\
              Forall (fun r => inside I r.1 r.2 /\ 1 <= l8 r <= Z.of_nat n) rs).
  { induction n as [|n IH]; intros Hn.
    - exists []. split; [done|]. split; constructor.
    - destruct IH as (rs & Hlen & Hnd & Hall); [lia|].
      destruct (Hused8 (Z.of_nat (S n))) as (r & Hrin & Hrl); [lia|].
      exists (r :: rs). split; [simpl; lia|]. split.
      + rewrite fmap_cons. constructor; [|done].
        intros Hmem. apply list_elem_of_fmap in Hmem as (r' & Heq & Hr').
        rewrite Forall_forall in Hall. destruct (Hall r' Hr') as [Hin' Hl'].
        pose proof (Hcoarser r r' Hrin Hin' Heq) as Heq8.
        unfold l8 in Heq8, Hl'. lia.
      + constructor.
        * split; [done|]. unfold l8. lia.
        * eapply Forall_impl; [exact Hall|]. intros r' [Hin' Hl']. simpl.
          split; [done|]. lia. }
  assert (Hin0 : inside I 0 0).
  { pose proof Hwf as (Hh & Hw & _). unfold getSize in Hsz.
    unfold inside. fold I in Hh, Hw. nia. }
  destruct (decide (arg_nbComponents c8 <= 0)) as [Hle|Hpos].
  { pose proof (Hrange4 0 0 Hin0). lia. }
  destruct (Hpick (Z.to_nat (arg_nbComponents c8))) as (rs & Hlen & Hnd & Hall);
    [lia|].
  assert (Hsub : l4 <$> rs ⊆+ seqZ 1 (arg_nbComponents c4)).
  { apply NoDup_submseteq; [done|]. intros x Hx.
    apply list_elem_of_fmap in Hx as (r & -> & Hr).
    rewrite Forall_forall in Hall. destruct (Hall r Hr) as [Hin Hl].
    apply elem_of_seqZ.
    assert (Hfg : get I r.1 r.2 <> 0).
    { intros Hz. pose proof (Hbg8 _ _ Hin Hz) as H0. unfold l8 in Hl. lia. }
    pose proof (Hnz4 r Hin Hfg). pose proof (Hrange4 r.1 r.2 Hin).
    unfold l4 in *. lia. }
  apply submseteq_length in Hsub.
  rewrite length_fmap, length_seqZ, Hlen in Hsub. lia.
Qed.

Definition diagonal_pair : vpImage := mkImage 2 2 [[1; 0]; [0; 1]].
Definition on_diagonal_pair : caller := mkCaller diagonal_pair empty_image 0.

Lemma connexity_8_is_coarser_witness :
  wf_image (arg_I on_diagonal_pair) /\
  exists c4 c8,
    connectedComponents on_diagonal_pair CONNECTED_CONNEXITY_4 = Some c4 /\
    connectedComponents on_diagonal_pair CONNECTED_CONNEXITY_8 = Some c8 /\
    arg_nbComponents c8 <= arg_nbComponents c4 /\
    forall p q : vpImagePoint,
      inside (arg_I on_diagonal_pair) p.1 p.2 ->
      inside (arg_I on_diagonal_pair) q.1 q.2 ->
      get (arg_labels c4) p.1 p.2 = get (arg_labels c4) q.1 q.2 ->
      get (arg_labels c8) p.1 p.2 = get (arg_labels c8) q.1 q.2.
Proof.
  assert (Hwf : wf_image (arg_I on_diagonal_pair)).
  { apply wf_imageb_spec. vm_compute. reflexivity. }
  split.
  - exact Hwf.
  - exact (connexity_8_is_coarser on_diagonal_pair Hwf).
Defined.

(** *** The queue loop on its own *)

(** The samples on the rim of [I] are zero, as in the bordered copies. *)
Definition zero_border (I : vpImage) : Prop :=
  forall i j, inside I i j -> ~ interior I i j -> get I i j = 0.

Lemma zero_border_add_border I : wf_image I -> zero_border (add_border I).
Proof.
  intros Hwf i j Hin Hrim.
  destruct (decide (get (add_border I) i j = 0)) as [|Hne]; [done|].
  apply add_border_nonzero in Hne; [|done]. exfalso. apply Hrim.
  unfold interior, add_border. simpl. lia.
Qed.

Lemma zero_border_set I i j :
  wf_image I -> zero_border I -> zero_border (set I i j 0).
Proof.
  intros Hwf Hz a b Hin Hrim.
  assert (Hin' : inside I a b).
  { unfold inside in *. by rewrite getHeight_set, getWidth_set in Hin. }
  assert (Hrim' : ~ interior I a b).
  { unfold interior in *. by rewrite getHeight_set, getWidth_set in Hrim. }
  destruct (decide ((a, b) = (i, j))) as [Heq|Hne].
  - injection Heq as -> ->. by apply get_set_same.
  - rewrite get_set_other by done. by apply Hz.
Qed.

Lemma nonzero_interior I i j :
  wf_image I -> zero_border I -> get I i j <> 0 -> interior I i j.
Proof.
  intros Hwf Hz Hne.
  pose proof (get_nonzero_inside I i j Hwf Hne) as Hin.
  destruct (decide (1 <= i < getHeight I - 1 /\ 1 <= j < getWidth I - 1))
    as [|Hrim]; [done|].
  exfalso. apply Hne. by apply Hz.
Qed.

(** What [visitNeighbors_loop] does from a queue of pixels of a working
    copy with a rim of zeros: every pixel it takes from the queue is a
    sample of the copy and every pixel it expands is off the rim, so that
    all the rows it indexes exist; it empties the queue within its bound,
    zeroes samples of the working copy and nothing else, labels exactly
    the samples it zeroed, and leaves no queued pixel nonzero. *)
Lemma visitNeighbors_loop_effect n cx fuel :
  forall (Ic L : vpImage) (q : list vpImagePoint),
    wf_image Ic -> wf_image L ->
    getHeight L = getHeight Ic -> getWidth L = getWidth Ic ->
    zero_border Ic -> Forall (fun p : vpImagePoint => inside Ic p.1 p.2) q ->
    (9 * count_nz Ic + length q < fuel)%nat ->
    exists Ic' L',
      visitNeighbors_loop fuel Ic q L n cx = Some (Ic', L') /\
      wf_image Ic' /\ wf_image L' /\
      getHeight Ic' = getHeight Ic /\ getWidth Ic' = getWidth Ic /\
      getHeight L' = getHeight L /\ getWidth L' = getWidth L /\
      zero_border Ic' /\
      (forall p, lab Ic' p = 0 \/ lab Ic' p = lab Ic p) /\
      (forall p, lab Ic' p = lab Ic p -> lab L' p = lab L p) /\
      (forall p, lab Ic' p <> lab Ic p -> lab L' p = n) /\
      (forall p, p ∈ q -> lab Ic' p = 0).
Proof.
  induction fuel as [|fuel IH]; intros Ic L q HwI HwL Hh Hw Hrim Hq Hfuel;
    [lia|].
  destruct q as [|[i j] rest]; simpl.
  { exists Ic, L. split_and!; try done.
    - intros p. by right.
    - intros p Hp. by apply elem_of_nil in Hp. }
  apply Forall_cons in Hq as [Hin0 Hrest].
  destruct (get Ic i j =? 0) eqn:Hz; simpl.
  - apply Z.eqb_eq in Hz.
    destruct (IH Ic L rest HwI HwL Hh Hw Hrim Hrest) as (Ic' & L' & Hrun & H);
      [simpl in Hfuel; lia|].
    destruct H as (? & ? & ? & ? & ? & ? & ? & Hzero & Hsame & Hnew & Hq).
    exists Ic', L'. split_and!; try done.
    intros p Hp. apply elem_of_cons in Hp as [->|Hp]; [|by apply Hq].
    destruct (Hzero (i, j)) as [|He]; [done|].
    rewrite He. exact Hz.
  - apply Z.eqb_neq in Hz.
    set (p0 := (i, j) : vpImagePoint).
    assert (Hin : inside Ic i j) by (by apply get_nonzero_inside).
    assert (HinL : inside L i j) by (unfold inside in *; lia).
    assert (Hint : interior Ic i j) by (by apply nonzero_interior).
    destruct (IH (set Ic i j 0) (set L i j n) (getNeighbors Ic rest i j cx))
      as (Ic' & L' & Hrun & H).
    + by apply wf_set.
    + by apply wf_set.
    + by rewrite !getHeight_set.
    + by rewrite !getWidth_set.
    + by apply zero_border_set.
    + apply Forall_forall. intros x Hx.
      unfold inside. rewrite getHeight_set, getWidth_set.
      apply elem_of_getNeighbors in Hx as [Hx|[Ha _]].
      * rewrite Forall_forall in Hrest. by apply Hrest.
      * by eapply adjacent_interior_inside.
    + pose proof (count_nz_set_zero Ic i j HwI Hin Hz) as Hc.
      pose proof (length_getNeighbors Ic rest i j cx) as Hl.
      simpl in Hfuel. clear - Hc Hl Hfuel. lia.
    + destruct H as (? & ? & HhI & HwI' & HhL & HwL' & Hrim' & Hzero & Hsame
                     & Hnew & Hq).
      rewrite getHeight_set in HhI, HhL. rewrite getWidth_set in HwI', HwL'.
      assert (HI0 : lab (set Ic i j 0) p0 = 0)
        by (by apply (lab_set_same Ic p0)).
      assert (HL0 : lab (set L i j n) p0 = n)
        by (by apply (lab_set_same L p0)).
      assert (HIo : forall r, r <> p0 -> lab (set Ic i j 0) r = lab Ic r)
        by (intros r Hr; by apply (lab_set_other Ic p0)).
      assert (HLo : forall r, r <> p0 -> lab (set L i j n) r = lab L r)
        by (intros r Hr; by apply (lab_set_other L p0)).
      assert (Hp0 : lab Ic' p0 = 0).
      { destruct (Hzero p0) as [|He]; [done|]. by rewrite He. }
      exists Ic', L'. split_and!; try done.
      * intros p. destruct (decide (p = p0)) as [->|Hne]; [by left|].
        rewrite <- (HIo p Hne). apply Hzero.
      * intros p Hp. destruct (decide (p = p0)) as [->|Hne].
        { exfalso. rewrite Hp0 in Hp. unfold lab, p0 in Hp. simpl in Hp. lia. }
        rewrite <- (HLo p Hne). apply Hsame. by rewrite HIo.
      * intros p Hp. destruct (decide (p = p0)) as [->|Hne].
        { rewrite <- HL0. apply Hsame. by rewrite Hp0, HI0. }
        apply Hnew. by rewrite HIo.
      * intros p Hp. apply elem_of_cons in Hp as [->|Hp]; [done|].
        apply Hq. apply elem_of_getNeighbors. by left.
Qed.

(** X15.  On a well-formed working copy whose rim is zero (as the bordered
    copies of the labellers are), a label image of the same dimensions and
    a queue of pixels of the copy, [visitNeighbors] returns: it changes a
    sample of the working copy only by zeroing it, and only off the rim; it
    writes [current_label] exactly at the samples it zeroed and leaves the
    other labels as they were; and every pixel that was in the queue is
    zero in the working copy afterwards. *)
Theorem visitNeighbors_effect (I_copy labels : vpImage)
    (listOfNeighbors : list vpImagePoint) (current_label : Z)
    (connexity : vpConnectedConnexityType) :
  wf_image I_copy -> wf_image labels ->
  getHeight labels = getHeight I_copy -> getWidth labels = getWidth I_copy ->
  zero_border I_copy ->
  Forall (fun p : vpImagePoint => inside I_copy p.1 p.2) listOfNeighbors ->
  exists I_copy' labels',
    visitNeighbors I_copy listOfNeighbors labels current_label connexity
      = Some (I_copy', labels') /\
    (forall i j, get I_copy' i j = 0 \/ get I_copy' i j = get I_copy i j) /\
    (forall i j, get I_copy' i j <> get I_copy i j -> interior I_copy i j) /\
    (forall i j, get I_copy' i j = get I_copy i j ->
                 get labels' i j = get labels i j) /\
    (forall i j, get I_copy' i j <> get I_copy i j ->
                 get labels' i j = current_label) /\
    (forall i j, (i, j) ∈ listOfNeighbors -> get I_copy' i j = 0).
Proof.
  intros HwI HwL Hh Hw Hrim Hq.
  destruct (visitNeighbors_loop_effect current_label connexity
              (visit_bound I_copy listOfNeighbors)
              I_copy labels listOfNeighbors HwI HwL Hh Hw Hrim Hq)
    as (Ic' & L' & Hrun & _ & _ & _ & _ & _ & _ & _ & Hzero & Hsame & Hnew
        & Hdone).
  { unfold visit_bound. lia. }
  exists Ic', L'. split_and!.
  - exact Hrun.
  - intros i j. apply (Hzero (i, j)).
  - intros i j Hne. apply nonzero_interior; [done|done|].
    destruct (Hzero (i, j)) as [H0|He]; unfold lab in *; simpl in *; [|done].
    intros Hz. apply Hne. by rewrite H0, Hz.
  - intros i j. apply (Hsame (i, j)).
  - intros i j. apply (Hnew (i, j)).
  - intros i j. apply (Hdone (i, j)).
Qed.

Lemma visitNeighbors_effect_witness :
  exists I_copy' labels',
    visitNeighbors bordered_pair [(1, 1)] (make 3 4 0) 7
      CONNECTED_CONNEXITY_4 = Some (I_copy', labels') /\
    (forall i j, get I_copy' i j = 0 \/
                 get I_copy' i j = get bordered_pair i j) /\
    (forall i j, get I_copy' i j <> get bordered_pair i j ->
                 interior bordered_pair i j) /\
    (forall i j, get I_copy' i j = get bordered_pair i j ->
                 get labels' i j = get (make 3 4 0) i j) /\
    (forall i j, get I_copy' i j <> get bordered_pair i j ->
                 get labels' i j = 7) /\
    (forall i j, (i, j) ∈ [(1, 1)] -> get I_copy' i j = 0).
Proof.
  apply (visitNeighbors_effect bordered_pair (make 3 4 0) [(1, 1)] 7
           CONNECTED_CONNEXITY_4).
  - by apply wf_imageb_spec.
  - by apply wf_imageb_spec.
  - reflexivity.
  - reflexivity.
  - apply zero_border_add_border. by apply wf_imageb_spec.
  - repeat constructor; simpl; lia.
Defined.

End Labeling.

(** ** Contour extraction: vpContours.h and vpContour.cpp

    The sources hold two states of vpContour.cpp.  The one embedded here is
    the later one, which the contour test calls: [followBorder] returns a
    boolean, [extractContours] fills a [vpContour &] and undoes a border
    start whose walk fails.  [vpDirection] and [vpContour::setParent] are
    those of the header among the sources. *)

Module Contour.
Import Image.

(** [vpContourType].  The header among the sources declares
    [OUTER_CONTOUR], [HOLE_CONTOUR] and [BACKGROUND_CONTOUR];
    vpContour.cpp spells the first two [CONTOUR_OUTER] and [CONTOUR_HOLE]
    and never mentions the third. *)
Inductive vpContourType :=
  | CONTOUR_OUTER
  | CONTOUR_HOLE
  | CONTOUR_BACKGROUND.

Inductive vpDirectionType :=
  | NORTH | NORTH_EAST | EAST | SOUTH_EAST
  | SOUTH | SOUTH_WEST | WEST | NORTH_WEST
  | LAST_DIRECTION.

Definition vpImagePoint : Type := Z * Z.

#[global] Instance vpContourType_eq_dec : EqDecision vpContourType.
Proof. solve_decision. Defined.

#[global] Instance vpDirectionType_eq_dec : EqDecision vpDirectionType.
Proof. solve_decision. Defined.

(** [(int) m_direction] and [vpDirectionType(idx)]. *)
Definition dir_index (d : vpDirectionType) : Z :=
  match d with
  | NORTH => 0 | NORTH_EAST => 1 | EAST => 2 | SOUTH_EAST => 3
  | SOUTH => 4 | SOUTH_WEST => 5 | WEST => 6 | NORTH_WEST => 7
  | LAST_DIRECTION => 8
  end.

Definition dir_of_index (z : Z) : vpDirectionType :=
  match z with
  | 0 => NORTH | 1 => NORTH_EAST | 2 => EAST | 3 => SOUTH_EAST
  | 4 => SOUTH | 5 => SOUTH_WEST | 6 => WEST | 7 => NORTH_WEST
  | _ => LAST_DIRECTION
  end.

Definition dirx : list Z := [0; 1; 1; 1; 0; -1; -1; -1].
Definition diry : list Z := [-1; -1; 0; 1; 1; 1; 0; -1].

(** [a[k]] for the two offset tables (0 stands for a read past the end). *)
Definition at_index (a : list Z) (k : Z) : Z := default 0 (a !! Z.to_nat k).

(** Conversions to [unsigned int] and to [unsigned char]: the value
    modulo [2^32] and [2^8].  (The source converts a [double] that may be
    -1 to [unsigned int]; modulo [2^32] it is [2^32 - 1], which is no
    coordinate of an image.) *)
Definition u32 (z : Z) : Z := z mod 2 ^ 32.
Definition u8 (z : Z) : Z := z mod 2 ^ 8.

Definition clockwise (d : vpDirectionType) : vpDirectionType :=
  let directionSize := dir_index LAST_DIRECTION in
  dir_of_index ((dir_index d + 1) mod directionSize).

Definition counterClockwise (d : vpDirectionType) : vpDirectionType :=
  let directionSize := dir_index LAST_DIRECTION in
  let idx := dir_index d - 1 in
  let idx := if idx <? 0 then idx + directionSize else idx in
  dir_of_index idx.

(** The invalid point [vpImagePoint(-1, -1)]. *)
Definition no_point : vpImagePoint := (-1, -1).

(** [vpDirection::active]: the neighbour of [point] in direction [d] when
    it lies in the image and its sample, narrowed to [unsigned char], is
    not zero. *)
Definition active (d : vpDirectionType) (I : vpImage) (point : vpImagePoint)
  : vpImagePoint :=
  let yy := u32 (point.1 + at_index diry (dir_index d)) in
  let xx := u32 (point.2 + at_index dirx (dir_index d)) in
  if (xx <? 0) || (getWidth I <=? xx) || (yy <? 0) || (getHeight I <=? yy)
  then no_point
  else
    let pixel := u8 (get I yy xx) in
    if negb (pixel =? 0) then (yy, xx) else no_point.

(** [p.get_i() >= 0 && p.get_j() >= 0]. *)
Definition is_valid (p : vpImagePoint) : bool := (0 <=? p.1) && (0 <=? p.2).

(** [fromTo]: [None] is the [false] return (the two points are equal). *)
Definition fromTo (from to : vpImagePoint) : option vpDirectionType :=
  if decide (from = to) then None
  else if from.1 =? to.1 then
    (if from.2 <? to.2 then Some EAST else Some WEST)
  else if from.1 <? to.1 then
    (if from.2 =? to.2 then Some SOUTH
     else if from.2 <? to.2 then Some SOUTH_EAST else Some SOUTH_WEST)
  else
    (if from.2 =? to.2 then Some NORTH
     else if from.2 <? to.2 then Some NORTH_EAST else Some NORTH_WEST).

(** [bool checked[8]]. *)
Definition checked_at (checked : list bool) (d : vpDirectionType) : bool :=
  default false (checked !! Z.to_nat (dir_index d)).

Definition crossesEastBorder (I : vpImage) (checked : list bool)
    (point : vpImagePoint) : bool :=
  match fromTo point (point.1, point.2 + 1) with
  | None => false
  | Some direction =>
      let b := checked_at checked direction in
      let i := u32 point.1 in
      let j := u32 point.2 in
      negb (get I i j =? 0) && ((j =? u32 (getWidth I - 1)) || b)
  end.

(** [addContourPoint]: the image and the points of the border after it. *)
Definition addContourPoint (I : vpImage) (m_points : list vpImagePoint)
    (point : vpImagePoint) (checked : list bool) (nbd : Z)
  : vpImage * list vpImagePoint :=
  let pts := m_points ++ [point] in
  let i := u32 point.1 in
  let j := u32 point.2 in
  if crossesEastBorder I checked point then (set I i j (- nbd), pts)
  else if get I i j =? 1 then (set I i j nbd, pts)
  else (I, pts).

(** Outcomes of the effectful code. *)
Inductive vpException :=
  | fatalError_ij_eq_i2j2        (* "ij == i2j2" *)
  | fatalError_i3j3_eq_i2j2.     (* "i3j3 == i2j2" *)

Inductive result (A : Type) :=
  | Ret (a : A)                  (* normal completion *)
  | Throw (e : vpException)      (* a [vpException] leaves the function *)
  | Fault                        (* a null or dangling pointer is dereferenced *)
  | Timeout.                     (* the traversal bound of the model ran out *)
Arguments Ret {A} a.
Arguments Throw {A} e.
Arguments Fault {A}.
Arguments Timeout {A}.

Definition bind {A B : Type} (r : result A) (k : A -> result B) : result B :=
  match r with
  | Ret a => k a
  | Throw e => Throw e
  | Fault => Fault
  | Timeout => Timeout
  end.

(** [for (k = 0; k < n; k++) body]. *)
Definition for_each {St : Type} (n : Z) (body : Z -> St -> result St) (s : St)
  : result St :=
  foldl (fun acc k => bind acc (body k)) (Ret s) (seqZ 0 n).

(** First loop of [followBorder]: turn clockwise from [trace] until an
    active neighbour of [ij] is met or [dir] is reached; the result is
    [i1j1].  At most seven directions separate [clockwise dir] from [dir]. *)
Fixpoint first_active (n : nat) (I : vpImage) (ij : vpImagePoint)
    (dir trace : vpDirectionType) : result vpImagePoint :=
  match n with
  | O => Timeout
  | S n' =>
      if decide (trace = dir) then Ret no_point
      else
        let activePixel := active trace I ij in
        if is_valid activePixel then Ret activePixel
        else first_active n' I ij dir (clockwise trace)
  end.

(** The [while (!problem)] loop: turn counter-clockwise from [trace] until
    an active neighbour of [i3j3] is met, or until all eight directions are
    checked ([problem]).  Result: [problem], [i4j4] and [checked]. *)
Fixpoint probe (n : nat) (I : vpImage) (i3j3 : vpImagePoint)
    (trace : vpDirectionType) (checked : list bool)
  : result (bool * vpImagePoint * list bool) :=
  match n with
  | O => Timeout
  | S n' =>
      let i4j4 := active trace I i3j3 in
      if is_valid i4j4 then Ret (false, i4j4, checked)
      else
        let checked := <[Z.to_nat (dir_index trace) := true]> checked in
        let trace := counterClockwise trace in
        if forallb id checked then Ret (true, i4j4, checked)
        else probe n' I i3j3 trace checked
  end.

(** The [while (true)] loop of [followBorder]. *)
Fixpoint walk (fuel : nat) (I : vpImage) (ij i1j1 i2j2 i3j3 : vpImagePoint)
    (m_points : list vpImagePoint) (nbd : Z)
  : result (bool * vpImage * list vpImagePoint) :=
  match fuel with
  | O => Timeout
  | S fuel' =>
      match fromTo i3j3 i2j2 with
      | None => Throw fatalError_i3j3_eq_i2j2
      | Some dir =>
          let trace := counterClockwise dir in
          bind (probe 8 I i3j3 trace (replicate 8 false))
            (fun '(problem, i4j4, checked) =>
               if problem then Ret (false, I, m_points)
               else
                 let '(I', pts) := addContourPoint I m_points i3j3 checked nbd in
                 if bool_decide (i4j4 = ij) && bool_decide (i3j3 = i1j1)
                 then Ret (true, I', pts)
                 else walk fuel' I' ij i1j1 i3j3 i4j4 pts nbd)
      end
  end.

(** [followBorder]: the returned boolean, the image and the points of the
    border.  (The reference argument [i2j2] is also overwritten; its caller
    does not read it again.) *)
Definition followBorder (fuel : nat) (I : vpImage) (ij i2j2 : vpImagePoint)
    (m_points : list vpImagePoint) (nbd : Z)
  : result (bool * vpImage * list vpImagePoint) :=
  match fromTo ij i2j2 with
  | None => Throw fatalError_ij_eq_i2j2
  | Some dir =>
      bind (first_active 8 I ij dir (clockwise dir))
        (fun i1j1 =>
           if (i1j1.1 <? 0) || (i1j1.2 <? 0) then Ret (false, I, m_points)
           else walk fuel I ij i1j1 i1j1 ij m_points nbd)
  end.

Definition isOuterBorderStart (I : vpImage) (i j : Z) : bool :=
  (get I i j =? 1) && ((j =? 0) || (get I i (j - 1) =? 0)).

Definition isHoleBorderStart (I : vpImage) (i j : Z) : bool :=
  (1 <=? get I i j) && ((j =? getWidth I - 1) || (get I i (j + 1) =? 0)).

(** *** The contour tree *)

(** [struct vpContour]; a [vpContour *] is an address of the heap, the
    null pointer is [None]. *)
Record vpContour := mkContour {
  m_contourType : vpContourType;
  m_children : list nat;
  m_parent : option nat;
  m_points : list vpImagePoint
}.

(** [vpContour()]. *)
Definition new_contour : vpContour := mkContour CONTOUR_HOLE [] None [].

(** [vpContour(type)]: only the type is initialised by this constructor
    (the default constructor sets [m_parent] to [NULL], this one leaves it
    indeterminate).  The indeterminate pointer is [None], the pointer that
    designates no contour: every use of it as a contour is a [Fault]. *)
Definition new_contour_of (type : vpContourType) : vpContour :=
  mkContour type [] None [].

Definition with_type (c : vpContour) (t : vpContourType) : vpContour :=
  mkContour t (m_children c) (m_parent c) (m_points c).
Definition with_children (c : vpContour) (l : list nat) : vpContour :=
  mkContour (m_contourType c) l (m_parent c) (m_points c).
Definition with_parent (c : vpContour) (p : option nat) : vpContour :=
  mkContour (m_contourType c) (m_children c) p (m_points c).
Definition with_points (c : vpContour) (l : list vpImagePoint) : vpContour :=
  mkContour (m_contourType c) (m_children c) (m_parent c) l.

(** [this->setParent(parent)]:
    [m_parent = parent; parent->m_children.push_back(this);]
    A null [parent] is dereferenced by the second statement. *)
Definition setParent (h : gmap nat vpContour) (this : nat)
    (parent : option nat) : result (gmap nat vpContour) :=
  match h !! this with
  | None => Fault
  | Some c =>
      let h := <[this := with_parent c parent]> h in
      match parent with
      | None => Fault
      | Some p =>
          match h !! p with
          | None => Fault
          | Some pc => Ret (<[p := with_children pc (m_children pc ++ [this])]> h)
          end
      end
  end.

(** Modelled from the spec: [vpContour::removeParent] is declared in a
    header that is not among the sources.  The specification describes the
    rollback as "removing it from its parent": the contour is erased from
    the children of [parent] and its own parent link is reset.  Like
    [setParent], it goes through [parent] without a test: a [parent] that
    designates no contour is a [Fault]. *)
Definition removeParent (h : gmap nat vpContour) (this : nat)
    (parent : option nat) : result (gmap nat vpContour) :=
  match h !! this with
  | None => Fault
  | Some c =>
      let h := <[this := with_parent c None]> h in
      match parent with
      | None => Fault
      | Some p =>
          match h !! p with
          | None => Fault
          | Some pc =>
              Ret (<[p := with_children pc
                            (filter (fun x => x <> this) (m_children pc))]> h)
          end
      end
  end.

(** The variables of the raster scan of [extractContours]. *)
Record scan := mkScan {
  I : vpImage;
  nbd : Z;
  lnbd : Z;
  heap : gmap nat vpContour;
  next : nat;                      (* the address the next [new] returns *)
  borderMap : gmap Z nat
}.

(** The [switch] on [borderPrime->m_contourType] of an outer start, with
    [f] one of [setParent] and [removeParent]. *)
Definition link_outer
    (f : gmap nat vpContour -> nat -> option nat -> result (gmap nat vpContour))
    (h : gmap nat vpContour) (border borderPrime : nat)
  : result (gmap nat vpContour) :=
  match h !! borderPrime with
  | None => Fault
  | Some bp =>
      match m_contourType bp with
      | CONTOUR_OUTER => f h border (m_parent bp)
      | CONTOUR_HOLE => f h border (Some borderPrime)
      | _ => Ret h
      end
  end.

(** The same [switch] for a hole start. *)
Definition link_hole
    (f : gmap nat vpContour -> nat -> option nat -> result (gmap nat vpContour))
    (h : gmap nat vpContour) (border borderPrime : nat)
  : result (gmap nat vpContour) :=
  match h !! borderPrime with
  | None => Fault
  | Some bp =>
      match m_contourType bp with
      | CONTOUR_OUTER => f h border (Some borderPrime)
      | CONTOUR_HOLE => f h border (m_parent bp)
      | _ => Ret h
      end
  end.

Definition update (h : gmap nat vpContour) (p : nat)
    (f : vpContour -> vpContour) : result (gmap nat vpContour) :=
  match h !! p with
  | None => Fault
  | Some c => Ret (<[p := f c]> h)
  end.

(** What follows the call [followBorder(I, ij, from, border, nbd)] inside
    [if (borderPrime != NULL)]; [r] is the outcome of that call.  The call
    is not enclosed in a [try] block: an exception leaves [extractContours]. *)
Definition after_followBorder (i j : Z) (isOuter isHole : bool)
    (border borderPrime : nat) (st : scan)
    (r : result (bool * vpImage * list vpImagePoint)) : result scan :=
  bind r (fun '(followed, I1, pts) =>
    if followed then
      let '(I2, pts2) :=
        match pts with
        | [] => (set I1 i j (- nbd st), [(i, j)])
        | _ => (I1, pts)
        end in
      bind (update (heap st) border (fun c => with_points c pts2)) (fun h =>
      Ret (mkScan I2 (nbd st) (lnbd st) h (next st)
             (<[nbd st := border]> (borderMap st))))
    else
      let I2 := set I1 i j (- nbd st) in
      bind (update (heap st) border (fun c => with_points c [])) (fun h =>
      bind (if isOuter then link_outer removeParent h border borderPrime
            else Ret h) (fun h =>
      bind (if isHole then link_hole removeParent h border borderPrime
            else Ret h) (fun h =>
      Ret (mkScan I2 (nbd st) (lnbd st) (delete border h) (next st)
             (borderMap st)))))).

(** The body of [if (isOuter || isHole)]. *)
Definition start_border (fuel : nat) (i j fji : Z) (isOuter isHole : bool)
    (st : scan) : result scan :=
  let border := next st in
  let h := <[border := new_contour]> (heap st) in
  let nbd1 := nbd st + 1 in
  if isOuter then
    let from := (i, j - 1) in
    bind (update h border (fun c => with_type c CONTOUR_OUTER)) (fun h =>
    match borderMap st !! lnbd st with
    | Some borderPrime =>
        bind (link_outer setParent h border borderPrime) (fun h =>
        let st1 := mkScan (I st) nbd1 (lnbd st) h (S border) (borderMap st) in
        after_followBorder i j isOuter isHole border borderPrime st1
          (followBorder fuel (I st) (i, j) from [] nbd1))
    | None =>
        Ret (mkScan (I st) nbd1 (lnbd st) h (S border) (borderMap st))
    end)
  else
    let lnbd1 := if 1 <? fji then fji else lnbd st in
    match borderMap st !! lnbd1 with
    | Some borderPrime =>
        let from := (i, j + 1) in
        bind (update h border (fun c => with_type c CONTOUR_HOLE)) (fun h =>
        bind (link_hole setParent h border borderPrime) (fun h =>
        let st1 := mkScan (I st) nbd1 lnbd1 h (S border) (borderMap st) in
        after_followBorder i j isOuter isHole border borderPrime st1
          (followBorder fuel (I st) (i, j) from [] nbd1)))
    | None =>
        Ret (mkScan (I st) nbd1 lnbd1 h (S border) (borderMap st))
    end.

(** The body of the double loop at [(i, j)]. *)
Definition scan_pixel (fuel : nat) (i j : Z) (st : scan) : result scan :=
  let fji := get (I st) i j in
  let isOuter := isOuterBorderStart (I st) i j in
  let isHole := isHoleBorderStart (I st) i j in
  bind (if isOuter || isHole
        then start_border fuel i j fji isOuter isHole st
        else Ret st)
    (fun st =>
       if negb (fji =? 0) && negb (fji =? 1)
       then Ret (mkScan (I st) (nbd st) (Z.abs fji) (heap st) (next st)
                   (borderMap st))
       else Ret st).

Definition scan_row (fuel : nat) (i : Z) (st : scan) : result scan :=
  for_each (getWidth (I st)) (scan_pixel fuel i)
    (mkScan (I st) (nbd st) 1 (heap st) (next st) (borderMap st)).

(** Address of the root contour. *)
Definition root : nat := 0%nat.

(** The variables of the scan before its first iteration: the borders
    are numbered from 1, the number of the frame, which designates the root
    contour ("By default the root contour is a hole contour"). *)
Definition initial_scan (I0 : vpImage) : scan :=
  mkScan I0 1 1 {[root := new_contour_of CONTOUR_HOLE]} 1 {[1 := root]}.

(** What the caller holds across a call: the input image (const
    reference), the output contour (reference) and the contours the output
    points to. *)
Record caller := mkCaller {
  arg_I_original : vpImage;
  arg_contour : vpContour;
  arg_heap : gmap nat vpContour
}.

(** [extractContours], with [fuel] bounding each border walk.  The working
    image [I] receives the samples of [I_original] one by one. *)
Definition extractContours (fuel : nat) (c : caller) : result caller :=
  let I_original := arg_I_original c in
  if getSize I_original =? 0 then Ret c
  else
    let I0 := mkImage (getHeight I_original) (getWidth I_original)
                (rows I_original) in
    bind (for_each (getHeight I0) (scan_row fuel) (initial_scan I0)) (fun st =>
    match heap st !! root with
    | None => Fault
    | Some r => Ret (mkCaller I_original r (delete root (heap st)))
    end).

(** Example rasters. *)
Definition image_of (l : list (list Z)) : vpImage :=
  mkImage (Z.of_nat (length l)) (Z.of_nat (length (default [] (head l)))) l.

Definition fresh_caller (I : vpImage) : caller := mkCaller I new_contour ∅.

Definition ring_with_blob : vpImage :=
  image_of [[1; 1; 1; 1; 1; 1];
            [1; 0; 0; 0; 0; 1];
            [1; 0; 1; 1; 0; 1];
            [1; 0; 0; 0; 0; 1];
            [1; 1; 1; 1; 1; 1]].

(** *** Shape of the contour tree *)

(** Kinds of a child and of its parent alternate. *)
Definition alternate (child parent : vpContourType) : Prop :=
  (child = CONTOUR_OUTER /\ parent = CONTOUR_HOLE) \/
  (child = CONTOUR_HOLE /\ parent = CONTOUR_OUTER).

(** Invariant of the heap of contours during the scan; [n] is the next
    address.  A child address may be dangling (after a [delete]). *)
Definition tree_inv (h : gmap nat vpContour) (n : nat) : Prop :=
  (exists r, h !! root = Some r /\ m_contourType r = CONTOUR_HOLE) /\
  (forall p c, h !! p = Some c ->
     (p < n)%nat /\ m_contourType c <> CONTOUR_BACKGROUND) /\
  (forall p c q, h !! p = Some c -> m_parent c = Some q ->
     (q < p)%nat /\
     exists cq, h !! q = Some cq /\
                alternate (m_contourType c) (m_contourType cq)) /\
  (forall p c x, h !! p = Some c -> x ∈ m_children c ->
     (p < x < n)%nat /\
     forall cx, h !! x = Some cx -> m_parent cx = Some p).

(** Every registered border is a live contour. *)
Definition bm_inv (h : gmap nat vpContour) (bm : gmap Z nat) : Prop :=
  forall k b, bm !! k = Some b -> is_Some (h !! b).

(** [h] differs from [h0] only at the address [b] and by occurrences of
    [b] in lists of children. *)
Definition frame (b : nat) (h0 h : gmap nat vpContour) : Prop :=
  forall p, p <> b ->
    match h0 !! p, h !! p with
    | None, None => True
    | Some c0, Some c =>
        m_contourType c = m_contourType c0 /\
        m_parent c = m_parent c0 /\
        (forall x, x <> b -> x ∈ m_children c <-> x ∈ m_children c0)
    | _, _ => False
    end.

Lemma frame_refl b h : frame b h h.
Proof. intros p _. destruct (h !! p); done. Qed.

Lemma frame_trans b h0 h1 h2 : frame b h0 h1 -> frame b h1 h2 -> frame b h0 h2.
Proof.
  intros H1 H2 p Hp. specialize (H1 p Hp). specialize (H2 p Hp).
  destruct (h0 !! p), (h1 !! p), (h2 !! p); try done.
  destruct H1 as (? & ? & Hc1), H2 as (? & ? & Hc2).
  split_and!; [congruence|congruence|].
  intros x Hx. rewrite Hc2, Hc1 by done. done.
Qed.

Lemma frame_insert_self b h c : frame b h (<[b := c]> h).
Proof.
  intros p Hp. rewrite lookup_insert_ne by done. destruct (h !! p); done.
Qed.

Lemma frame_delete_self b h : frame b h (delete b h).
Proof.
  intros p Hp. rewrite lookup_delete_ne by done. destruct (h !! p); done.
Qed.

(** Changing the occurrences of [b] among the children of a contour. *)
Lemma frame_children b h p c l :
  h !! p = Some c ->
  (forall x, x <> b -> x ∈ l <-> x ∈ m_children c) ->
  frame b h (<[p := with_children c l]> h).
Proof.
  intros Hp Hl p' Hp'.
  destruct (decide (p = p')) as [<-|Hne].
  - rewrite lookup_insert_eq, Hp. simpl. done.
  - rewrite lookup_insert_ne by done. destruct (h !! p'); done.
Qed.

Lemma frame_setParent b h parent h' :
  setParent h b parent = Ret h' -> frame b h h'.
Proof.
  unfold setParent. intros H.
  destruct (h !! b) as [c|] eqn:Hb; [|done].
  destruct parent as [p|]; [|done].
  destruct (<[b:=with_parent c (Some p)]> h !! p) as [pc|] eqn:Hpc; [|done].
  injection H as <-.
  eapply frame_trans; [apply frame_insert_self|].
  apply frame_children; [done|].
  intros x Hx. rewrite elem_of_app, list_elem_of_singleton. tauto.
Qed.

Lemma frame_removeParent b h parent h' :
  removeParent h b parent = Ret h' -> frame b h h'.
Proof.
  unfold removeParent. intros H.
  destruct (h !! b) as [c|] eqn:Hb; [|done].
  destruct parent as [p|].
  - destruct (<[b:=with_parent c None]> h !! p) as [pc|] eqn:Hpc; [|done].
    injection H as <-.
    eapply frame_trans; [apply frame_insert_self|].
    apply frame_children; [done|].
    intros x Hx. rewrite list_elem_of_filter. tauto.
  - done.
Qed.

Lemma frame_update b h f h' : update h b f = Ret h' -> frame b h h'.
Proof.
  unfold update. intros H. destruct (h !! b); [|done].
  injection H as <-. apply frame_insert_self.
Qed.

Lemma frame_link_outer b h f bp h' :
  (forall h1 t h2, f h1 b t = Ret h2 -> frame b h1 h2) ->
  link_outer f h b bp = Ret h' -> frame b h h'.
Proof.
  intros Hf. unfold link_outer. intros H.
  destruct (h !! bp) as [c|]; [|done].
  destruct (m_contourType c); try (by eapply Hf).
  injection H as <-. apply frame_refl.
Qed.

Lemma frame_link_hole b h f bp h' :
  (forall h1 t h2, f h1 b t = Ret h2 -> frame b h1 h2) ->
  link_hole f h b bp = Ret h' -> frame b h h'.
Proof.
  intros Hf. unfold link_hole. intros H.
  destruct (h !! bp) as [c|]; [|done].
  destruct (m_contourType c); try (by eapply Hf).
  injection H as <-. apply frame_refl.
Qed.

(** Deleting the contour at [b] after changes confined to it. *)
Lemma tree_inv_frame_delete b h0 h :
  tree_inv h0 b -> frame b h0 h -> tree_inv (delete b h) (S b).
Proof.
  intros (Hroot & Hdom & Hpar & Hch) Hfr.
  assert (Hlook : forall p c, delete b h !! p = Some c ->
            p <> b /\ exists c0, h0 !! p = Some c0 /\
              m_contourType c = m_contourType c0 /\
              m_parent c = m_parent c0 /\
              (forall x, x <> b -> x ∈ m_children c <-> x ∈ m_children c0)).
  { intros p c Hp. apply lookup_delete_Some in Hp as [Hne Hp].
    split; [done|]. specialize (Hfr p (not_eq_sym Hne)). rewrite Hp in Hfr.
    destruct (h0 !! p) as [c0|]; [|done]. eauto. }
  assert (Hback : forall p c0, h0 !! p = Some c0 ->
            exists c, delete b h !! p = Some c /\
              m_contourType c = m_contourType c0).
  { intros p c0 Hp. destruct (Hdom p c0 Hp) as [Hlt _].
    assert (Hne : p <> b) by lia. specialize (Hfr p Hne). rewrite Hp in Hfr.
    destruct (h !! p) as [c|] eqn:Hc; [|done].
    exists c. rewrite lookup_delete_ne by done. split; [done|]. tauto. }
  unfold tree_inv. split_and!.
  - destruct Hroot as (r & Hr & Hk).
    destruct (Hback _ _ Hr) as (c & Hc & Hkc). exists c. split; [done|congruence].
  - intros p c Hp. destruct (Hlook p c Hp) as (Hne & c0 & Hc0 & Hk & _).
    destruct (Hdom p c0 Hc0). split; [lia|congruence].
  - intros p c q Hp Hq. destruct (Hlook p c Hp) as (Hne & c0 & Hc0 & Hk & Hpa & _).
    rewrite Hpa in Hq. destruct (Hpar p c0 q Hc0 Hq) as (Hlt & cq & Hcq & Halt).
    split; [done|]. destruct (Hback _ _ Hcq) as (cq' & Hcq' & Hkq).
    exists cq'. split; [done|]. congruence.
  - intros p c x Hp Hx.
    destruct (Hlook p c Hp) as (Hne & c0 & Hc0 & Hk & Hpa & Hchd).
    destruct (Hdom p c0 Hc0) as [Hlt _].
    destruct (decide (x = b)) as [->|Hxb].
    + split; [lia|]. intros cx Hcx. by rewrite lookup_delete_eq in Hcx.
    + apply Hchd in Hx; [|done].
      destruct (Hch p c0 x Hc0 Hx) as [Hrange Hcx0]. split; [lia|].
      intros cx Hcx. destruct (Hlook x cx Hcx) as (_ & cx0 & Hcx0' & _ & Hpx & _).
      rewrite Hpx. by apply Hcx0.
Qed.

(** [new]: a contour without parent or children at the next address. *)
Lemma tree_inv_alloc h n c0 :
  tree_inv h n ->
  m_contourType c0 <> CONTOUR_BACKGROUND ->
  m_parent c0 = None -> m_children c0 = [] ->
  tree_inv (<[n := c0]> h) (S n).
Proof.
  intros (Hroot & Hdom & Hpar & Hch) Hk Hp0 Hc0.
  assert (Hfresh : h !! n = None).
  { destruct (h !! n) as [c|] eqn:Hn; [|done]. apply Hdom in Hn. lia. }
  unfold tree_inv. split_and!.
  - destruct Hroot as (r & Hr & Hkr). exists r. split; [|done].
    rewrite lookup_insert_ne; [done|]. intros Heq. rewrite Heq in Hfresh.
    congruence.
  - intros p c Hp. apply lookup_insert_Some in Hp as [[<- <-]|[Hne Hp]].
    + split; [lia|done].
    + destruct (Hdom p c Hp). split; [lia|done].
  - intros p c q Hp Hq. apply lookup_insert_Some in Hp as [[<- <-]|[Hne Hp]].
    + congruence.
    + destruct (Hpar p c q Hp Hq) as (Hlt & cq & Hcq & Halt).
      split; [done|]. exists cq. split; [|done].
      rewrite lookup_insert_ne; [done|]. intros <-. congruence.
  - intros p c x Hp Hx. apply lookup_insert_Some in Hp as [[<- <-]|[Hne Hp]].
    + rewrite Hc0 in Hx. by apply elem_of_nil in Hx.
    + destruct (Hch p c x Hp Hx) as [Hrange Hcx]. split; [lia|].
      intros cx Hx'. apply lookup_insert_Some in Hx' as [[<- <-]|[Hnx Hx']].
      * lia.
      * by apply Hcx.
Qed.

(** Attaching a parentless contour under an older one of the other kind. *)
Lemma tree_inv_setParent h n b c q cq h' :
  tree_inv h n ->
  h !! b = Some c -> m_parent c = None ->
  (q < b)%nat -> h !! q = Some cq ->
  alternate (m_contourType c) (m_contourType cq) ->
  setParent h b (Some q) = Ret h' ->
  tree_inv h' n.
Proof.
  intros (Hroot & Hdom & Hpar & Hch) Hb Hp0 Hlt Hq Halt Hset.
  unfold setParent in Hset. rewrite Hb in Hset.
  rewrite lookup_insert_ne in Hset by lia. rewrite Hq in Hset.
  injection Hset as <-.
  assert (Hlook : forall p c', <[q:=with_children cq (m_children cq ++ [b])]>
                      (<[b:=with_parent c (Some q)]> h) !! p = Some c' ->
            exists c0, h !! p = Some c0 /\
              m_contourType c' = m_contourType c0 /\
              (p <> b -> m_parent c' = m_parent c0) /\
              (p = b -> m_parent c' = Some q) /\
              (p <> q -> m_children c' = m_children c0) /\
              (p = q -> m_children c' = m_children c0 ++ [b])).
  { intros p c' Hp. apply lookup_insert_Some in Hp as [[<- <-]|[Hne Hp]].
    - exists cq. split_and!; try done. intros ->. lia.
    - apply lookup_insert_Some in Hp as [[<- <-]|[Hne' Hp]].
      + exists c. split_and!; done.
      + exists c'. split_and!; done. }
  assert (Hback : forall p c0, h !! p = Some c0 ->
            exists c', <[q:=with_children cq (m_children cq ++ [b])]>
                      (<[b:=with_parent c (Some q)]> h) !! p = Some c' /\
              m_contourType c' = m_contourType c0).
  { intros p c0 Hp. destruct (decide (p = q)) as [->|Hne].
    - rewrite lookup_insert_eq. eexists. split; [done|]. simpl. congruence.
    - rewrite lookup_insert_ne by done. destruct (decide (p = b)) as [->|Hne'].
      + rewrite lookup_insert_eq. eexists. split; [done|]. simpl. congruence.
      + rewrite lookup_insert_ne by done. eauto. }
  unfold tree_inv. split_and!.
  - destruct Hroot as (r & Hr & Hk). destruct (Hback _ _ Hr) as (r' & Hr' & Hk').
    exists r'. split; [done|congruence].
  - intros p c' Hp. destruct (Hlook p c' Hp) as (c0 & Hc0 & Hk & _).
    destruct (Hdom p c0 Hc0). split; [done|congruence].
  - intros p c' q' Hp Hq'.
    destruct (Hlook p c' Hp) as (c0 & Hc0 & Hk & Hpne & Hpeq & _).
    destruct (decide (p = b)) as [->|Hne].
    + rewrite Hpeq in Hq' by done. injection Hq' as <-. split; [done|].
      destruct (Hback _ _ Hq) as (cq' & Hcq' & Hkq). exists cq'.
      split; [done|]. rewrite Hk, Hkq. congruence.
    + rewrite Hpne in Hq' by done.
      destruct (Hpar p c0 q' Hc0 Hq') as (Hlt' & cq0 & Hcq0 & Halt0).
      split; [done|]. destruct (Hback _ _ Hcq0) as (cq' & Hcq' & Hkq).
      exists cq'. split; [done|]. congruence.
  - intros p c' x Hp Hx.
    destruct (Hlook p c' Hp) as (c0 & Hc0 & Hk & _ & _ & Hcne & Hceq).
    destruct (Hdom b c Hb) as [Hbn _].
    assert (Hold : x ∈ m_children c0 -> (p < x < n)%nat /\
              forall cx, <[q:=with_children cq (m_children cq ++ [b])]>
                      (<[b:=with_parent c (Some q)]> h) !! x = Some cx ->
                         m_parent cx = Some p).
    { intros Hx0. destruct (Hch p c0 x Hc0 Hx0) as [Hrange Hcx0].
      split; [done|]. intros cx Hcx.
      destruct (Hlook x cx Hcx) as (cx0 & Hcx0' & _ & Hxne & _).
      assert (Hxb : x <> b).
      { intros ->. rewrite Hb in Hcx0'. injection Hcx0' as <-.
        specialize (Hcx0 c Hb). congruence. }
      rewrite Hxne by done. by apply Hcx0. }
    destruct (decide (p = q)) as [->|Hne].
    + rewrite Hceq in Hx by done. apply elem_of_app in Hx as [Hx|Hx].
      * by apply Hold.
      * apply list_elem_of_singleton in Hx as ->. split; [lia|].
        intros cx Hcx. destruct (Hlook b cx Hcx) as (_ & _ & _ & _ & Hpeq & _).
        by apply Hpeq.
    + rewrite Hcne in Hx by done. by apply Hold.
Qed.

(** Replacing the points of a contour. *)
Lemma tree_inv_update_points h n b pts h' :
  tree_inv h n -> update h b (fun c => with_points c pts) = Ret h' ->
  tree_inv h' n.
Proof.
  intros (Hroot & Hdom & Hpar & Hch) Hup. unfold update in Hup.
  destruct (h !! b) as [cb|] eqn:Hb; [|done]. injection Hup as <-.
  assert (Hlook : forall p c', <[b:=with_points cb pts]> h !! p = Some c' ->
            exists c0, h !! p = Some c0 /\
              m_contourType c' = m_contourType c0 /\
              m_parent c' = m_parent c0 /\ m_children c' = m_children c0).
  { intros p c' Hp. apply lookup_insert_Some in Hp as [[<- <-]|[Hne Hp]]; eauto. }
  assert (Hback : forall p c0, h !! p = Some c0 ->
            exists c', <[b:=with_points cb pts]> h !! p = Some c' /\
              m_contourType c' = m_contourType c0).
  { intros p c0 Hp. destruct (decide (p = b)) as [->|Hne].
    - rewrite lookup_insert_eq. eexists. split; [done|]. simpl. congruence.
    - rewrite lookup_insert_ne by done. eauto. }
  unfold tree_inv. split_and!.
  - destruct Hroot as (r & Hr & Hk). destruct (Hback _ _ Hr) as (r' & Hr' & Hk').
    exists r'. split; [done|congruence].
  - intros p c' Hp. destruct (Hlook p c' Hp) as (c0 & Hc0 & Hk & _).
    destruct (Hdom p c0 Hc0). split; [done|congruence].
  - intros p c' q Hp Hq. destruct (Hlook p c' Hp) as (c0 & Hc0 & Hk & Hpa & _).
    rewrite Hpa in Hq. destruct (Hpar p c0 q Hc0 Hq) as (Hlt & cq & Hcq & Halt).
    split; [done|]. destruct (Hback _ _ Hcq) as (cq' & Hcq' & Hkq).
    exists cq'. split; [done|]. congruence.
  - intros p c' x Hp Hx. destruct (Hlook p c' Hp) as (c0 & Hc0 & _ & _ & Hcd).
    rewrite Hcd in Hx. destruct (Hch p c0 x Hc0 Hx) as [Hrange Hcx].
    split; [done|]. intros cx Hcx'.
    destruct (Hlook x cx Hcx') as (cx0 & Hcx0 & _ & Hpx & _).
    rewrite Hpx. by apply Hcx.
Qed.

(** Live contours stay live under changes confined to another address. *)
Lemma frame_is_Some b h0 h p :
  frame b h0 h -> p <> b -> is_Some (h0 !! p) -> is_Some (h !! p).
Proof.
  intros Hfr Hne [c0 Hc0]. specialize (Hfr p Hne). rewrite Hc0 in Hfr.
  destruct (h !! p); [eauto|done].
Qed.

Lemma bm_inv_frame b h0 h bm :
  tree_inv h0 b -> bm_inv h0 bm -> frame b h0 h -> bm_inv h bm.
Proof.
  intros (_ & Hdom & _) Hbm Hfr k x Hk.
  destruct (Hbm k x Hk) as [c Hc]. destruct (Hdom x c Hc) as [Hlt _].
  eapply frame_is_Some; [done|lia|eauto].
Qed.

(** The two [switch] statements that attach a new border. *)
Lemma tree_inv_link_setParent (outer : bool) h n b c bp h' :
  tree_inv h n ->
  h !! b = Some c -> m_parent c = None ->
  m_contourType c = (if outer then CONTOUR_OUTER else CONTOUR_HOLE) ->
  (bp < b)%nat ->
  (if outer then link_outer setParent h b bp
   else link_hole setParent h b bp) = Ret h' ->
  tree_inv h' n.
Proof.
  intros Hinv Hb Hp0 Hk Hlt Hlink.
  pose proof Hinv as (_ & _ & Hpar & _).
  assert (Hcase : exists bpc, h !! bp = Some bpc /\
            match m_contourType bpc with
            | CONTOUR_OUTER =>
                setParent h b (if outer then m_parent bpc else Some bp) = Ret h'
            | CONTOUR_HOLE =>
                setParent h b (if outer then Some bp else m_parent bpc) = Ret h'
            | CONTOUR_BACKGROUND => h' = h
            end).
  { unfold link_outer, link_hole in Hlink.
    destruct (h !! bp) as [bpc|]; [|by destruct outer].
    exists bpc. split; [done|].
    destruct outer, (m_contourType bpc); try done; congruence. }
  destruct Hcase as (bpc & Hbp & Hset).
  destruct (m_contourType bpc) eqn:Hkbp.
  - destruct outer.
    + destruct (m_parent bpc) as [q|] eqn:Hq.
      2:{ unfold setParent in Hset. by rewrite Hb in Hset. }
      destruct (Hpar bp bpc q Hbp Hq) as (Hqlt & cq & Hcq & Halt).
      eapply (tree_inv_setParent h n b c q cq); try done; [lia|].
      left. split; [done|]. destruct Halt as [[_ ?]|[? _]]; congruence.
    + eapply (tree_inv_setParent h n b c bp bpc); try done.
      right. done.
  - destruct outer.
    + eapply (tree_inv_setParent h n b c bp bpc); try done.
      left. done.
    + destruct (m_parent bpc) as [q|] eqn:Hq.
      2:{ unfold setParent in Hset. by rewrite Hb in Hset. }
      destruct (Hpar bp bpc q Hbp Hq) as (Hqlt & cq & Hcq & Halt).
      eapply (tree_inv_setParent h n b c q cq); try done; [lia|].
      right. split; [done|]. destruct Halt as [[? _]|[_ ?]]; congruence.
  - by subst.
Qed.

Lemma frame_link_setParent (outer : bool) b h bp h' :
  (if outer then link_outer setParent h b bp
   else link_hole setParent h b bp) = Ret h' ->
  frame b h h'.
Proof.
  destruct outer; intros H.
  - eapply frame_link_outer; [|done]. intros. by eapply frame_setParent.
  - eapply frame_link_hole; [|done]. intros. by eapply frame_setParent.
Qed.

(** What follows a border walk keeps the invariants, whether the border is
    registered or rolled back. *)
Lemma after_followBorder_inv i j isOuter isHole border bp st r st' h0 :
  tree_inv h0 border -> bm_inv h0 (borderMap st) ->
  frame border h0 (heap st) ->
  tree_inv (heap st) (S border) -> next st = S border ->
  after_followBorder i j isOuter isHole border bp st r = Ret st' ->
  tree_inv (heap st') (next st') /\ bm_inv (heap st') (borderMap st').
Proof.
  intros Hinv0 Hbm0 Hfr Hinv Hnext Hafter.
  unfold after_followBorder in Hafter.
  destruct r as [[[followed I1] pts]| | |]; try done. simpl in Hafter.
  destruct followed.
  - destruct (match pts with
              | [] => (set I1 i j (- nbd st), [(i, j)])
              | _ :: _ => (I1, pts)
              end) as [I2 pts2].
    destruct (update (heap st) border (fun c => with_points c pts2))
      as [h3| | |] eqn:Hup; try done.
    simpl in Hafter. injection Hafter as <-. simpl. rewrite Hnext. split.
    + by eapply tree_inv_update_points.
    + intros k x Hk. apply lookup_insert_Some in Hk as [[_ <-]|[_ Hk]].
      * unfold update in Hup. destruct (heap st !! border); [|done].
        injection Hup as <-. rewrite lookup_insert_eq. eauto.
      * eapply (bm_inv_frame border h0); [done|done| |done].
        eapply frame_trans; [done|]. by eapply frame_update.
  - destruct (update (heap st) border (fun c => with_points c []))
      as [h3| | |] eqn:Hup; try done. simpl in Hafter.
    destruct (if isOuter then link_outer removeParent h3 border bp else Ret h3)
      as [h4| | |] eqn:Hrm1; try done. simpl in Hafter.
    destruct (if isHole then link_hole removeParent h4 border bp else Ret h4)
      as [h5| | |] eqn:Hrm2; try done. simpl in Hafter.
    injection Hafter as <-. simpl. rewrite Hnext.
    assert (Hfr5 : frame border h0 h5).
    { eapply frame_trans; [exact Hfr|].
      eapply frame_trans; [by eapply frame_update|].
      eapply (frame_trans _ _ h4).
      - destruct isOuter.
        + eapply frame_link_outer; [|done]. intros. by eapply frame_removeParent.
        + injection Hrm1 as <-. apply frame_refl.
      - destruct isHole.
        + eapply frame_link_hole; [|done]. intros. by eapply frame_removeParent.
        + injection Hrm2 as <-. apply frame_refl. }
    split.
    + by apply (tree_inv_frame_delete border h0).
    + eapply (bm_inv_frame border h0); [done|done|].
      eapply frame_trans; [exact Hfr5|]. apply frame_delete_self.
Qed.

(** The body of [if (isOuter || isHole)] keeps the invariants. *)
Lemma start_border_inv fuel i j fji isOuter isHole st st' :
  tree_inv (heap st) (next st) -> bm_inv (heap st) (borderMap st) ->
  start_border fuel i j fji isOuter isHole st = Ret st' ->
  tree_inv (heap st') (next st') /\ bm_inv (heap st') (borderMap st').
Proof.
  intros Hinv Hbm Hstart. unfold start_border in Hstart.
  set (border := next st) in *.
  set (kind := if isOuter then CONTOUR_OUTER else CONTOUR_HOLE).
  set (h1 := <[border := with_type new_contour kind]> (heap st)).
  assert (Hinv1 : tree_inv h1 (S border)).
  { apply tree_inv_alloc; try done. unfold kind. by destruct isOuter. }
  assert (Hfr1 : frame border (heap st) h1) by apply frame_insert_self.
  assert (Hup : forall K, update (<[border := new_contour]> (heap st)) border
                  (fun c => with_type c K)
                = Ret (<[border := with_type new_contour K]> (heap st))).
  { intros K. unfold update. rewrite lookup_insert_eq.
    by rewrite insert_insert_eq. }
  assert (Hunlinked : tree_inv (<[border := new_contour]> (heap st)) (S border)
                      /\ bm_inv (<[border := new_contour]> (heap st)) (borderMap st)).
  { split; [by apply tree_inv_alloc|].
    eapply (bm_inv_frame border (heap st)); [done|done|apply frame_insert_self]. }
  assert (Hattached : forall bm_key bp h2 lnbd1 from,
            borderMap st !! bm_key = Some bp ->
            (if isOuter then link_outer setParent h1 border bp
             else link_hole setParent h1 border bp) = Ret h2 ->
            after_followBorder i j isOuter isHole border bp
              (mkScan (I st) (nbd st + 1) lnbd1 h2 (S border) (borderMap st))
              (followBorder fuel (I st) (i, j) from [] (nbd st + 1)) = Ret st' ->
            tree_inv (heap st') (next st') /\ bm_inv (heap st') (borderMap st')).
  { intros bm_key bp h2 lnbd1 from Hkey Hlink Hafter.
    assert (Hbplt : (bp < border)%nat).
    { destruct (Hbm _ _ Hkey) as [c Hc]. destruct Hinv as (_ & Hdom & _).
      by destruct (Hdom bp c Hc). }
    eapply (after_followBorder_inv i j isOuter isHole border bp
              (mkScan (I st) (nbd st + 1) lnbd1 h2 (S border) (borderMap st))
              _ st' (heap st));
      [done|done| | |done|exact Hafter]; simpl.
    - eapply frame_trans; [exact Hfr1|]. by eapply frame_link_setParent.
    - eapply (tree_inv_link_setParent isOuter h1 (S border) border
                (with_type new_contour kind) bp); try done.
      unfold h1. by rewrite lookup_insert_eq. }
  destruct isOuter.
  - rewrite Hup in Hstart. simpl in Hstart.
    destruct (borderMap st !! lnbd st) as [bp|] eqn:Hkey.
    + destruct (link_outer setParent
                  (<[border:=with_type new_contour CONTOUR_OUTER]> (heap st))
                  border bp) as [h2| | |] eqn:Hlink; try done.
      simpl in Hstart. by eapply (Hattached (lnbd st) bp h2).
    + injection Hstart as <-. simpl. split; [done|].
      eapply (bm_inv_frame border (heap st)); done.
  - destruct (borderMap st !! (if 1 <? fji then fji else lnbd st))
      as [bp|] eqn:Hkey.
    + rewrite Hup in Hstart. simpl in Hstart.
      destruct (link_hole setParent
                  (<[border:=with_type new_contour CONTOUR_HOLE]> (heap st))
                  border bp) as [h2| | |] eqn:Hlink; try done.
      simpl in Hstart. by eapply (Hattached _ bp h2).
    + injection Hstart as <-. simpl. destruct Hunlinked. done.
Qed.

(** *** The raster scan of [extractContours] *)

Lemma bind_Ret {A B : Type} (r : result A) (k : A -> result B) (b : B) :
  bind r k = Ret b -> exists a, r = Ret a /\ k a = Ret b.
Proof. destruct r; simpl; try done. eauto. Qed.

(** A property kept by every completed iteration holds when the loop
    completes. *)
Lemma for_each_Ret {St : Type} (P : St -> Prop) (n : Z)
    (body : Z -> St -> result St) (s s' : St) :
  (forall k s1 s2, P s1 -> body k s1 = Ret s2 -> P s2) ->
  P s -> for_each n body s = Ret s' -> P s'.
Proof.
  intros Hstep H0. unfold for_each.
  assert (Hgen : forall l r,
            (forall s1, r = Ret s1 -> P s1) ->
            foldl (fun acc k => bind acc (body k)) r l = Ret s' -> P s').
  { induction l as [|k l IH]; intros r Hr Hfold; simpl in Hfold.
    - by apply Hr.
    - apply (IH (bind r (body k))); [|done].
      intros s2 Hs2. apply bind_Ret in Hs2 as (s1 & -> & Hb).
      eapply Hstep; [|done]. by apply Hr. }
  apply Hgen. intros s1 [= <-]. done.
Qed.

Definition contour_inv (st : scan) : Prop :=
  tree_inv (heap st) (next st) /\ bm_inv (heap st) (borderMap st).

Lemma contour_scan_pixel_inv fuel i j st st' :
  contour_inv st -> scan_pixel fuel i j st = Ret st' -> contour_inv st'.
Proof.
  intros [Hinv Hbm] Hpix. unfold scan_pixel in Hpix.
  apply bind_Ret in Hpix as (st1 & Hstart & Hl).
  assert (H1 : contour_inv st1).
  { destruct (isOuterBorderStart (I st) i j || isHoleBorderStart (I st) i j).
    - by eapply start_border_inv.
    - injection Hstart as <-. done. }
  destruct (negb (get (I st) i j =? 0) && negb (get (I st) i j =? 1));
    injection Hl as <-; done.
Qed.

Lemma contour_scan_row_inv fuel i st st' :
  contour_inv st -> scan_row fuel i st = Ret st' -> contour_inv st'.
Proof.
  intros Hinv Hrow. unfold scan_row in Hrow.
  eapply (for_each_Ret contour_inv); [| |exact Hrow].
  - intros k s1 s2. apply contour_scan_pixel_inv.
  - destruct Hinv. split; done.
Qed.

Lemma contour_scan_inv_initial I0 : contour_inv (initial_scan I0).
Proof.
  split; simpl.
  - unfold tree_inv. split_and!.
    + eexists. by rewrite lookup_singleton_eq.
    + intros p c Hp. apply lookup_singleton_Some in Hp as [<- <-].
      unfold root. split; [lia|done].
    + intros p c q Hp Hq. apply lookup_singleton_Some in Hp as [<- <-]. done.
    + intros p c x Hp Hx. apply lookup_singleton_Some in Hp as [<- <-].
      by apply elem_of_nil in Hx.
  - intros k b Hk. apply lookup_singleton_Some in Hk as [<- <-].
    rewrite lookup_singleton_eq. eauto.
Qed.

(** *** The tree handed to the caller *)

(** A node of the returned tree: the caller's [contour] object (a copy of
    the root) or a contour it points to. *)
Inductive node_ref :=
  | RootNode
  | Node (p : nat).

Definition node_of (c : caller) (r : node_ref) : option vpContour :=
  match r with
  | RootNode => Some (arg_contour c)
  | Node p => arg_heap c !! p
  end.

(** [x] is a child of the node [r] and designates the contour [cx]. *)
Definition child_of (c : caller) (x : nat) (cx : vpContour) (r : node_ref)
    (n : vpContour) : Prop :=
  node_of c r = Some n /\ x ∈ m_children n /\ arg_heap c !! x = Some cx.

(** On a non-empty raster, a completed extraction returns a root of kind
    [CONTOUR_HOLE], no contour of kind [CONTOUR_BACKGROUND], and children
    whose kind alternates with their parent's. *)
Lemma extractContours_shape fuel c c' :
  getSize (arg_I_original c) <> 0 ->
  extractContours fuel c = Ret c' ->
  m_contourType (arg_contour c') = CONTOUR_HOLE /\
  (forall p n, arg_heap c' !! p = Some n ->
     m_contourType n = CONTOUR_OUTER \/ m_contourType n = CONTOUR_HOLE) /\
  (forall x cx r n, child_of c' x cx r n ->
     alternate (m_contourType cx) (m_contourType n)).
Proof.
  intros Hsz Hex. unfold extractContours in Hex.
  apply Z.eqb_neq in Hsz. rewrite Hsz in Hex.
  apply bind_Ret in Hex as (st & Hscan & Hret).
  assert (Hinv : contour_inv st).
  { eapply (for_each_Ret contour_inv); [| |exact Hscan].
    - intros k s1 s2. apply contour_scan_row_inv.
    - apply contour_scan_inv_initial. }
  destruct Hinv as [(Hroot & Hdom & Hpar & Hch) _].
  destruct Hroot as (r0 & Hr0 & Hk0). rewrite Hr0 in Hret.
  injection Hret as <-. simpl.
  split_and!; [done| |].
  - intros p n Hp. apply lookup_delete_Some in Hp as [_ Hp].
    destruct (Hdom p n Hp) as [_ Hk]. destruct (m_contourType n); tauto.
  - intros x cx r n (Hn & Hx & Hcx). simpl in *.
    apply lookup_delete_Some in Hcx as [Hx0 Hcx].
    assert (Hedge : exists p, heap st !! p = Some n).
    { destruct r as [|p]; simpl in Hn.
      - injection Hn as <-. eauto.
      - apply lookup_delete_Some in Hn as [_ Hn]. eauto. }
    destruct Hedge as (p & Hp).
    destruct (Hch p n x Hp Hx) as [_ Hparent].
    specialize (Hparent cx Hcx).
    destruct (Hpar x cx p Hcx Hparent) as (_ & n' & Hn' & Halt).
    congruence.
Qed.

(** *** Properties of the contour tree *)

Definition on_ring : caller := fresh_caller ring_with_blob.

Definition on_ring_result : caller :=
  Eval vm_compute in
    match extractContours 100 on_ring with
    | Ret c => c
    | _ => on_ring
    end.

Lemma on_ring_returns : extractContours 100 on_ring = Ret on_ring_result.
Proof. vm_compute. reflexivity. Qed.

Lemma on_ring_size : getSize (arg_I_original on_ring) <> 0.
Proof. vm_compute. discriminate. Qed.

(** A caller whose [contour] object is not a default-constructed one. *)
Definition stale_contour : vpContour :=
  mkContour CONTOUR_BACKGROUND [7%nat] None [(3, 4)].

Definition on_single_zero : caller :=
  mkCaller (image_of [[0]]) stale_contour ∅.

(** C3, as stated, fails: on the 1x1 raster [[0]] the returned root has
    kind [CONTOUR_HOLE], not the background kind. *)
Lemma root_is_not_background :
  exists c',
    extractContours 1 on_single_zero = Ret c' /\
    m_contourType (arg_contour c') = CONTOUR_HOLE /\
    m_contourType (arg_contour c') <> CONTOUR_BACKGROUND.
Proof.
  eexists. split; [vm_compute; reflexivity|]. split; [reflexivity|discriminate].
Qed.

(** C3, amended.  Whenever [extractContours] returns on a non-empty
    raster, the root it returns is a contour of kind [CONTOUR_HOLE] without
    parent, and every other contour of the tree has kind [CONTOUR_OUTER] or
    [CONTOUR_HOLE]: no contour has the background kind. *)
Theorem extractContours_root_kind (fuel : nat) (c c' : caller) :
  getSize (arg_I_original c) <> 0 ->
  extractContours fuel c = Ret c' ->
  m_contourType (arg_contour c') = CONTOUR_HOLE /\
  (forall p n, arg_heap c' !! p = Some n ->
     m_contourType n <> CONTOUR_BACKGROUND /\
     (m_contourType n = CONTOUR_OUTER \/ m_contourType n = CONTOUR_HOLE)).
Proof.
  intros Hsz Hex.
  destruct (extractContours_shape fuel c c' Hsz Hex) as (Hroot & Hkinds & _).
  split; [done|]. intros p n Hp.
  destruct (Hkinds p n Hp) as [Hk|Hk]; rewrite Hk; split; auto; discriminate.
Qed.

Lemma extractContours_root_kind_witness :
  getSize (arg_I_original on_ring) <> 0 /\
  extractContours 100 on_ring = Ret on_ring_result /\
  m_contourType (arg_contour on_ring_result) = CONTOUR_HOLE /\
  (forall p n, arg_heap on_ring_result !! p = Some n ->
     m_contourType n <> CONTOUR_BACKGROUND /\
     (m_contourType n = CONTOUR_OUTER \/ m_contourType n = CONTOUR_HOLE)).
Proof.
  split; [exact on_ring_size|]. split; [exact on_ring_returns|].
  exact (extractContours_root_kind 100 on_ring on_ring_result
           on_ring_size on_ring_returns).
Defined.

(** C6, as stated, fails: in the tree of [ring_with_blob] the contour 3 is
    an Outer contour whose parent, the contour 2, is neither the root nor
    an Outer contour: it is the Hole contour of the ring. *)
Lemma outer_under_hole :
  exists c' cx n,
    extractContours 100 on_ring = Ret c' /\
    child_of c' 3 cx (Node 2) n /\
    m_contourType cx = CONTOUR_OUTER /\
    m_contourType n = CONTOUR_HOLE /\
    m_contourType n <> CONTOUR_OUTER.
Proof.
  eexists. eexists. eexists.
  split; [exact on_ring_returns|].
  split.
  - unfold child_of. simpl. split; [vm_compute; reflexivity|].
    split; [|vm_compute; reflexivity].
    apply list_elem_of_singleton. reflexivity.
  - simpl. split; [reflexivity|]. split; [reflexivity|discriminate].
Qed.

(** C6, amended.  In every tree returned by [extractContours] on a
    non-empty raster, the parent of every Outer contour is a contour of
    kind Hole (the root, which has that kind, or a hole border); it is
    never another Outer contour. *)
Theorem outer_parent_is_hole (fuel : nat) (c c' : caller)
    (x : nat) (cx : vpContour) (r : node_ref) (n : vpContour) :
  getSize (arg_I_original c) <> 0 ->
  extractContours fuel c = Ret c' ->
  child_of c' x cx r n ->
  m_contourType cx = CONTOUR_OUTER ->
  m_contourType n = CONTOUR_HOLE /\ m_contourType n <> CONTOUR_OUTER.
Proof.
  intros Hsz Hex Hedge Hk.
  destruct (extractContours_shape fuel c c' Hsz Hex) as (_ & _ & Halt).
  destruct (Halt x cx r n Hedge) as [[_ Hn]|[Hc _]]; [|congruence].
  rewrite Hn. split; [done|discriminate].
Qed.

Definition ring_outer : vpContour :=
  Eval vm_compute in default new_contour (arg_heap on_ring_result !! 1%nat).
Definition ring_hole : vpContour :=
  Eval vm_compute in default new_contour (arg_heap on_ring_result !! 2%nat).
Definition ring_blob : vpContour :=
  Eval vm_compute in default new_contour (arg_heap on_ring_result !! 3%nat).

Lemma blob_child_of_hole : child_of on_ring_result 3 ring_blob (Node 2) ring_hole.
Proof.
  unfold child_of. simpl. split; [vm_compute; reflexivity|].
  split; [|vm_compute; reflexivity].
  apply list_elem_of_singleton. reflexivity.
Qed.

Lemma hole_child_of_outer : child_of on_ring_result 2 ring_hole (Node 1) ring_outer.
Proof.
  unfold child_of. simpl. split; [vm_compute; reflexivity|].
  split; [|vm_compute; reflexivity].
  apply list_elem_of_singleton. reflexivity.
Qed.

Lemma outer_parent_is_hole_witness :
  getSize (arg_I_original on_ring) <> 0 /\
  extractContours 100 on_ring = Ret on_ring_result /\
  child_of on_ring_result 3 ring_blob (Node 2) ring_hole /\
  m_contourType ring_blob = CONTOUR_OUTER /\
  m_contourType ring_hole = CONTOUR_HOLE /\
  m_contourType ring_hole <> CONTOUR_OUTER.
Proof.
  split; [exact on_ring_size|]. split; [exact on_ring_returns|].
  split; [exact blob_child_of_hole|]. split; [reflexivity|].
  exact (outer_parent_is_hole 100 on_ring on_ring_result 3 ring_blob (Node 2)
           ring_hole on_ring_size on_ring_returns blob_child_of_hole eq_refl).
Defined.

(** C7.  In every tree returned by [extractContours] on a non-empty
    raster, the parent of every Hole contour is the root or an Outer
    contour, and it is never a contour of kind Hole: the parent is in fact
    always an Outer contour. *)
Theorem hole_parent_is_outer (fuel : nat) (c c' : caller)
    (x : nat) (cx : vpContour) (r : node_ref) (n : vpContour) :
  getSize (arg_I_original c) <> 0 ->
  extractContours fuel c = Ret c' ->
  child_of c' x cx r n ->
  m_contourType cx = CONTOUR_HOLE ->
  (r = RootNode \/ m_contourType n = CONTOUR_OUTER) /\
  m_contourType n <> CONTOUR_HOLE.
Proof.
  intros Hsz Hex Hedge Hk.
  destruct (extractContours_shape fuel c c' Hsz Hex) as (_ & _ & Halt).
  destruct (Halt x cx r n Hedge) as [[Hc _]|[_ Hn]]; [congruence|].
  rewrite Hn. split; [by right|discriminate].
Qed.

Lemma hole_parent_is_outer_witness :
  getSize (arg_I_original on_ring) <> 0 /\
  extractContours 100 on_ring = Ret on_ring_result /\
  child_of on_ring_result 2 ring_hole (Node 1) ring_outer /\
  m_contourType ring_hole = CONTOUR_HOLE /\
  (Node 1 = RootNode \/ m_contourType ring_outer = CONTOUR_OUTER) /\
  m_contourType ring_outer <> CONTOUR_HOLE.
Proof.
  split; [exact on_ring_size|]. split; [exact on_ring_returns|].
  split; [exact hole_child_of_outer|]. split; [reflexivity|].
  exact (hole_parent_is_outer 100 on_ring on_ring_result 2 ring_hole (Node 1)
           ring_outer on_ring_size on_ring_returns hole_child_of_outer eq_refl).
Defined.

(** *** The neighbour probe *)

(** C10.  [vpDirection::active] yields either the invalid point
    [(-1, -1)] or the coordinates of the probed neighbour, and these then
    lie in the raster and designate a sample whose value modulo 256 (its
    narrowing to [unsigned char]) is not zero.  A sample of value 256 is
    thus taken for background. *)
Theorem active_in_bounds (d : vpDirectionType) (I : vpImage)
    (point : vpImagePoint) :
  (active d I point = no_point \/
   (active d I point =
      (u32 (point.1 + at_index diry (dir_index d)),
       u32 (point.2 + at_index dirx (dir_index d))) /\
    0 <= (active d I point).1 < getHeight I /\
    0 <= (active d I point).2 < getWidth I /\
    get I (active d I point).1 (active d I point).2 mod 256 <> 0)) /\
  get (image_of [[1; 256]]) 0 1 <> 0 /\
  active EAST (image_of [[1; 256]]) (0, 0) = no_point.
Proof.
  split; [|split; [vm_compute; discriminate|vm_compute; reflexivity] ].
  unfold active.
  set (yy := u32 (point.1 + at_index diry (dir_index d))).
  set (xx := u32 (point.2 + at_index dirx (dir_index d))).
  assert (Hy : 0 <= yy) by (unfold yy, u32; apply Z.mod_pos_bound; lia).
  assert (Hx : 0 <= xx) by (unfold xx, u32; apply Z.mod_pos_bound; lia).
  destruct ((xx <? 0) || (getWidth I <=? xx) || (yy <? 0) || (getHeight I <=? yy))
    eqn:Hout; [by left|].
  apply orb_false_elim in Hout as [Hout Hh].
  apply orb_false_elim in Hout as [Hout _].
  apply orb_false_elim in Hout as [_ Hw].
  apply Z.leb_gt in Hh, Hw.
  destruct (u8 (get I yy xx) =? 0) eqn:Hpix; simpl; [by left|].
  apply Z.eqb_neq in Hpix. right. simpl. unfold u8 in Hpix.
  split_and!; [done|lia|lia|lia|lia|].
  replace 256 with (2 ^ 8) by reflexivity. exact Hpix.
Qed.

(** *** Border starts *)

(** C8, as stated, fails: the single pixel of the raster [[1]] satisfies
    the Outer-start and the Hole-start conditions at the same time. *)
Lemma isolated_pixel_is_both_starts :
  isOuterBorderStart (image_of [[1]]) 0 0 = true /\
  isHoleBorderStart (image_of [[1]]) 0 0 = true.
Proof. split; vm_compute; reflexivity. Qed.

(** Every operation on the heap keeps the kind of the contours. *)
Definition kinds_kept (h h' : gmap nat vpContour) : Prop :=
  forall p c', h' !! p = Some c' ->
    exists c, h !! p = Some c /\ m_contourType c' = m_contourType c.

Lemma kinds_kept_refl h : kinds_kept h h.
Proof. intros p c Hp. eauto. Qed.

Lemma kinds_kept_trans h1 h2 h3 :
  kinds_kept h1 h2 -> kinds_kept h2 h3 -> kinds_kept h1 h3.
Proof.
  intros H12 H23 p c3 Hp. destruct (H23 p c3 Hp) as (c2 & Hc2 & Hk2).
  destruct (H12 p c2 Hc2) as (c1 & Hc1 & Hk1). exists c1. split; [done|congruence].
Qed.

Lemma kinds_kept_insert h p c f :
  h !! p = Some c -> m_contourType (f c) = m_contourType c ->
  kinds_kept h (<[p := f c]> h).
Proof.
  intros Hp Hk p' c' Hp'.
  apply lookup_insert_Some in Hp' as [[<- <-]|[_ Hp']]; eauto.
Qed.

Lemma kinds_kept_setParent h b parent h' :
  setParent h b parent = Ret h' -> kinds_kept h h'.
Proof.
  unfold setParent. intros H.
  destruct (h !! b) as [c|] eqn:Hb; [|done].
  destruct parent as [p|]; [|done].
  destruct (<[b:=with_parent c (Some p)]> h !! p) as [pc|] eqn:Hpc; [|done].
  injection H as <-.
  eapply kinds_kept_trans.
  - by apply (kinds_kept_insert h b c (fun c => with_parent c (Some p))).
  - by apply (kinds_kept_insert _ p pc
                (fun pc => with_children pc (m_children pc ++ [b]))).
Qed.

Lemma kinds_kept_removeParent h b parent h' :
  removeParent h b parent = Ret h' -> kinds_kept h h'.
Proof.
  unfold removeParent. intros H.
  destruct (h !! b) as [c|] eqn:Hb; [|done].
  destruct parent as [p|].
  - destruct (<[b:=with_parent c None]> h !! p) as [pc|] eqn:Hpc; [|done].
    injection H as <-.
    eapply kinds_kept_trans.
    + by apply (kinds_kept_insert h b c (fun c => with_parent c None)).
    + by apply (kinds_kept_insert _ p pc
                  (fun pc => with_children pc
                     (filter (fun x => x <> b) (m_children pc)))).
  - done.
Qed.

Lemma kinds_kept_link (outer : bool)
    (f : gmap nat vpContour -> nat -> option nat -> result (gmap nat vpContour))
    h b bp h' :
  (forall h1 t h2, f h1 b t = Ret h2 -> kinds_kept h1 h2) ->
  (if outer then link_outer f h b bp else link_hole f h b bp) = Ret h' ->
  kinds_kept h h'.
Proof.
  intros Hf H. unfold link_outer, link_hole in H.
  destruct (h !! bp) as [c|]; [|by destruct outer].
  destruct outer, (m_contourType c);
    try (by eapply Hf); injection H as <-; apply kinds_kept_refl.
Qed.

Lemma kinds_kept_update_points h b pts h' :
  update h b (fun c => with_points c pts) = Ret h' -> kinds_kept h h'.
Proof.
  unfold update. intros H. destruct (h !! b) as [c|] eqn:Hb; [|done].
  injection H as <-.
  by apply (kinds_kept_insert h b c (fun c => with_points c pts)).
Qed.

Lemma kinds_kept_after_followBorder i j isOuter isHole border bp st r st' :
  after_followBorder i j isOuter isHole border bp st r = Ret st' ->
  kinds_kept (heap st) (heap st').
Proof.
  intros Hafter. unfold after_followBorder in Hafter.
  destruct r as [[[followed I1] pts]| | |]; try done. simpl in Hafter.
  destruct followed.
  - destruct (match pts with
              | [] => (set I1 i j (- nbd st), [(i, j)])
              | _ :: _ => (I1, pts)
              end) as [I2 pts2].
    apply bind_Ret in Hafter as (h3 & Hup & Hret). injection Hret as <-. simpl.
    by eapply kinds_kept_update_points.
  - apply bind_Ret in Hafter as (h3 & Hup & Hafter).
    apply bind_Ret in Hafter as (h4 & Hrm1 & Hafter).
    apply bind_Ret in Hafter as (h5 & Hrm2 & Hret).
    injection Hret as <-. simpl.
    eapply kinds_kept_trans; [by eapply kinds_kept_update_points|].
    eapply (kinds_kept_trans _ h4).
    { destruct isOuter.
      - eapply (kinds_kept_link true); [|done].
        intros. by eapply kinds_kept_removeParent.
      - injection Hrm1 as <-. apply kinds_kept_refl. }
    eapply (kinds_kept_trans _ h5).
    { destruct isHole.
      - eapply (kinds_kept_link false); [|done].
        intros. by eapply kinds_kept_removeParent.
      - injection Hrm2 as <-. apply kinds_kept_refl. }
    intros p c Hp. apply lookup_delete_Some in Hp as [_ Hp]. eauto.
Qed.

(** The contour created at a border start is an Outer contour as soon as
    the Outer condition holds, and a Hole contour otherwise. *)
Lemma start_border_kind fuel i j fji isOuter isHole st st' c :
  start_border fuel i j fji isOuter isHole st = Ret st' ->
  heap st' !! next st = Some c ->
  m_contourType c = if isOuter then CONTOUR_OUTER else CONTOUR_HOLE.
Proof.
  intros Hstart Hc. unfold start_border in Hstart.
  set (border := next st) in *.
  assert (Hup : forall K, update (<[border := new_contour]> (heap st)) border
                  (fun c => with_type c K)
                = Ret (<[border := with_type new_contour K]> (heap st))).
  { intros K. unfold update. rewrite lookup_insert_eq.
    by rewrite insert_insert_eq. }
  assert (Hkept : forall K h1,
            kinds_kept (<[border := with_type new_contour K]> (heap st)) h1 ->
            h1 !! border = Some c -> m_contourType c = K).
  { intros K h1 Hk Hb. destruct (Hk border c Hb) as (c0 & Hc0 & Hkc).
    rewrite lookup_insert_eq in Hc0. injection Hc0 as <-. done. }
  destruct isOuter.
  - rewrite Hup in Hstart. simpl in Hstart.
    destruct (borderMap st !! lnbd st) as [bp|].
    + apply bind_Ret in Hstart as (h2 & Hlink & Hafter).
      apply kinds_kept_after_followBorder in Hafter. simpl in Hafter.
      eapply (Hkept CONTOUR_OUTER); [|exact Hc].
      eapply kinds_kept_trans; [|exact Hafter].
      eapply (kinds_kept_link true); [|done].
      intros. by eapply kinds_kept_setParent.
    + injection Hstart as <-. simpl in Hc.
      eapply (Hkept CONTOUR_OUTER); [apply kinds_kept_refl|done].
  - destruct (borderMap st !! (if 1 <? fji then fji else lnbd st)) as [bp|].
    + rewrite Hup in Hstart. simpl in Hstart.
      apply bind_Ret in Hstart as (h2 & Hlink & Hafter).
      apply kinds_kept_after_followBorder in Hafter. simpl in Hafter.
      eapply (Hkept CONTOUR_HOLE); [|exact Hc].
      eapply kinds_kept_trans; [|exact Hafter].
      eapply (kinds_kept_link false); [|done].
      intros. by eapply kinds_kept_setParent.
    + injection Hstart as <-. simpl in Hc.
      rewrite lookup_insert_eq in Hc. injection Hc as <-. done.
Qed.

Definition column_of_two : vpImage := image_of [[1]; [1]].

Definition column_start_result : scan :=
  Eval vm_compute in
    match start_border 100 0 0 1 true true (initial_scan column_of_two) with
    | Ret st => st
    | _ => initial_scan column_of_two
    end.

Definition column_contour : vpContour :=
  Eval vm_compute in default new_contour (heap column_start_result !! 1%nat).

(** C8, amended.  The two start conditions hold together exactly at the
    pixels of value 1 whose west neighbour is background (or which lie in
    column 0) and whose east neighbour is background (or which lie in the
    last column).  [extractContours] tests the Outer condition first: the
    contour it creates at a border start is an Outer contour whenever the
    Outer condition holds, whether or not the Hole condition holds too, and
    a Hole contour otherwise. *)
Theorem border_start_classification (fuel : nat) (i j : Z) (st st' : scan)
    (c : vpContour) :
  start_border fuel i j (get (I st) i j)
    (isOuterBorderStart (I st) i j) (isHoleBorderStart (I st) i j) st = Ret st' ->
  heap st' !! next st = Some c ->
  isOuterBorderStart (I st) i j && isHoleBorderStart (I st) i j
  = (get (I st) i j =? 1)
    && ((j =? 0) || (get (I st) i (j - 1) =? 0))
    && ((j =? getWidth (I st) - 1) || (get (I st) i (j + 1) =? 0)) /\
  m_contourType c
  = (if isOuterBorderStart (I st) i j then CONTOUR_OUTER else CONTOUR_HOLE).
Proof.
  intros Hstart Hc. split.
  - unfold isOuterBorderStart, isHoleBorderStart.
    destruct (get (I st) i j =? 1) eqn:H1; simpl; [|done].
    apply Z.eqb_eq in H1. rewrite H1. simpl. done.
  - by eapply start_border_kind.
Qed.

Lemma border_start_classification_witness :
  start_border 100 0 0 (get (I (initial_scan column_of_two)) 0 0)
    (isOuterBorderStart (I (initial_scan column_of_two)) 0 0)
    (isHoleBorderStart (I (initial_scan column_of_two)) 0 0)
    (initial_scan column_of_two) = Ret column_start_result /\
  heap column_start_result !! next (initial_scan column_of_two)
  = Some column_contour /\
  isHoleBorderStart (I (initial_scan column_of_two)) 0 0 = true /\
  isOuterBorderStart (I (initial_scan column_of_two)) 0 0
  && isHoleBorderStart (I (initial_scan column_of_two)) 0 0
  = (get (I (initial_scan column_of_two)) 0 0 =? 1)
    && ((0 =? 0) || (get (I (initial_scan column_of_two)) 0 (0 - 1) =? 0))
    && ((0 =? getWidth (I (initial_scan column_of_two)) - 1)
        || (get (I (initial_scan column_of_two)) 0 (0 + 1) =? 0)) /\
  m_contourType column_contour
  = (if isOuterBorderStart (I (initial_scan column_of_two)) 0 0
     then CONTOUR_OUTER else CONTOUR_HOLE).
Proof.
  assert (H1 : start_border 100 0 0 (get (I (initial_scan column_of_two)) 0 0)
            (isOuterBorderStart (I (initial_scan column_of_two)) 0 0)
            (isHoleBorderStart (I (initial_scan column_of_two)) 0 0)
            (initial_scan column_of_two) = Ret column_start_result)
    by (vm_compute; reflexivity).
  assert (H2 : heap column_start_result !! next (initial_scan column_of_two)
               = Some column_contour)
    by (vm_compute; reflexivity).
  split; [exact H1|]. split; [exact H2|]. split; [vm_compute; reflexivity|].
  exact (border_start_classification 100 0 0 (initial_scan column_of_two)
           column_start_result column_contour H1 H2).
Defined.

(** *** The two bounded loops of [followBorder] stay within their bound *)

Lemma first_active_bound I ij dir :
  dir <> LAST_DIRECTION ->
  first_active 8 I ij dir (clockwise dir) <> Timeout.
Proof.
  intros Hd. destruct dir; try done;
    cbn -[active is_valid];
    repeat (match goal with
            | |- context [is_valid ?x] => destruct (is_valid x)
            end; cbn -[active is_valid]; try done).
Qed.

Lemma probe_bound I p trace :
  trace <> LAST_DIRECTION ->
  probe 8 I p trace (replicate 8 false) <> Timeout.
Proof.
  intros Hd. destruct trace; try done;
    cbn -[active is_valid];
    repeat (match goal with
            | |- context [is_valid ?x] => destruct (is_valid x)
            end; cbn -[active is_valid]; try done).
Qed.

(** *** The exception of the direction lookup *)

(** [r] is not an exception. *)
Definition no_throw {A : Type} (r : result A) : Prop := forall e, r <> Throw e.

Lemma no_throw_bind {A B : Type} (r : result A) (k : A -> result B) :
  no_throw r -> (forall a, r = Ret a -> no_throw (k a)) -> no_throw (bind r k).
Proof.
  intros Hr Hk e. destruct r as [a|e'| |]; simpl; try done.
  - by apply Hk.
  - by destruct (Hr e').
Qed.

Lemma for_each_no_throw {St : Type} (n : Z) (body : Z -> St -> result St)
    (s : St) :
  (forall k s1, no_throw (body k s1)) -> no_throw (for_each n body s).
Proof.
  intros Hbody. unfold for_each.
  assert (Hgen : forall l r, no_throw r ->
            no_throw (foldl (fun acc k => bind acc (body k)) r l)).
  { induction l as [|k l IH]; intros r Hr; simpl; [done|].
    apply IH. apply no_throw_bind; [done|]. intros a _. apply Hbody. }
  apply Hgen. intros e. done.
Qed.

Lemma clockwise_real d : clockwise d <> LAST_DIRECTION.
Proof. destruct d; vm_compute; discriminate. Qed.

Lemma counterClockwise_real d : counterClockwise d <> LAST_DIRECTION.
Proof. destruct d; vm_compute; discriminate. Qed.

Lemma fromTo_real a b d : fromTo a b = Some d -> d <> LAST_DIRECTION.
Proof.
  unfold fromTo. intros H.
  repeat match type of H with
         | context [if ?x then _ else _] => destruct x
         end; try done; injection H as <-; discriminate.
Qed.

Lemma fromTo_None a b : fromTo a b = None -> a = b.
Proof.
  unfold fromTo. intros H. destruct (decide (a = b)); [done|].
  repeat match type of H with
         | context [if ?x then _ else _] => destruct x
         end; done.
Qed.

Lemma u32_fixed (i d : Z) : -1 <= d <= 1 -> u32 (i + d) = i -> d = 0.
Proof.
  unfold u32. intros Hd Heq.
  pose proof (Z.div_mod (i + d) (2 ^ 32) ltac:(lia)) as Hdiv.
  rewrite Heq in Hdiv.
  assert (2 ^ 32 = 4294967296) as Hpow by reflexivity.
  rewrite Hpow in Hdiv. lia.
Qed.

Lemma offsets_range d :
  -1 <= at_index diry (dir_index d) <= 1 /\
  -1 <= at_index dirx (dir_index d) <= 1.
Proof. destruct d; vm_compute; intuition discriminate. Qed.

Lemma offsets_nonzero d :
  d <> LAST_DIRECTION ->
  at_index diry (dir_index d) <> 0 \/ at_index dirx (dir_index d) <> 0.
Proof. destruct d; intros Hd; try done; vm_compute; intuition discriminate. Qed.

(** A valid result of [active] is a neighbour, never the point itself. *)
Lemma active_other d I p :
  d <> LAST_DIRECTION -> is_valid (active d I p) = true -> active d I p <> p.
Proof.
  intros Hd Hv Heq. unfold active in *.
  destruct (offsets_range d) as [Hry Hrx].
  destruct (offsets_nonzero d Hd) as [Hnz|Hnz].
  - destruct ((u32 (p.2 + at_index dirx (dir_index d)) <? 0)
              || (getWidth I <=? u32 (p.2 + at_index dirx (dir_index d)))
              || (u32 (p.1 + at_index diry (dir_index d)) <? 0)
              || (getHeight I <=? u32 (p.1 + at_index diry (dir_index d))));
      [done|].
    destruct (negb (u8 (get I (u32 (p.1 + at_index diry (dir_index d)))
                          (u32 (p.2 + at_index dirx (dir_index d)))) =? 0));
      [|done].
    destruct p as [i j]. simpl in Heq. injection Heq as Hi Hj.
    apply u32_fixed in Hi; done.
  - destruct ((u32 (p.2 + at_index dirx (dir_index d)) <? 0)
              || (getWidth I <=? u32 (p.2 + at_index dirx (dir_index d)))
              || (u32 (p.1 + at_index diry (dir_index d)) <? 0)
              || (getHeight I <=? u32 (p.1 + at_index diry (dir_index d))));
      [done|].
    destruct (negb (u8 (get I (u32 (p.1 + at_index diry (dir_index d)))
                          (u32 (p.2 + at_index dirx (dir_index d)))) =? 0));
      [|done].
    destruct p as [i j]. simpl in Heq. injection Heq as Hi Hj.
    apply u32_fixed in Hj; done.
Qed.

Lemma first_active_other n I ij dir trace q :
  first_active n I ij dir trace = Ret q -> trace <> LAST_DIRECTION ->
  q = no_point \/ q <> ij.
Proof.
  revert trace. induction n as [|n IH]; intros trace H Hreal; simpl in H; [done|].
  destruct (decide (trace = dir)); [injection H as <-; by left|].
  destruct (is_valid (active trace I ij)) eqn:Hv.
  - injection H as <-. right. by apply active_other.
  - eapply IH; [done|]. apply clockwise_real.
Qed.

Lemma probe_other n I p trace checked q checked' :
  probe n I p trace checked = Ret (false, q, checked') ->
  trace <> LAST_DIRECTION -> q <> p.
Proof.
  revert trace checked. induction n as [|n IH]; intros trace checked H Hreal;
    simpl in H; [done|].
  destruct (is_valid (active trace I p)) eqn:Hv.
  - injection H as <- _. by apply active_other.
  - destruct (forallb id (<[Z.to_nat (dir_index trace):=true]> checked)); [done|].
    eapply IH; [done|]. apply counterClockwise_real.
Qed.

Lemma probe_no_throw n I p trace checked : no_throw (probe n I p trace checked).
Proof.
  revert trace checked. induction n as [|n IH]; intros trace checked e; simpl;
    [done|].
  destruct (is_valid (active trace I p)); [done|].
  destruct (forallb id (<[Z.to_nat (dir_index trace):=true]> checked)); [done|].
  apply IH.
Qed.

Lemma first_active_no_throw n I ij dir trace :
  no_throw (first_active n I ij dir trace).
Proof.
  revert trace. induction n as [|n IH]; intros trace e; simpl; [done|].
  destruct (decide (trace = dir)); [done|].
  destruct (is_valid (active trace I ij)); [done|]. apply IH.
Qed.

(** The walk never meets two identical points. *)
Lemma walk_no_throw fuel :
  forall I ij i1j1 i2j2 i3j3 pts nbd,
    i3j3 <> i2j2 -> no_throw (walk fuel I ij i1j1 i2j2 i3j3 pts nbd).
Proof.
  induction fuel as [|fuel IH]; intros I ij i1j1 i2j2 i3j3 pts nbd Hne;
    cbn [walk]; [by intros e|].
  destruct (fromTo i3j3 i2j2) as [dir|] eqn:Hdir.
  2:{ by apply fromTo_None in Hdir. }
  apply no_throw_bind; [apply probe_no_throw|].
  intros [[problem i4j4] checked] Hprobe.
  destruct problem; [done|].
  destruct (addContourPoint I pts i3j3 checked nbd) as [I' pts'].
  destruct (bool_decide (i4j4 = ij) && bool_decide (i3j3 = i1j1)); [done|].
  apply IH. eapply probe_other; [exact Hprobe|]. apply counterClockwise_real.
Qed.

Lemma followBorder_no_throw fuel I ij i2j2 pts nbd :
  ij <> i2j2 -> no_throw (followBorder fuel I ij i2j2 pts nbd).
Proof.
  intros Hne. unfold followBorder.
  destruct (fromTo ij i2j2) as [dir|] eqn:Hdir.
  2:{ by apply fromTo_None in Hdir. }
  apply no_throw_bind; [apply first_active_no_throw|].
  intros i1j1 Hfirst.
  destruct ((i1j1.1 <? 0) || (i1j1.2 <? 0)) eqn:Hneg; [done|].
  apply walk_no_throw.
  apply first_active_other in Hfirst as [->|Hq]; [done| |apply clockwise_real].
  congruence.
Qed.

Lemma link_removeParent_no_throw (outer : bool) h b bp :
  no_throw (if outer then link_outer removeParent h b bp
            else link_hole removeParent h b bp).
Proof.
  intros e. unfold link_outer, link_hole, removeParent.
  destruct outer; destruct (h !! bp) as [c|]; try done;
    destruct (m_contourType c); try done;
    destruct (h !! b); try done;
    repeat match goal with
           | |- context [match ?x with _ => _ end] => destruct x
           end; done.
Qed.

Lemma link_setParent_no_throw (outer : bool) h b bp :
  no_throw (if outer then link_outer setParent h b bp
            else link_hole setParent h b bp).
Proof.
  intros e. unfold link_outer, link_hole, setParent.
  destruct outer; destruct (h !! bp) as [c|]; try done;
    destruct (m_contourType c); try done;
    destruct (h !! b); try done;
    repeat match goal with
           | |- context [match ?x with _ => _ end] => destruct x
           end; done.
Qed.

Lemma update_no_throw h b f : no_throw (update h b f).
Proof. intros e. unfold update. by destruct (h !! b). Qed.

Lemma after_followBorder_no_throw i j isOuter isHole border bp st r :
  no_throw r -> no_throw (after_followBorder i j isOuter isHole border bp st r).
Proof.
  intros Hr. unfold after_followBorder.
  apply no_throw_bind; [done|]. intros [[followed I1] pts] _.
  destruct followed.
  - destruct (match pts with
              | [] => (set I1 i j (- nbd st), [(i, j)])
              | _ :: _ => (I1, pts)
              end) as [I2 pts2].
    apply no_throw_bind; [apply update_no_throw|]. intros h _ e. done.
  - apply no_throw_bind; [apply update_no_throw|]. intros h3 _.
    apply no_throw_bind.
    { destruct isOuter; [apply (link_removeParent_no_throw true)|by intros e]. }
    intros h4 _. apply no_throw_bind.
    { destruct isHole; [apply (link_removeParent_no_throw false)|by intros e]. }
    intros h5 _ e. done.
Qed.

Lemma start_border_no_throw fuel i j fji isOuter isHole st :
  no_throw (start_border fuel i j fji isOuter isHole st).
Proof.
  unfold start_border. destruct isOuter.
  - apply no_throw_bind; [apply update_no_throw|]. intros h _.
    destruct (borderMap st !! lnbd st) as [bp|]; [|by intros e].
    apply no_throw_bind; [apply (link_setParent_no_throw true)|]. intros h2 _.
    apply after_followBorder_no_throw, followBorder_no_throw.
    intros [=]. lia.
  - destruct (borderMap st !! (if 1 <? fji then fji else lnbd st)) as [bp|];
      [|by intros e].
    apply no_throw_bind; [apply update_no_throw|]. intros h _.
    apply no_throw_bind; [apply (link_setParent_no_throw false)|]. intros h2 _.
    apply after_followBorder_no_throw, followBorder_no_throw.
    intros [=]. lia.
Qed.

Lemma scan_pixel_no_throw fuel i j st : no_throw (scan_pixel fuel i j st).
Proof.
  unfold scan_pixel. apply no_throw_bind.
  - destruct (isOuterBorderStart (I st) i j || isHoleBorderStart (I st) i j);
      [apply start_border_no_throw|by intros e].
  - intros st1 _ e.
    by destruct (negb (get (I st) i j =? 0) && negb (get (I st) i j =? 1)).
Qed.

(** No exception leaves [extractContours]: the direction lookup is never
    given two identical points. *)
Lemma extractContours_no_throw fuel c : no_throw (extractContours fuel c).
Proof.
  unfold extractContours.
  destruct (getSize (arg_I_original c) =? 0); [by intros e|].
  apply no_throw_bind.
  - apply for_each_no_throw. intros i st. unfold scan_row.
    apply for_each_no_throw. intros j st1. apply scan_pixel_no_throw.
  - intros st _ e. by destruct (heap st !! root).
Qed.

(** *** The compass *)

(** The neighbour of [p] in direction [d]. *)
Definition step (d : vpDirectionType) (p : vpImagePoint) : vpImagePoint :=
  (p.1 + at_index diry (dir_index d), p.2 + at_index dirx (dir_index d)).

(** The entries of the offset tables at a given direction, evaluated. *)
Ltac eval_offsets :=
  repeat match goal with
         | |- context [at_index ?t ?k] =>
             let v := eval vm_compute in (at_index t k) in
             change (at_index t k) with v
         end.

Ltac eval_offsets_in H :=
  repeat match type of H with
         | context [at_index ?t ?k] =>
             let v := eval vm_compute in (at_index t k) in
             change (at_index t k) with v in H
         end.

(** X7.  On the eight compass directions [clockwise] and
    [counterClockwise] are inverse of each other, eight turns come back to
    the direction they started from, and four turns lead to the direction
    of the opposite neighbour. *)
Theorem rotations_inverse (d : vpDirectionType) :
  d <> LAST_DIRECTION ->
  counterClockwise (clockwise d) = d /\
  clockwise (counterClockwise d) = d /\
  Nat.iter 8 clockwise d = d /\
  forall p, step (Nat.iter 4 clockwise d) (step d p) = p.
Proof.
  intros Hd. destruct d; try done; split_and!; try reflexivity;
    intros [i j]; unfold step; simpl; eval_offsets; f_equal; lia.
Qed.

Lemma rotations_inverse_witness :
  NORTH_WEST <> LAST_DIRECTION /\
  counterClockwise (clockwise NORTH_WEST) = NORTH_WEST /\
  clockwise (counterClockwise NORTH_WEST) = NORTH_WEST /\
  Nat.iter 8 clockwise NORTH_WEST = NORTH_WEST /\
  forall p, step (Nat.iter 4 clockwise NORTH_WEST) (step NORTH_WEST p) = p.
Proof.
  split; [discriminate|].
  exact (rotations_inverse NORTH_WEST ltac:(discriminate)).
Defined.

Lemma sgn_cases z :
  (z < 0 /\ Z.sgn z = -1) \/ (z = 0 /\ Z.sgn z = 0) \/ (0 < z /\ Z.sgn z = 1).
Proof. destruct z; simpl; lia. Qed.

Lemma pair_neq (a b c d : Z) : (a, b) <> (c, d) -> a <> c \/ b <> d.
Proof.
  intros Hne. destruct (decide (a = c)) as [->|]; [|by left].
  right. intros ->. done.
Qed.

(** X8.  [fromTo] fails exactly on two equal points; otherwise it returns
    the compass direction whose offsets are the signs of the differences of
    the coordinates.  In particular the direction from a point to its
    neighbour in direction [d] is [d]. *)
Theorem fromTo_direction (from to : vpImagePoint) (d : vpDirectionType) :
  (fromTo from to = None <-> from = to) /\
  (fromTo from to = Some d <->
   from <> to /\ d <> LAST_DIRECTION /\
   at_index diry (dir_index d) = Z.sgn (to.1 - from.1) /\
   at_index dirx (dir_index d) = Z.sgn (to.2 - from.2)) /\
  (d <> LAST_DIRECTION -> fromTo from (step d from) = Some d).
Proof.
  destruct from as [fi fj], to as [ti tj]. split_and!.
  - split; [apply fromTo_None|]. intros ->. unfold fromTo.
    by rewrite decide_True.
  - unfold fromTo. cbn [fst snd]. split.
    + intros H. case_decide as Hne; [done|]. split; [done|].
      apply pair_neq in Hne.
      destruct (sgn_cases (ti - fi)) as [[? ->]|[[? ->]|[? ->]]],
               (sgn_cases (tj - fj)) as [[? ->]|[[? ->]|[? ->]]];
        destruct (Z.eqb_spec fi ti), (Z.ltb_spec fi ti),
                 (Z.eqb_spec fj tj), (Z.ltb_spec fj tj);
        try lia; injection H as <-; (split; [discriminate|]);
        simpl; eval_offsets; lia.
    + intros (Hne & Hd & Hy & Hx). rewrite decide_False by done.
      apply pair_neq in Hne. revert Hy Hx.
      destruct (sgn_cases (ti - fi)) as [[? ->]|[[? ->]|[? ->]]],
               (sgn_cases (tj - fj)) as [[? ->]|[[? ->]|[? ->]]];
        destruct d; try done; simpl; eval_offsets; intros Hy Hx; try lia;
        destruct (Z.eqb_spec fi ti), (Z.ltb_spec fi ti),
                 (Z.eqb_spec fj tj), (Z.ltb_spec fj tj);
        first [reflexivity | lia].
  - intros Hd. unfold fromTo, step. cbn [fst snd].
    destruct d; try done; cbn [dir_index]; eval_offsets;
      (rewrite decide_False by (intros [= ? ?]; lia));
      repeat match goal with
             | |- context [?a =? ?b] => destruct (Z.eqb_spec a b)
             | |- context [?a <? ?b] => destruct (Z.ltb_spec a b)
             end; first [reflexivity | lia].
Qed.

(** *** What a border walk visits *)

(** The dimensions of an image are values of [unsigned int]. *)
Definition fits (I : vpImage) : Prop :=
  getHeight I < 2 ^ 32 /\ getWidth I < 2 ^ 32.

(** [q] is one of the eight neighbours of [p]. *)
Definition adjacent8 (p q : vpImagePoint) : Prop :=
  Z.max (Z.abs (q.1 - p.1)) (Z.abs (q.2 - p.2)) = 1.

(** Consecutive points of the list are neighbours. *)
Fixpoint chain (l : list vpImagePoint) : Prop :=
  match l with
  | p :: (q :: _) as t => adjacent8 p q /\ chain t
  | _ => True
  end.

(** [I'] has the shape of [I] and the same background. *)
Definition same_support (I I' : vpImage) : Prop :=
  wf_image I' /\ getHeight I' = getHeight I /\ getWidth I' = getWidth I /\
  forall a b, get I' a b = 0 <-> get I a b = 0.

Lemma same_support_refl I : wf_image I -> same_support I I.
Proof. intros Hwf. by split_and!. Qed.

Lemma same_support_trans I1 I2 I3 :
  same_support I1 I2 -> same_support I2 I3 -> same_support I1 I3.
Proof.
  intros (_ & Hh1 & Hw1 & Hz1) (Hwf & Hh2 & Hw2 & Hz2).
  split_and!; [done|congruence|congruence|].
  intros a b. by rewrite Hz2, Hz1.
Qed.

(** Overwriting a foreground sample with a nonzero value. *)
Lemma same_support_set I i j v :
  wf_image I -> get I i j <> 0 -> v <> 0 -> same_support I (set I i j v).
Proof.
  intros Hwf Hne Hv. split_and!.
  - by apply wf_set.
  - by rewrite getHeight_set.
  - by rewrite getWidth_set.
  - intros a b. destruct (decide ((i, j) = (a, b))) as [[= <- <-]|Hd].
    + rewrite get_set_same; [tauto|done|by apply get_nonzero_inside].
    + by rewrite get_set_other.
Qed.

Lemma u32_small z : 0 <= z < 2 ^ 32 -> u32 z = z.
Proof. intros Hz. unfold u32. by apply Z.mod_small. Qed.

Lemma u32_minus_one : u32 (-1) = 2 ^ 32 - 1.
Proof. reflexivity. Qed.

Lemma is_valid_active d I p :
  is_valid (active d I p) = false -> active d I p = no_point.
Proof.
  unfold active.
  set (yy := u32 (p.1 + at_index diry (dir_index d))).
  set (xx := u32 (p.2 + at_index dirx (dir_index d))).
  assert (Hy : 0 <= yy) by (unfold yy, u32; apply Z.mod_pos_bound; lia).
  assert (Hx : 0 <= xx) by (unfold xx, u32; apply Z.mod_pos_bound; lia).
  destruct ((xx <? 0) || (getWidth I <=? xx) || (yy <? 0) || (getHeight I <=? yy));
    [done|].
  destruct (negb (u8 (get I yy xx) =? 0)); [|done].
  unfold is_valid. simpl. intros Hv. apply andb_false_iff in Hv as [Hv|Hv];
    apply Z.leb_gt in Hv; lia.
Qed.

(** A valid result of [active] at a pixel of the image is the neighbour in
    the probed direction, and a foreground pixel of the image. *)
Lemma active_step d I p :
  fits I -> inside I p.1 p.2 -> d <> LAST_DIRECTION ->
  is_valid (active d I p) = true ->
  active d I p = step d p /\ adjacent8 p (step d p) /\
  inside I (step d p).1 (step d p).2 /\ get I (step d p).1 (step d p).2 <> 0.
Proof.
  intros [Hfh Hfw] [Hi Hj] Hd. unfold active, step.
  destruct (offsets_range d) as [Hry Hrx].
  pose proof (offsets_nonzero d Hd) as Hnz.
  set (dy := at_index diry (dir_index d)) in *.
  set (dx := at_index dirx (dir_index d)) in *.
  assert (Hpow : 2 ^ 32 = 4294967296) by reflexivity.
  assert (Hy : p.1 + dy = -1 \/ (0 <= p.1 + dy /\ u32 (p.1 + dy) = p.1 + dy)).
  { destruct (decide (p.1 + dy = -1)); [by left|right].
    split; [lia|]. apply u32_small. lia. }
  assert (Hx : p.2 + dx = -1 \/ (0 <= p.2 + dx /\ u32 (p.2 + dx) = p.2 + dx)).
  { destruct (decide (p.2 + dx = -1)); [by left|right].
    split; [lia|]. apply u32_small. lia. }
  destruct ((u32 (p.2 + dx) <? 0) || (getWidth I <=? u32 (p.2 + dx))
            || (u32 (p.1 + dy) <? 0) || (getHeight I <=? u32 (p.1 + dy)))
    eqn:Hout; [done|].
  apply orb_false_elim in Hout as [Hout Hh].
  apply orb_false_elim in Hout as [Hout _].
  apply orb_false_elim in Hout as [_ Hw].
  apply Z.leb_gt in Hh, Hw.
  destruct Hy as [Hy|[Hy0 Hy]]; [rewrite Hy, u32_minus_one in Hh; lia|].
  destruct Hx as [Hx|[Hx0 Hx]]; [rewrite Hx, u32_minus_one in Hw; lia|].
  rewrite Hy, Hx in *.
  destruct (u8 (get I (p.1 + dy) (p.2 + dx)) =? 0) eqn:Hpix; simpl; [done|].
  intros _. apply Z.eqb_neq in Hpix. simpl. split_and!.
  - done.
  - unfold adjacent8. simpl. lia.
  - unfold inside. simpl. lia.
  - intros Hz. rewrite Hz in Hpix. done.
Qed.

Lemma first_active_found n I ij dir trace q :
  first_active n I ij dir trace = Ret q -> trace <> LAST_DIRECTION ->
  q = no_point \/
  exists d, d <> LAST_DIRECTION /\ q = active d I ij /\ is_valid q = true.
Proof.
  revert trace. induction n as [|n IH]; intros trace H Hreal; simpl in H; [done|].
  destruct (decide (trace = dir)); [injection H as <-; by left|].
  destruct (is_valid (active trace I ij)) eqn:Hv.
  - injection H as <-. right. by exists trace.
  - eapply IH; [done|]. apply clockwise_real.
Qed.

Lemma probe_found n I p trace checked q checked' :
  probe n I p trace checked = Ret (false, q, checked') ->
  trace <> LAST_DIRECTION ->
  exists d, d <> LAST_DIRECTION /\ q = active d I p /\ is_valid q = true.
Proof.
  revert trace checked. induction n as [|n IH]; intros trace checked H Hreal;
    simpl in H; [done|].
  destruct (is_valid (active trace I p)) eqn:Hv.
  - injection H as <- _. by exists trace.
  - destruct (forallb id _); [done|].
    eapply IH; [done|]. apply counterClockwise_real.
Qed.

Lemma addContourPoint_support I pts p checked nbd I' pts' :
  wf_image I -> nbd <> 0 ->
  addContourPoint I pts p checked nbd = (I', pts') ->
  same_support I I' /\ pts' = pts ++ [p].
Proof.
  intros Hwf Hnbd. unfold addContourPoint.
  destruct (crossesEastBorder I checked p) eqn:Hc.
  - intros [= <- <-]. split; [|done].
    apply same_support_set; [done| |lia].
    unfold crossesEastBorder in Hc. destruct (fromTo _ _); [|done].
    apply andb_true_iff in Hc as [Hc _].
    by apply negb_true_iff, Z.eqb_neq in Hc.
  - destruct (get I (u32 p.1) (u32 p.2) =? 1) eqn:H1.
    + intros [= <- <-]. split; [|done]. apply Z.eqb_eq in H1.
      apply same_support_set; [done|lia|done].
    + intros [= <- <-]. split; [|done]. by apply same_support_refl.
Qed.

(** The points of [pts] are foreground pixels of [I]. *)
Definition on_foreground (I : vpImage) (pts : list vpImagePoint) : Prop :=
  Forall (fun p : vpImagePoint => inside I p.1 p.2 /\ get I p.1 p.2 <> 0) pts.

Lemma on_foreground_support I I' pts :
  same_support I I' -> on_foreground I' pts -> on_foreground I pts.
Proof.
  intros (_ & Hh & Hw & Hz) Hall. eapply Forall_impl; [exact Hall|].
  intros p [Hin Hne]. split.
  - unfold inside in *. by rewrite <- Hh, <- Hw.
  - by rewrite <- Hz.
Qed.

Lemma adjacent8_neq p q : adjacent8 p q -> p <> q.
Proof. unfold adjacent8. intros Ha ->. lia. Qed.

(** The [while (true)] loop of [followBorder] from [i3j3]: the points it
    appends. *)
Lemma walk_trace fuel :
  forall I ij i1j1 i2j2 i3j3 pts nbd b I' pts',
    wf_image I -> fits I -> nbd <> 0 ->
    inside I i3j3.1 i3j3.2 -> get I i3j3.1 i3j3.2 <> 0 ->
    walk fuel I ij i1j1 i2j2 i3j3 pts nbd = Ret (b, I', pts') ->
    same_support I I' /\
    exists new,
      pts' = pts ++ new /\ on_foreground I new /\ chain new /\
      (new = [] \/ head new = Some i3j3) /\
      (b = true ->
       last new = Some i1j1 /\ (i3j3 = ij -> (2 <= length new)%nat)).
Proof.
  induction fuel as [|fuel IH];
    intros I ij i1j1 i2j2 i3j3 pts nbd b I' pts' Hwf Hfits Hnbd Hin Hfg H;
    [done|].
  cbn [walk] in H.
  destruct (fromTo i3j3 i2j2) as [dir|]; [|done].
  apply bind_Ret in H as ([[problem i4j4] checked] & Hprobe & H).
  destruct problem.
  { injection H as <- <- <-. split; [by apply same_support_refl|].
    exists []. rewrite app_nil_r. split_and!; try done.
    - constructor.
    - by left. }
  apply probe_found in Hprobe as (d & Hd & Hq & Hv);
    [|apply counterClockwise_real].
  rewrite Hq in Hv.
  destruct (active_step d I i3j3 Hfits Hin Hd Hv) as (Hstep & Hadj & Hin4 & Hfg4).
  rewrite <- Hq in Hstep. rewrite <- Hstep in Hadj, Hin4, Hfg4.
  destruct (addContourPoint I pts i3j3 checked nbd) as [I1 pts1] eqn:Hadd.
  apply addContourPoint_support in Hadd as [Hsup1 ->]; [|done|done].
  cbv beta iota in H.
  match type of H with
  | (if ?c then _ else _) = _ => destruct c eqn:Hend
  end.
  - injection H as <- <- <-. split; [done|].
    apply andb_true_iff in Hend as [He1 He2].
    apply bool_decide_eq_true in He1, He2.
    exists [i3j3]. split_and!; try done.
    + constructor; [done|constructor].
    + by right.
    + intros _. split; [by rewrite He2|]. intros ->.
      apply adjacent8_neq in Hadj. congruence.
  - pose proof Hsup1 as (Hwf1 & Hh1 & Hw1 & Hz1).
    destruct (IH I1 ij i1j1 i3j3 i4j4 (pts ++ [i3j3]) nbd b I' pts')
      as (Hsup2 & new & -> & Hon & Hch & Hhead & Hlast); try done.
    + unfold fits in *. by rewrite Hh1, Hw1.
    + unfold inside in *. by rewrite Hh1, Hw1.
    + by rewrite Hz1.
    + split; [by eapply same_support_trans|].
      exists (i3j3 :: new). split_and!.
      * by rewrite <- app_assoc.
      * constructor; [done|]. by eapply on_foreground_support.
      * destruct new as [|q new]; [done|].
        destruct Hhead as [|[= ->]]; [done|]. done.
      * by right.
      * intros Hb. destruct (Hlast Hb) as [Hl _].
        destruct new as [|q new]; [done|]. split; [|simpl; lia].
        by rewrite last_cons_cons.
Qed.

(** [followBorder]: the image keeps its background, and the points added
    to the border are foreground pixels, each a neighbour of the next;
    when the border has been followed they start with [ij], are at least
    two, and the last one is a neighbour of [ij]. *)
Lemma followBorder_trace fuel I ij i2j2 pts nbd b I' pts' :
  wf_image I -> fits I -> nbd <> 0 ->
  inside I ij.1 ij.2 -> get I ij.1 ij.2 <> 0 ->
  followBorder fuel I ij i2j2 pts nbd = Ret (b, I', pts') ->
  same_support I I' /\
  exists new,
    pts' = pts ++ new /\ on_foreground I new /\ chain new /\
    (b = true ->
     head new = Some ij /\ (2 <= length new)%nat /\
     exists q, last new = Some q /\ adjacent8 q ij).
Proof.
  intros Hwf Hfits Hnbd Hin Hfg H. unfold followBorder in H.
  destruct (fromTo ij i2j2) as [dir|] eqn:Hdir; [|done].
  apply bind_Ret in H as (i1j1 & Hfirst & H).
  apply first_active_found in Hfirst; [|apply clockwise_real].
  destruct Hfirst as [->|(d & Hd & Hq & Hv)].
  { simpl in H. injection H as <- <- <-. split; [by apply same_support_refl|].
    exists []. rewrite app_nil_r. split_and!; try done. constructor. }
  rewrite Hq in Hv.
  destruct (active_step d I ij Hfits Hin Hd Hv) as (Hstep & Hadj & Hin1 & Hfg1).
  rewrite <- Hq in Hstep. rewrite <- Hstep in Hadj, Hin1, Hfg1.
  assert (Hpos : (i1j1.1 <? 0) || (i1j1.2 <? 0) = false).
  { unfold inside in Hin1. apply orb_false_intro; apply Z.ltb_ge; lia. }
  rewrite Hpos in H.
  destruct (walk_trace fuel I ij i1j1 i1j1 ij pts nbd b I' pts')
    as (Hsup & new & -> & Hon & Hch & Hhead & Hlast); try done.
  split; [done|]. exists new. split_and!; try done.
  intros Hb. destruct (Hlast Hb) as [Hl Hlen]. specialize (Hlen eq_refl).
  destruct Hhead as [->|Hhead]; [simpl in Hlen; lia|].
  split_and!; [done|done|]. exists i1j1. split; [done|].
  unfold adjacent8 in *. lia.
Qed.

(** *** The points of the contours *)

(** Every contour of the heap holds points that satisfy [P]. *)
Definition heap_all (P : list vpImagePoint -> Prop) (h : gmap nat vpContour)
  : Prop :=
  forall p c, h !! p = Some c -> P (m_points c).

Lemma heap_all_insert P h p c :
  heap_all P h -> P (m_points c) -> heap_all P (<[p := c]> h).
Proof.
  intros Hall Hc p' c' Hp'.
  apply lookup_insert_Some in Hp' as [[<- <-]|[_ Hp']]; [done|by eapply Hall].
Qed.

Lemma heap_all_delete P h p : heap_all P h -> heap_all P (delete p h).
Proof.
  intros Hall p' c' Hp'. apply lookup_delete_Some in Hp' as [_ Hp'].
  by eapply Hall.
Qed.

Lemma heap_all_setParent P h b parent h' :
  heap_all P h -> setParent h b parent = Ret h' -> heap_all P h'.
Proof.
  unfold setParent. intros Hall H.
  destruct (h !! b) as [c|] eqn:Hb; [|done].
  destruct parent as [p|]; [|done].
  destruct (<[b:=with_parent c (Some p)]> h !! p) as [pc|] eqn:Hpc; [|done].
  injection H as <-.
  assert (H1 : heap_all P (<[b:=with_parent c (Some p)]> h)).
  { apply heap_all_insert; [done|]. by apply (Hall b c). }
  apply heap_all_insert; [done|]. by apply (H1 p pc).
Qed.

Lemma heap_all_removeParent P h b parent h' :
  heap_all P h -> removeParent h b parent = Ret h' -> heap_all P h'.
Proof.
  unfold removeParent. intros Hall H.
  destruct (h !! b) as [c|] eqn:Hb; [|done].
  assert (H1 : heap_all P (<[b:=with_parent c None]> h)).
  { apply heap_all_insert; [done|]. by apply (Hall b c). }
  destruct parent as [p|].
  - destruct (<[b:=with_parent c None]> h !! p) as [pc|] eqn:Hpc; [|done].
    injection H as <-. apply heap_all_insert; [done|]. by apply (H1 p pc).
  - done.
Qed.

Lemma heap_all_link P (outer : bool)
    (f : gmap nat vpContour -> nat -> option nat -> result (gmap nat vpContour))
    h b bp h' :
  (forall h1 t h2, heap_all P h1 -> f h1 b t = Ret h2 -> heap_all P h2) ->
  heap_all P h ->
  (if outer then link_outer f h b bp else link_hole f h b bp) = Ret h' ->
  heap_all P h'.
Proof.
  intros Hf Hall H. unfold link_outer, link_hole in H.
  destruct (h !! bp) as [c|]; [|by destruct outer].
  destruct outer, (m_contourType c);
    try (by eapply Hf); by injection H as <-.
Qed.

Lemma heap_all_update P h b f h' :
  heap_all P h -> (forall c, h !! b = Some c -> P (m_points (f c))) ->
  update h b f = Ret h' -> heap_all P h'.
Proof.
  unfold update. intros Hall Hf H. destruct (h !! b) as [c|] eqn:Hb; [|done].
  injection H as <-. apply heap_all_insert; [done|]. by apply Hf.
Qed.

(** What follows the call of [followBorder], when the points of a followed
    border satisfy [P] and are not empty. *)
Lemma heap_all_after_followBorder P i j isOuter isHole border bp st
    followed I1 pts st' :
  P [] -> heap_all P (heap st) ->
  (followed = true -> P pts /\ pts <> []) ->
  after_followBorder i j isOuter isHole border bp st (Ret (followed, I1, pts))
  = Ret st' ->
  heap_all P (heap st') /\
  I st' = (if followed then I1 else set I1 i j (- nbd st)) /\
  nbd st' = nbd st.
Proof.
  intros Hnil Hall Hpts Hafter. unfold after_followBorder in Hafter.
  simpl in Hafter. destruct followed.
  - destruct (Hpts eq_refl) as [HP Hne].
    destruct pts as [|p0 pts]; [done|].
    apply bind_Ret in Hafter as (h3 & Hup & Hret). injection Hret as <-. simpl.
    split; [|done]. eapply heap_all_update; [exact Hall| |exact Hup].
    intros c _. done.
  - apply bind_Ret in Hafter as (h3 & Hup & Hafter).
    apply bind_Ret in Hafter as (h4 & Hrm1 & Hafter).
    apply bind_Ret in Hafter as (h5 & Hrm2 & Hret).
    injection Hret as <-. simpl. split; [|done].
    apply heap_all_delete.
    assert (H3 : heap_all P h3).
    { eapply heap_all_update; [exact Hall| |exact Hup]. intros c _. done. }
    assert (H4 : heap_all P h4).
    { destruct isOuter.
      - eapply (heap_all_link P true); [|exact H3|exact Hrm1].
        intros. by eapply heap_all_removeParent.
      - by injection Hrm1 as <-. }
    destruct isHole.
    + eapply (heap_all_link P false); [|exact H4|exact Hrm2].
      intros. by eapply heap_all_removeParent.
    + by injection Hrm2 as <-.
Qed.

(** The points of a border: foreground pixels of [I0], each a neighbour of
    the next, forming a closed chain of at least two points unless there
    is none. *)
Definition closed_border (I0 : vpImage) (pts : list vpImagePoint) : Prop :=
  on_foreground I0 pts /\ chain pts /\
  (pts = [] \/
   ((2 <= length pts)%nat /\
    exists p q, head pts = Some p /\ last pts = Some q /\ adjacent8 q p)).

Lemma closed_border_nil I0 : closed_border I0 [].
Proof. split_and!; [constructor|done|by left]. Qed.

(** The state of the raster scan over the input [I0]. *)
Definition trace_inv (I0 : vpImage) (st : scan) : Prop :=
  same_support I0 (I st) /\ 1 <= nbd st /\
  heap_all (closed_border I0) (heap st).

Lemma start_border_trace I0 fuel i j fji isOuter isHole st st' :
  fits I0 -> trace_inv I0 st -> get (I st) i j <> 0 ->
  start_border fuel i j fji isOuter isHole st = Ret st' ->
  trace_inv I0 st'.
Proof.
  intros Hfits (Hsup & Hnbd & Hall) Hfg Hstart. unfold start_border in Hstart.
  set (border := next st) in *.
  pose proof Hsup as (Hwf & Hh & Hw & Hz).
  assert (Hfits' : fits (I st)) by (unfold fits in *; by rewrite Hh, Hw).
  assert (Hin : inside (I st) i j) by (by apply get_nonzero_inside).
  assert (Hnew : forall K,
            heap_all (closed_border I0)
              (<[border := with_type new_contour K]> (heap st))).
  { intros K. apply heap_all_insert; [done|]. apply closed_border_nil. }
  assert (Hup : forall K, update (<[border := new_contour]> (heap st)) border
                  (fun c => with_type c K)
                = Ret (<[border := with_type new_contour K]> (heap st))).
  { intros K. unfold update. rewrite lookup_insert_eq.
    by rewrite insert_insert_eq. }
  assert (Htail : forall bp h2 lnbd1 from,
            heap_all (closed_border I0) h2 ->
            after_followBorder i j isOuter isHole border bp
              (mkScan (I st) (nbd st + 1) lnbd1 h2 (S border) (borderMap st))
              (followBorder fuel (I st) (i, j) from [] (nbd st + 1)) = Ret st' ->
            trace_inv I0 st').
  { intros bp h2 lnbd1 from Hall2 Hafter.
    destruct (followBorder fuel (I st) (i, j) from [] (nbd st + 1))
      as [[[followed I1] pts]| | |] eqn:Hfollow; try done.
    apply followBorder_trace in Hfollow
      as (Hsup1 & new & Hpts & Hon & Hch & Hclosed); try done; [|lia].
    simpl in Hpts. subst pts.
    apply (heap_all_after_followBorder (closed_border I0)) in Hafter
      as (Hall' & HI' & Hnbd'); [|apply closed_border_nil|done|].
    - simpl in HI', Hnbd'. split_and!; [|lia|done]. rewrite HI'.
      destruct followed; [by eapply same_support_trans|].
      eapply same_support_trans; [exact Hsup|].
      eapply same_support_trans; [exact Hsup1|].
      destruct Hsup1 as (Hwf1 & _ & _ & Hz1).
      apply same_support_set; [done| |lia]. by rewrite Hz1.
    - intros ->. destruct (Hclosed eq_refl) as (Hhead & Hlen & q & Hlast & Hadj).
      split; [|intros ->; simpl in Hlen; lia].
      split_and!; [by eapply on_foreground_support|done|].
      right. split; [done|]. by exists (i, j), q. }
  destruct isOuter.
  - rewrite Hup in Hstart. simpl in Hstart.
    destruct (borderMap st !! lnbd st) as [bp|] eqn:Hkey.
    + apply bind_Ret in Hstart as (h2 & Hlink & Hafter).
      eapply (Htail bp h2); [|exact Hafter].
      eapply (heap_all_link _ true); [|apply Hnew|exact Hlink].
      intros. by eapply heap_all_setParent.
    + injection Hstart as <-. split_and!; simpl; [done|lia|apply Hnew].
  - destruct (borderMap st !! (if 1 <? fji then fji else lnbd st))
      as [bp|] eqn:Hkey.
    + rewrite Hup in Hstart. simpl in Hstart.
      apply bind_Ret in Hstart as (h2 & Hlink & Hafter).
      eapply (Htail bp h2); [|exact Hafter].
      eapply (heap_all_link _ false); [|apply Hnew|exact Hlink].
      intros. by eapply heap_all_setParent.
    + injection Hstart as <-. split_and!; simpl; [done|lia|].
      apply heap_all_insert; [done|]. apply closed_border_nil.
Qed.

Lemma scan_pixel_trace I0 fuel i j st st' :
  fits I0 -> trace_inv I0 st -> scan_pixel fuel i j st = Ret st' ->
  trace_inv I0 st'.
Proof.
  intros Hfits Hinv Hpix. unfold scan_pixel in Hpix.
  apply bind_Ret in Hpix as (st1 & Hstart & Hl).
  assert (H1 : trace_inv I0 st1).
  { destruct (isOuterBorderStart (I st) i j || isHoleBorderStart (I st) i j)
      eqn:Hs.
    - eapply start_border_trace; [done|done| |exact Hstart].
      unfold isOuterBorderStart, isHoleBorderStart in Hs.
      apply orb_true_iff in Hs as [Hs|Hs]; apply andb_true_iff in Hs as [Hs _].
      + apply Z.eqb_eq in Hs. lia.
      + apply Z.leb_le in Hs. lia.
    - by injection Hstart as <-. }
  destruct (negb (get (I st) i j =? 0) && negb (get (I st) i j =? 1));
    injection Hl as <-; done.
Qed.

Lemma scan_row_trace I0 fuel i st st' :
  fits I0 -> trace_inv I0 st -> scan_row fuel i st = Ret st' ->
  trace_inv I0 st'.
Proof.
  intros Hfits Hinv Hrow. unfold scan_row in Hrow.
  eapply (for_each_Ret (trace_inv I0)); [| |exact Hrow].
  - intros k s1 s2. by apply scan_pixel_trace.
  - destruct Hinv as (? & ? & ?). by split_and!.
Qed.

Lemma image_eta (I0 : vpImage) :
  mkImage (getHeight I0) (getWidth I0) (rows I0) = I0.
Proof. by destruct I0. Qed.

(** The points of every contour that [extractContours] leaves behind. *)
Lemma extractContours_trace fuel c c' :
  wf_image (arg_I_original c) -> fits (arg_I_original c) ->
  getSize (arg_I_original c) <> 0 ->
  extractContours fuel c = Ret c' ->
  closed_border (arg_I_original c) (m_points (arg_contour c')) /\
  heap_all (closed_border (arg_I_original c)) (arg_heap c').
Proof.
  intros Hwf Hfits Hsz Hex. unfold extractContours in Hex.
  apply Z.eqb_neq in Hsz. rewrite Hsz in Hex. rewrite image_eta in Hex.
  apply bind_Ret in Hex as (st & Hscan & Hret).
  assert (Hinv : trace_inv (arg_I_original c) st).
  { eapply (for_each_Ret (trace_inv (arg_I_original c))); [| |exact Hscan].
    - intros k s1 s2. by apply scan_row_trace.
    - split_and!; simpl; [by apply same_support_refl|done|].
      intros p n Hp. apply lookup_singleton_Some in Hp as [_ <-].
      apply closed_border_nil. }
  destruct Hinv as (_ & _ & Hall).
  destruct (heap st !! root) as [r|] eqn:Hroot; [|done].
  injection Hret as <-. simpl. split.
  - by apply (Hall root r).
  - by apply heap_all_delete.
Qed.

(** X9.  Whenever [extractContours] returns on a well-formed, non-empty
    raster whose dimensions are values of [unsigned int], the points of
    every contour it leaves are foreground pixels of the input, each an
    8-neighbour of the next; a contour that has points has at least two,
    and its last point is an 8-neighbour of its first one. *)
Theorem contour_points_closed_chain (fuel : nat) (c c' : caller)
    (x : nat) (cx : vpContour) :
  wf_image (arg_I_original c) -> fits (arg_I_original c) ->
  getSize (arg_I_original c) <> 0 ->
  extractContours fuel c = Ret c' ->
  arg_heap c' !! x = Some cx ->
  on_foreground (arg_I_original c) (m_points cx) /\
  chain (m_points cx) /\
  (m_points cx = [] \/
   ((2 <= length (m_points cx))%nat /\
    exists p q, head (m_points cx) = Some p /\ last (m_points cx) = Some q /\
                adjacent8 q p)).
Proof.
  intros Hwf Hfits Hsz Hex Hx.
  destruct (extractContours_trace fuel c c' Hwf Hfits Hsz Hex) as [_ Hall].
  exact (Hall x cx Hx).
Qed.

Lemma ring_well_formed : wf_image (arg_I_original on_ring).
Proof. apply wf_imageb_spec. vm_compute. reflexivity. Qed.

Lemma ring_fits : fits (arg_I_original on_ring).
Proof. split; vm_compute; reflexivity. Qed.

Lemma contour_points_closed_chain_witness :
  wf_image (arg_I_original on_ring) /\ fits (arg_I_original on_ring) /\
  getSize (arg_I_original on_ring) <> 0 /\
  extractContours 100 on_ring = Ret on_ring_result /\
  arg_heap on_ring_result !! 3%nat = Some ring_blob /\
  on_foreground (arg_I_original on_ring) (m_points ring_blob) /\
  chain (m_points ring_blob) /\
  (m_points ring_blob = [] \/
   ((2 <= length (m_points ring_blob))%nat /\
    exists p q, head (m_points ring_blob) = Some p /\
                last (m_points ring_blob) = Some q /\ adjacent8 q p)).
Proof.
  assert (Hx : arg_heap on_ring_result !! 3%nat = Some ring_blob)
    by (vm_compute; reflexivity).
  split; [exact ring_well_formed|]. split; [exact ring_fits|].
  split; [exact on_ring_size|]. split; [exact on_ring_returns|].
  split; [exact Hx|].
  exact (contour_points_closed_chain 100 on_ring on_ring_result 3 ring_blob
           ring_well_formed ring_fits on_ring_size on_ring_returns Hx).
Defined.

(** *** Border starts without a neighbour *)

Lemma first_active_none I ij dir n :
  (forall d, d <> LAST_DIRECTION -> d <> dir -> active d I ij = no_point) ->
  forall trace, trace <> LAST_DIRECTION ->
    first_active n I ij dir trace = Timeout \/
    first_active n I ij dir trace = Ret no_point.
Proof.
  intros Hnone. induction n as [|n IH]; intros trace Hreal; simpl; [by left|].
  destruct (decide (trace = dir)) as [|Hne]; [by right|].
  rewrite (Hnone trace Hreal Hne). simpl. apply IH. apply clockwise_real.
Qed.

Lemma followBorder_no_neighbour fuel I ij i2j2 pts nbd :
  ij <> i2j2 ->
  (forall d, d <> LAST_DIRECTION -> fromTo ij i2j2 <> Some d ->
     active d I ij = no_point) ->
  followBorder fuel I ij i2j2 pts nbd = Ret (false, I, pts).
Proof.
  intros Hne Hnone. unfold followBorder.
  destruct (fromTo ij i2j2) as [dir|] eqn:Hdir.
  2:{ by apply fromTo_None in Hdir. }
  pose proof (fromTo_real _ _ _ Hdir) as Hreal.
  destruct (first_active_none I ij dir 8) with (trace := clockwise dir)
    as [Ht|Hr].
  - intros d Hd Hdd. apply Hnone; [done|]. congruence.
  - apply clockwise_real.
  - by apply first_active_bound in Ht.
  - rewrite Hr. reflexivity.
Qed.

(** X10.  When no pixel around [ij] is active, except possibly the one in
    the direction of [i2j2], [followBorder] returns [false] at once,
    whatever the bound on the walk, and leaves the image and the points of
    the border as they are. *)
Theorem followBorder_isolated_start (fuel : nat) (I : vpImage)
    (ij i2j2 : vpImagePoint) (pts : list vpImagePoint) (nbd : Z) :
  ij <> i2j2 ->
  (forall d, d <> LAST_DIRECTION -> fromTo ij i2j2 <> Some d ->
     active d I ij = no_point) ->
  followBorder fuel I ij i2j2 pts nbd = Ret (false, I, pts).
Proof. apply followBorder_no_neighbour. Qed.

Lemma followBorder_isolated_start_witness :
  ((0, 0) : vpImagePoint) <> (0, -1) /\
  (forall d, d <> LAST_DIRECTION -> fromTo (0, 0) (0, -1) <> Some d ->
     active d (image_of [[1]]) (0, 0) = no_point) /\
  followBorder 0 (image_of [[1]]) (0, 0) (0, -1) [] 2
  = Ret (false, image_of [[1]], []).
Proof.
  assert (Hne : ((0, 0) : vpImagePoint) <> (0, -1)) by discriminate.
  assert (Hnone : forall d, d <> LAST_DIRECTION ->
            fromTo (0, 0) (0, -1) <> Some d ->
            active d (image_of [[1]]) (0, 0) = no_point).
  { intros d Hd _. destruct d; try done; vm_compute; reflexivity. }
  split; [exact Hne|]. split; [exact Hnone|].
  exact (followBorder_isolated_start 0 (image_of [[1]]) (0, 0) (0, -1) [] 2
           Hne Hnone).
Defined.

(** *** The rollback at an isolated pixel *)


(** *** The contours of the tree have points *)

(** Apart from the contour at [b], the contours of [h] are contours of
    [h0] with their points and their parent. *)
Definition kept (b : nat) (h0 h : gmap nat vpContour) : Prop :=
  forall p c, p <> b -> h !! p = Some c ->
    exists c0, h0 !! p = Some c0 /\
      m_points c = m_points c0 /\ m_parent c = m_parent c0.

Lemma kept_refl b h : kept b h h.
Proof. intros p c _ Hp. eauto. Qed.

Lemma kept_trans b h1 h2 h3 : kept b h1 h2 -> kept b h2 h3 -> kept b h1 h3.
Proof.
  intros H12 H23 p c3 Hne Hp.
  destruct (H23 p c3 Hne Hp) as (c2 & Hc2 & Hpts2 & Hpar2).
  destruct (H12 p c2 Hne Hc2) as (c1 & Hc1 & Hpts1 & Hpar1).
  exists c1. split_and!; [done|congruence|congruence].
Qed.

Lemma kept_insert_self b h c : kept b h (<[b := c]> h).
Proof.
  intros p c' Hne Hp. rewrite lookup_insert_ne in Hp by done. eauto.
Qed.

Lemma kept_delete b h p : kept b h (delete p h).
Proof.
  intros p' c' Hne Hp. apply lookup_delete_Some in Hp as [_ Hp]. eauto.
Qed.

Lemma kept_children b h p c l :
  h !! p = Some c -> kept b h (<[p := with_children c l]> h).
Proof.
  intros Hp p' c' Hne Hp'.
  apply lookup_insert_Some in Hp' as [[<- <-]|[_ Hp']]; eauto.
Qed.

Lemma kept_setParent b h parent h' :
  setParent h b parent = Ret h' -> kept b h h'.
Proof.
  unfold setParent. intros H.
  destruct (h !! b) as [c|] eqn:Hb; [|done].
  destruct parent as [p|]; [|done].
  destruct (<[b:=with_parent c (Some p)]> h !! p) as [pc|] eqn:Hpc; [|done].
  injection H as <-.
  eapply kept_trans; [apply kept_insert_self|]. by apply kept_children.
Qed.

Lemma kept_removeParent b h parent h' :
  removeParent h b parent = Ret h' -> kept b h h'.
Proof.
  unfold removeParent. intros H.
  destruct (h !! b) as [c|] eqn:Hb; [|done].
  destruct parent as [p|].
  - destruct (<[b:=with_parent c None]> h !! p) as [pc|] eqn:Hpc; [|done].
    injection H as <-.
    eapply kept_trans; [apply kept_insert_self|]. by apply kept_children.
  - done.
Qed.

Lemma kept_update b h f h' : update h b f = Ret h' -> kept b h h'.
Proof.
  unfold update. intros H. destruct (h !! b); [|done].
  injection H as <-. apply kept_insert_self.
Qed.

Lemma kept_link (outer : bool)
    (f : gmap nat vpContour -> nat -> option nat -> result (gmap nat vpContour))
    b h bp h' :
  (forall h1 t h2, f h1 b t = Ret h2 -> kept b h1 h2) ->
  (if outer then link_outer f h b bp else link_hole f h b bp) = Ret h' ->
  kept b h h'.
Proof.
  intros Hf H. unfold link_outer, link_hole in H.
  destruct (h !! bp) as [c|]; [|by destruct outer].
  destruct outer, (m_contourType c);
    try (by eapply Hf); injection H as <-; apply kept_refl.
Qed.

(** After the call of [followBorder] the other contours are kept, and the
    contour of the start is still there only when its border was followed;
    it then holds the points of the border. *)
Lemma after_followBorder_kept i j isOuter isHole border bp st
    followed I1 pts st' :
  after_followBorder i j isOuter isHole border bp st (Ret (followed, I1, pts))
  = Ret st' ->
  kept border (heap st) (heap st') /\
  forall cb, heap st' !! border = Some cb ->
    followed = true /\ (pts <> [] -> m_points cb = pts).
Proof.
  intros Hafter. unfold after_followBorder in Hafter. simpl in Hafter.
  destruct followed.
  - destruct (match pts with
              | [] => (set I1 i j (- nbd st), [(i, j)])
              | _ :: _ => (I1, pts)
              end) as [I2 pts2] eqn:Hpts.
    apply bind_Ret in Hafter as (h3 & Hup & Hret). injection Hret as <-. simpl.
    split; [by eapply kept_update|].
    intros cb Hcb. split; [done|]. intros Hne.
    unfold update in Hup. destruct (heap st !! border) as [c|]; [|done].
    injection Hup as <-. rewrite lookup_insert_eq in Hcb. injection Hcb as <-.
    simpl. destruct pts; [done|]. by injection Hpts as _ <-.
  - apply bind_Ret in Hafter as (h3 & Hup & Hafter).
    apply bind_Ret in Hafter as (h4 & Hrm1 & Hafter).
    apply bind_Ret in Hafter as (h5 & Hrm2 & Hret).
    injection Hret as <-. simpl. split.
    + eapply kept_trans; [by eapply kept_update|].
      eapply (kept_trans _ _ h4).
      { destruct isOuter.
        - eapply (kept_link true); [|done]. intros. by eapply kept_removeParent.
        - injection Hrm1 as <-. apply kept_refl. }
      eapply (kept_trans _ _ h5); [|apply kept_delete].
      destruct isHole.
      * eapply (kept_link false); [|done]. intros. by eapply kept_removeParent.
      * injection Hrm2 as <-. apply kept_refl.
    + intros cb Hcb. by rewrite lookup_delete_eq in Hcb.
Qed.








(** *** The first point of a contour *)

(** What a border start leaves: the other contours with their points,
    their parent and their kind, and a new contour that either has no
    point or begins with the start pixel. *)
Lemma start_border_outcome I0 fuel i j fji (isOuter isHole : bool) st st' :
  fits I0 -> trace_inv I0 st -> get (I st) i j <> 0 ->
  start_border fuel i j fji isOuter isHole st = Ret st' ->
  kept (next st) (heap st) (heap st') /\
  kinds_kept
    (<[next st := with_type new_contour
                    (if isOuter then CONTOUR_OUTER else CONTOUR_HOLE)]>
       (heap st)) (heap st') /\
  forall cb, heap st' !! next st = Some cb ->
    m_points cb = [] \/ head (m_points cb) = Some (i, j).
Proof.
  intros Hfits (Hsup & Hnbd & _) Hfg Hstart. unfold start_border in Hstart.
  set (border := next st) in *.
  pose proof Hsup as (Hwf & Hh & Hw & Hz).
  assert (Hfits' : fits (I st)) by (unfold fits in *; by rewrite Hh, Hw).
  assert (Hin : inside (I st) i j) by (by apply get_nonzero_inside).
  assert (Hup : forall K, update (<[border := new_contour]> (heap st)) border
                  (fun c => with_type c K)
                = Ret (<[border := with_type new_contour K]> (heap st))).
  { intros K. unfold update. rewrite lookup_insert_eq.
    by rewrite insert_insert_eq. }
  assert (Htail : forall K bp h2 lnbd1 from,
            kept border (heap st) h2 ->
            kinds_kept (<[border := with_type new_contour K]> (heap st)) h2 ->
            after_followBorder i j isOuter isHole border bp
              (mkScan (I st) (nbd st + 1) lnbd1 h2 (S border) (borderMap st))
              (followBorder fuel (I st) (i, j) from [] (nbd st + 1)) = Ret st' ->
            kept border (heap st) (heap st') /\
            kinds_kept (<[border := with_type new_contour K]> (heap st))
              (heap st') /\
            forall cb, heap st' !! border = Some cb ->
              m_points cb = [] \/ head (m_points cb) = Some (i, j)).
  { intros K bp h2 lnbd1 from Hk2 Hkk2 Hafter.
    pose proof (kinds_kept_after_followBorder _ _ _ _ _ _ _ _ _ Hafter) as Hkk.
    simpl in Hkk.
    destruct (followBorder fuel (I st) (i, j) from [] (nbd st + 1))
      as [[[followed I1] pts]| | |] eqn:Hfollow; try done.
    apply followBorder_trace in Hfollow
      as (_ & new & Hpts & _ & _ & Hclosed); try done; [|lia].
    simpl in Hpts. subst pts.
    apply after_followBorder_kept in Hafter as [Hk' Hb]. simpl in Hk', Hb.
    split_and!.
    - by eapply kept_trans.
    - by eapply kinds_kept_trans.
    - intros cb Hcb. destruct (Hb cb Hcb) as [-> Hpts].
      destruct (Hclosed eq_refl) as (Hhead & Hlen & _).
      right. rewrite Hpts; [done|]. intros ->. simpl in Hlen. lia. }
  destruct isOuter.
  - rewrite Hup in Hstart. simpl in Hstart.
    destruct (borderMap st !! lnbd st) as [bp|] eqn:Hkey.
    + apply bind_Ret in Hstart as (h2 & Hlink & Hafter).
      eapply (Htail CONTOUR_OUTER bp h2); [| |exact Hafter].
      * eapply kept_trans; [apply kept_insert_self|].
        eapply (kept_link true); [|exact Hlink].
        intros. by eapply kept_setParent.
      * eapply (kinds_kept_link true); [|exact Hlink].
        intros. by eapply kinds_kept_setParent.
    + injection Hstart as <-. simpl. split_and!.
      * apply kept_insert_self.
      * apply kinds_kept_refl.
      * intros cb Hcb. rewrite lookup_insert_eq in Hcb. injection Hcb as <-.
        by left.
  - destruct (borderMap st !! (if 1 <? fji then fji else lnbd st))
      as [bp|] eqn:Hkey.
    + rewrite Hup in Hstart. simpl in Hstart.
      apply bind_Ret in Hstart as (h2 & Hlink & Hafter).
      eapply (Htail CONTOUR_HOLE bp h2); [| |exact Hafter].
      * eapply kept_trans; [apply kept_insert_self|].
        eapply (kept_link false); [|exact Hlink].
        intros. by eapply kept_setParent.
      * eapply (kinds_kept_link false); [|exact Hlink].
        intros. by eapply kinds_kept_setParent.
    + injection Hstart as <-. simpl. split_and!.
      * apply kept_insert_self.
      * apply kinds_kept_refl.
      * intros cb Hcb. rewrite lookup_insert_eq in Hcb. injection Hcb as <-.
        by left.
Qed.

(** The side of the first point of a contour that the input leaves to the
    background: the west side for an Outer contour, the east side
    otherwise. *)
Definition start_side (I0 : vpImage) (c : vpContour) : Prop :=
  forall p, head (m_points c) = Some p ->
    match m_contourType c with
    | CONTOUR_OUTER => p.2 = 0 \/ get I0 p.1 (p.2 - 1) = 0
    | _ => p.2 = getWidth I0 - 1 \/ get I0 p.1 (p.2 + 1) = 0
    end.

Definition start_side_inv (I0 : vpImage) (st : scan) : Prop :=
  trace_inv I0 st /\ forall p c, heap st !! p = Some c -> start_side I0 c.

Lemma scan_pixel_start_side I0 fuel i j st st' :
  fits I0 -> start_side_inv I0 st -> scan_pixel fuel i j st = Ret st' ->
  start_side_inv I0 st'.
Proof.
  intros Hfits [Htr Hside] Hpix.
  split; [by eapply scan_pixel_trace|].
  unfold scan_pixel in Hpix.
  apply bind_Ret in Hpix as (st1 & Hstart & Hl).
  assert (H1 : forall p c, heap st1 !! p = Some c -> start_side I0 c).
  { destruct (isOuterBorderStart (I st) i j || isHoleBorderStart (I st) i j)
      eqn:Hs; [|by injection Hstart as <-].
    pose proof Htr as ((_ & _ & Hw & Hz) & _).
    assert (Hfg : get (I st) i j <> 0).
    { unfold isOuterBorderStart, isHoleBorderStart in Hs.
      apply orb_true_iff in Hs as [Hs|Hs]; apply andb_true_iff in Hs as [Hs _].
      - apply Z.eqb_eq in Hs. lia.
      - apply Z.leb_le in Hs. lia. }
    destruct (start_border_outcome I0 fuel i j _ _ _ st st1 Hfits Htr Hfg Hstart)
      as (Hk & Hkk & Hb).
    intros p c Hp. destruct (decide (p = next st)) as [->|Hne].
    - destruct (Hkk _ _ Hp) as (c0 & Hc0 & Hkind).
      rewrite lookup_insert_eq in Hc0. injection Hc0 as <-. simpl in Hkind.
      intros q Hq. destruct (Hb c Hp) as [Hnil|Hhead]; [by rewrite Hnil in Hq|].
      rewrite Hhead in Hq. injection Hq as <-. rewrite Hkind. simpl.
      destruct (isOuterBorderStart (I st) i j) eqn:Ho.
      + unfold isOuterBorderStart in Ho.
        apply andb_true_iff in Ho as [_ Ho].
        apply orb_true_iff in Ho as [Ho|Ho]; apply Z.eqb_eq in Ho.
        * by left.
        * right. by apply Hz.
      + simpl in Hs. unfold isHoleBorderStart in Hs.
        apply andb_true_iff in Hs as [_ Hs].
        apply orb_true_iff in Hs as [Hs|Hs]; apply Z.eqb_eq in Hs.
        * left. by rewrite <- Hw.
        * right. by apply Hz.
    - destruct (Hk p c Hne Hp) as (c0 & Hc0 & Hpts & _).
      destruct (Hkk _ _ Hp) as (c1 & Hc1 & Hkind).
      rewrite lookup_insert_ne in Hc1 by done.
      rewrite Hc0 in Hc1. injection Hc1 as <-.
      pose proof (Hside p c0 Hc0) as Hs0. unfold start_side in *.
      rewrite Hpts, Hkind. exact Hs0. }
  destruct (negb (get (I st) i j =? 0) && negb (get (I st) i j =? 1));
    injection Hl as <-; done.
Qed.

Lemma scan_row_start_side I0 fuel i st st' :
  fits I0 -> start_side_inv I0 st -> scan_row fuel i st = Ret st' ->
  start_side_inv I0 st'.
Proof.
  intros Hfits Hinv Hrow. unfold scan_row in Hrow.
  eapply (for_each_Ret (start_side_inv I0)); [| |exact Hrow].
  - intros k s1 s2. by apply scan_pixel_start_side.
  - destruct Hinv as [(? & ? & ?) ?]. by split_and!.
Qed.

(** X14.  Whenever [extractContours] returns on a well-formed, non-empty
    raster (dimensions within [unsigned int]), the first point of every
    contour that has points is a border start of its kind: for an Outer
    contour the pixel west of it is background in the input, or it lies in
    column 0; for a Hole contour the pixel east of it is background, or it
    lies in the last column. *)
Theorem contour_first_point_side (fuel : nat) (c c' : caller)
    (x : nat) (cx : vpContour) (p : vpImagePoint) :
  wf_image (arg_I_original c) -> fits (arg_I_original c) ->
  getSize (arg_I_original c) <> 0 ->
  extractContours fuel c = Ret c' ->
  arg_heap c' !! x = Some cx -> head (m_points cx) = Some p ->
  (m_contourType cx = CONTOUR_OUTER /\
   (p.2 = 0 \/ get (arg_I_original c) p.1 (p.2 - 1) = 0)) \/
  (m_contourType cx = CONTOUR_HOLE /\
   (p.2 = getWidth (arg_I_original c) - 1 \/
    get (arg_I_original c) p.1 (p.2 + 1) = 0)).
Proof.
  intros Hwf Hfits Hsz Hex Hx Hp.
  pose proof (extractContours_shape fuel c c' Hsz Hex) as (_ & Hkinds & _).
  unfold extractContours in Hex.
  apply Z.eqb_neq in Hsz. rewrite Hsz in Hex. rewrite image_eta in Hex.
  apply bind_Ret in Hex as (st & Hscan & Hret).
  assert (Hinv : start_side_inv (arg_I_original c) st).
  { eapply (for_each_Ret (start_side_inv (arg_I_original c)));
      [| |exact Hscan].
    - intros k s1 s2. by apply scan_row_start_side.
    - split; [split_and!|]; simpl.
      + by apply same_support_refl.
      + done.
      + intros q c0 Hq. apply lookup_singleton_Some in Hq as [_ <-].
        apply closed_border_nil.
      + intros q c0 Hq. apply lookup_singleton_Some in Hq as [_ <-].
        intros q' Hq'. done. }
  destruct Hinv as [_ Hside].
  destruct (heap st !! root) as [r0|] eqn:Hroot; [|done].
  injection Hret as <-. simpl in *.
  pose proof (Hkinds x cx Hx) as Hkind.
  apply lookup_delete_Some in Hx as [_ Hx].
  pose proof (Hside x cx Hx p Hp) as Hs.
  destruct Hkind as [Hk|Hk]; rewrite Hk in Hs; [by left|by right].
Qed.

Lemma contour_first_point_side_witness :
  wf_image (arg_I_original on_ring) /\ fits (arg_I_original on_ring) /\
  getSize (arg_I_original on_ring) <> 0 /\
  extractContours 100 on_ring = Ret on_ring_result /\
  arg_heap on_ring_result !! 2%nat = Some ring_hole /\
  head (m_points ring_hole) = Some (1, 0) /\
  ((m_contourType ring_hole = CONTOUR_OUTER /\
    ((1, 0).2 = 0 \/ get (arg_I_original on_ring) (1, 0).1 ((1, 0).2 - 1) = 0)) \/
   (m_contourType ring_hole = CONTOUR_HOLE /\
    ((1, 0).2 = getWidth (arg_I_original on_ring) - 1 \/
     get (arg_I_original on_ring) (1, 0).1 ((1, 0).2 + 1) = 0))).
Proof.
  assert (Hx : arg_heap on_ring_result !! 2%nat = Some ring_hole)
    by (vm_compute; reflexivity).
  assert (Hp : head (m_points ring_hole) = Some (1, 0))
    by (vm_compute; reflexivity).
  split; [exact ring_well_formed|]. split; [exact ring_fits|].
  split; [exact on_ring_size|]. split; [exact on_ring_returns|].
  split; [exact Hx|]. split; [exact Hp|].
  exact (contour_first_point_side 100 on_ring on_ring_result 2 ring_hole (1, 0)
           ring_well_formed ring_fits on_ring_size on_ring_returns Hx Hp).
Defined.

(** *** The probe of one neighbour *)

(** X16.  At a pixel of a raster whose dimensions are within
    [unsigned int], [vpDirection::active] in one of the eight compass
    directions returns the neighbour in that direction when the neighbour
    lies in the raster and its sample is not a multiple of 256 (the sample
    is narrowed to [unsigned char] before the test), and the invalid point
    (-1, -1) in every other case: a neighbour outside the raster, whose
    coordinate wraps around as [unsigned int], is never read. *)
Theorem active_neighbour (d : vpDirectionType) (I : vpImage)
    (p : vpImagePoint) :
  fits I -> inside I p.1 p.2 -> d <> LAST_DIRECTION ->
  (inside I (step d p).1 (step d p).2 /\
   get I (step d p).1 (step d p).2 mod 256 <> 0 ->
   active d I p = step d p) /\
  (~ inside I (step d p).1 (step d p).2 \/
   get I (step d p).1 (step d p).2 mod 256 = 0 ->
   active d I p = no_point).
Proof.
  intros [Hfh Hfw] [Hi Hj] Hd. unfold active, step, u8.
  destruct (offsets_range d) as [Hry Hrx].
  set (dy := at_index diry (dir_index d)) in *.
  set (dx := at_index dirx (dir_index d)) in *.
  cbn [fst snd].
  assert (Hpow : 2 ^ 32 = 4294967296) by reflexivity.
  assert (Hpow8 : 2 ^ 8 = 256) by reflexivity.
  rewrite Hpow8.
  assert (Hy : (p.1 + dy = -1 /\ u32 (p.1 + dy) = 2 ^ 32 - 1) \/
               (0 <= p.1 + dy /\ u32 (p.1 + dy) = p.1 + dy)).
  { destruct (decide (p.1 + dy = -1)) as [->|].
    - left. split; [done|]. apply u32_minus_one.
    - right. split; [lia|]. apply u32_small. lia. }
  assert (Hx : (p.2 + dx = -1 /\ u32 (p.2 + dx) = 2 ^ 32 - 1) \/
               (0 <= p.2 + dx /\ u32 (p.2 + dx) = p.2 + dx)).
  { destruct (decide (p.2 + dx = -1)) as [->|].
    - left. split; [done|]. apply u32_minus_one.
    - right. split; [lia|]. apply u32_small. lia. }
  unfold inside.
  destruct ((u32 (p.2 + dx) <? 0) || (getWidth I <=? u32 (p.2 + dx))
            || (u32 (p.1 + dy) <? 0) || (getHeight I <=? u32 (p.1 + dy)))
    eqn:Hout.
  - apply orb_true_iff in Hout as [Hout|Hout];
      [apply orb_true_iff in Hout as [Hout|Hout];
       [apply orb_true_iff in Hout as [Hout|Hout]|]|].
    + apply Z.ltb_lt in Hout. split; [|done]. intros [[_ ?] _].
      destruct Hx as [[? ?]|[? ?]]; lia.
    + apply Z.leb_le in Hout. split; [|done]. intros [[_ ?] _].
      destruct Hx as [[? ?]|[? ?]]; lia.
    + apply Z.ltb_lt in Hout. split; [|done]. intros [[? _] _].
      destruct Hy as [[? ?]|[? ?]]; lia.
    + apply Z.leb_le in Hout. split; [|done]. intros [[? _] _].
      destruct Hy as [[? ?]|[? ?]]; lia.
  - apply orb_false_elim in Hout as [Hout Hh].
    apply orb_false_elim in Hout as [Hout _].
    apply orb_false_elim in Hout as [_ Hw].
    apply Z.leb_gt in Hh, Hw.
    destruct Hy as [[_ Hy]|[Hy0 Hy]]; [lia|].
    destruct Hx as [[_ Hx]|[Hx0 Hx]]; [lia|].
    rewrite Hy, Hx in *.
    destruct (get I (p.1 + dy) (p.2 + dx) mod 256 =? 0) eqn:Hz; simpl.
    + apply Z.eqb_eq in Hz. split; [|done]. intros [_ ?]. done.
    + apply Z.eqb_neq in Hz. split; [done|]. intros [Ho|Ho]; [|done].
      exfalso. apply Ho. lia.
Qed.

Lemma active_neighbour_witness :
  (inside (image_of [[1; 256]]) (step EAST (0, 0)).1 (step EAST (0, 0)).2 /\
   get (image_of [[1; 256]]) (step EAST (0, 0)).1 (step EAST (0, 0)).2
     mod 256 <> 0 ->
   active EAST (image_of [[1; 256]]) (0, 0) = step EAST (0, 0)) /\
  (~ inside (image_of [[1; 256]]) (step EAST (0, 0)).1 (step EAST (0, 0)).2 \/
   get (image_of [[1; 256]]) (step EAST (0, 0)).1 (step EAST (0, 0)).2
     mod 256 = 0 ->
   active EAST (image_of [[1; 256]]) (0, 0) = no_point).
Proof.
  apply (active_neighbour EAST (image_of [[1; 256]]) (0, 0)).
  - split; reflexivity.
  - split; simpl; lia.
  - discriminate.
Defined.

End Contour.

(** ** Properties shared by the three operations *)

Section Calls.
Import Image.

(** Callers whose output arguments hold earlier results and whose input
    image is empty. *)
Definition stale_labels_call : Labeling.caller :=
  Labeling.mkCaller Labeling.empty_image (mkImage 1 1 [[5]]) 7.

Definition stale_contour_call : Contour.caller :=
  Contour.mkCaller Labeling.empty_image Contour.stale_contour ∅.

Definition blank_labels_call : Labeling.caller :=
  Labeling.mkCaller Labeling.empty_image Labeling.empty_image 0.

Definition blank_contour_call : Contour.caller :=
  Contour.fresh_caller Labeling.empty_image.

(** C4, as stated, fails: on an empty input image the operations return
    without touching their outputs, so a caller that passes a label raster
    [[5]], a count of 7 and a contour with a child and a point finds them
    again after the call: the results are not empty and the count is not
    zero. *)
Lemma empty_input_keeps_stale_outputs :
  getSize (Labeling.arg_I stale_labels_call) = 0 /\
  Labeling.connectedComponents stale_labels_call Labeling.CONNECTED_CONNEXITY_4
  = Some stale_labels_call /\
  Labeling.connectedComponents2 stale_labels_call Labeling.CONNECTED_CONNEXITY_4
  = Some stale_labels_call /\
  rows (Labeling.arg_labels stale_labels_call) = [[5]] /\
  Labeling.arg_nbComponents stale_labels_call = 7 /\
  Contour.extractContours 1 stale_contour_call = Contour.Ret stale_contour_call /\
  Contour.m_children (Contour.arg_contour stale_contour_call) = [7%nat] /\
  Contour.m_points (Contour.arg_contour stale_contour_call) = [(3, 4)].
Proof. repeat split; vm_compute; reflexivity. Qed.

(** C4, amended.  On a zero-sized input image each of the three operations
    returns at once, without error, and leaves its output arguments (the
    contour, the label raster and the component count) exactly as the
    caller passed them. *)
Theorem empty_input_returns_unchanged
    (c : Labeling.caller) (connexity : Labeling.vpConnectedConnexityType)
    (fuel : nat) (cc : Contour.caller) :
  getSize (Labeling.arg_I c) = 0 ->
  getSize (Contour.arg_I_original cc) = 0 ->
  Labeling.connectedComponents c connexity = Some c /\
  Labeling.connectedComponents2 c connexity = Some c /\
  Contour.extractContours fuel cc = Contour.Ret cc.
Proof.
  intros Hc Hcc.
  unfold Labeling.connectedComponents, Labeling.connectedComponents2,
    Contour.extractContours.
  rewrite Hc, Hcc. simpl. done.
Qed.

Lemma empty_input_returns_unchanged_witness :
  getSize (Labeling.arg_I blank_labels_call) = 0 /\
  getSize (Contour.arg_I_original blank_contour_call) = 0 /\
  Labeling.connectedComponents blank_labels_call Labeling.CONNECTED_CONNEXITY_8
  = Some blank_labels_call /\
  Labeling.connectedComponents2 blank_labels_call Labeling.CONNECTED_CONNEXITY_8
  = Some blank_labels_call /\
  Contour.extractContours 0 blank_contour_call = Contour.Ret blank_contour_call.
Proof.
  split; [reflexivity|]. split; [reflexivity|].
  exact (empty_input_returns_unchanged blank_labels_call
           Labeling.CONNECTED_CONNEXITY_8 0 blank_contour_call
           eq_refl eq_refl).
Defined.

End Calls.

(** ** Histogram clipping of the CLAHE filter

    [clipHistogram] of [vpCLAHE.cpp], the integer part of the contrast
    limited equalisation: entries above [limit] are cut down to it and the
    excess is spread over the bins, round after round, until a round cuts
    as much as the one before. *)

Module Clahe.

(** Outcome of a call: the clipped histogram; an operation the source
    leaves undefined (a division by zero, an access past the end of a
    vector); or the bound that the model puts on the rounds was reached. *)
Inductive outcome :=
  | Clipped (clippedHist : list Z)
  | Undefined
  | Unfinished.

(** Conversion of an [unsigned int] or a [size_t] to [int]. *)
Definition s32 (z : Z) : Z :=
  let r := z mod 2 ^ 32 in if r <? 2 ^ 31 then r else r - 2 ^ 32.

(** [v[i]] for an index inside the vector. *)
Definition at_index (v : list Z) (i : Z) : Z := default 0 (v !! Z.to_nat i).

(** [for (cpt = 0; cpt < histlength; cpt++) clippedHist[cpt] = hist[cpt]]. *)
Definition copy_hist (histlength : Z) (hist clippedHist : list Z) : list Z :=
  foldl (fun ch cpt => <[Z.to_nat cpt := at_index hist cpt]> ch)
        clippedHist (seqZ 0 histlength).

(** The clipping loop.  [clippedHist[i] - limit] is computed in
    [unsigned int] and converted to [int]. *)
Definition clip_entry (limit : Z) (st : list Z * Z) (i : Z) : list Z * Z :=
  let d := s32 (at_index st.1 i - limit) in
  if 0 <? d then (<[Z.to_nat i := s32 limit]> st.1, st.2 + d) else st.

Definition clip_entries (limit histlength : Z) (clippedHist : list Z)
  : list Z * Z :=
  foldl (clip_entry limit) (clippedHist, 0) (seqZ 0 histlength).

(** [for (i = 0; i < histlength; i++) clippedHist[i] += d]. *)
Definition add_to_all (d histlength : Z) (clippedHist : list Z) : list Z :=
  foldl (fun ch i => <[Z.to_nat i := at_index ch i + d]> ch)
        clippedHist (seqZ 0 histlength).

(** [for (i = s / 2; i < histlength; i += s) ++clippedHist[i]]. *)
Fixpoint spread (fuel : nat) (i s histlength : Z) (clippedHist : list Z)
  : outcome :=
  match fuel with
  | O => Unfinished
  | S fuel' =>
      if i <? histlength then
        if i <? 0 then Undefined
        else spread fuel' (i + s) s histlength
               (<[Z.to_nat i := at_index clippedHist i + 1]> clippedHist)
      else Clipped clippedHist
  end.

(** The [do ... while (clippedEntries != clippedEntriesBefore)] loop. *)
Fixpoint clip_rounds (fuel : nat) (limit histlength : Z)
    (clippedHist : list Z) (clippedEntriesBefore : Z) : outcome :=
  match fuel with
  | O => Unfinished
  | S fuel' =>
      let '(ch, clippedEntries) := clip_entries limit histlength clippedHist in
      if histlength =? 0 then Undefined
      else
        let d := clippedEntries ÷ histlength in
        let m := Z.rem clippedEntries histlength in
        let ch := add_to_all d histlength ch in
        let spreaded :=
          if negb (m =? 0) then
            let s := (histlength - 1) ÷ m in
            spread (S (Z.to_nat histlength)) (s ÷ 2) s histlength ch
          else Clipped ch in
        match spreaded with
        | Clipped ch =>
            if negb (clippedEntries =? clippedEntriesBefore)
            then clip_rounds fuel' limit histlength ch clippedEntries
            else Clipped ch
        | other => other
        end
  end.

(** [clipHistogram(hist, clippedHist, limit)]; the result is [clippedHist]
    as the call leaves it.  [fuel] bounds the number of rounds. *)
Definition clipHistogram (fuel : nat) (hist clippedHist : list Z) (limit : Z)
  : outcome :=
  let histlength := s32 (Z.of_nat (length hist)) in
  if (length clippedHist <? length hist)%nat then Undefined
  else clip_rounds fuel limit histlength
         (copy_hist histlength hist clippedHist) 0.

Lemma s32_small z : - 2 ^ 31 <= z < 2 ^ 31 -> s32 z = z.
Proof.
  intros Hz. unfold s32.
  assert (Hp : 2 ^ 32 = 2 * 2 ^ 31) by reflexivity.
  destruct (decide (0 <= z)).
  - rewrite Z.mod_small by lia.
    destruct (z <? 2 ^ 31) eqn:Hlt; [done|]. apply Z.ltb_ge in Hlt. lia.
  - replace (z mod 2 ^ 32) with (z + 2 ^ 32).
    + destruct (z + 2 ^ 32 <? 2 ^ 31) eqn:Hlt; [|lia].
      apply Z.ltb_lt in Hlt. lia.
    + apply Z.mod_unique with (q := -1); lia.
Qed.

Lemma seqZ_snoc (n : nat) :
  seqZ 0 (Z.of_nat (S n)) = seqZ 0 (Z.of_nat n) ++ [Z.of_nat n].
Proof.
  replace (Z.of_nat (S n)) with (Z.of_nat n + 1) by lia.
  rewrite seqZ_app by lia. by rewrite Z.add_0_l.
Qed.

(** Copying [hist] over the front of [clippedHist]. *)
Lemma copy_hist_take hist clippedHist (n : nat) :
  (n <= length hist)%nat -> (n <= length clippedHist)%nat ->
  copy_hist (Z.of_nat n) hist clippedHist = take n hist ++ drop n clippedHist.
Proof.
  unfold copy_hist. induction n as [|n IH]; intros Hh Hc.
  { done. }
  rewrite seqZ_snoc, foldl_app. simpl. rewrite IH by lia.
  rewrite Nat2Z.id.
  destruct (lookup_lt_is_Some_2 hist n) as [x Hx]; [lia|].
  destruct (lookup_lt_is_Some_2 clippedHist n) as [y Hy]; [lia|].
  unfold at_index. rewrite Nat2Z.id, Hx. simpl.
  rewrite (take_S_r _ _ _ Hx), (drop_S _ _ _ Hy).
  rewrite insert_app_r_alt by (rewrite length_take; lia).
  rewrite length_take. replace (n - n `min` length hist)%nat with 0%nat by lia.
  simpl. by rewrite <- app_assoc.
Qed.

(** A round that finds no entry above the limit cuts nothing. *)
Lemma clip_entries_within limit (n : nat) ch :
  0 <= limit < 2 ^ 31 ->
  (forall k x, (k < n)%nat -> ch !! k = Some x -> 0 <= x <= limit) ->
  clip_entries limit (Z.of_nat n) ch = (ch, 0).
Proof.
  intros Hlim. unfold clip_entries. induction n as [|n IH]; intros Hin; [done|].
  rewrite seqZ_snoc, foldl_app. simpl. rewrite IH
    by (intros k x Hk Hx; apply (Hin k x); [lia|done]).
  unfold clip_entry, at_index. simpl. rewrite Nat2Z.id.
  destruct (ch !! n) as [x|] eqn:Hx; simpl.
  - pose proof (Hin n x ltac:(lia) Hx) as Hr.
    rewrite s32_small by lia.
    destruct (0 <? x - limit) eqn:Hd; [|done]. apply Z.ltb_lt in Hd. lia.
  - rewrite s32_small by lia.
    destruct (0 <? 0 - limit) eqn:Hd; [|done]. apply Z.ltb_lt in Hd. lia.
Qed.

Lemma add_to_all_zero (n : nat) ch :
  add_to_all 0 (Z.of_nat n) ch = ch.
Proof.
  unfold add_to_all. induction n as [|n IH]; [done|].
  rewrite seqZ_snoc, foldl_app. simpl. rewrite IH.
  unfold at_index. rewrite Nat2Z.id.
  destruct (ch !! n) as [x|] eqn:Hx; simpl.
  - apply list_insert_id. rewrite Hx. f_equal. lia.
  - apply list_insert_ge. by apply lookup_ge_None.
Qed.

(** X17.  When no entry of a non-empty histogram is above the limit (the
    entries are counts, the limit is below [2^31], and [clippedHist] is
    at least as long as [hist]), [clipHistogram] returns after a single
    round and [clippedHist] holds the entries of [hist] unchanged,
    followed by whatever it held beyond them. *)
Theorem clipHistogram_within_limit (fuel : nat) (hist clippedHist : list Z)
    (limit : Z) :
  hist <> [] -> (length hist <= length clippedHist)%nat ->
  Z.of_nat (length hist) < 2 ^ 31 -> 0 <= limit < 2 ^ 31 ->
  Forall (fun x => 0 <= x <= limit) hist ->
  clipHistogram (S fuel) hist clippedHist limit
  = Clipped (hist ++ drop (length hist) clippedHist).
Proof.
  intros Hne Hlen Hsize Hlim Hall. unfold clipHistogram.
  destruct (length clippedHist <? length hist)%nat eqn:Hlt;
    [apply Nat.ltb_lt in Hlt; lia|].
  rewrite s32_small by lia.
  rewrite copy_hist_take by lia. rewrite firstn_all.
  cbn [clip_rounds].
  rewrite clip_entries_within; [|done|].
  - assert (Hn0 : Z.of_nat (length hist) <> 0) by (destruct hist; [done|simpl; lia]).
    apply Z.eqb_neq in Hn0. rewrite Hn0.
    rewrite Z.quot_0_l, Z.rem_0_l by (by apply Z.eqb_neq).
    simpl. by rewrite add_to_all_zero.
  - intros k x Hk Hx. rewrite lookup_app_l in Hx by done.
    rewrite Forall_forall in Hall. apply Hall.
    by eapply list_elem_of_lookup_2.
Qed.

Lemma clipHistogram_within_limit_witness :
  clipHistogram 1 [3; 0; 2] [9; 9; 9; 9] 3 = Clipped [3; 0; 2; 9].
Proof.
  apply (clipHistogram_within_limit 0 [3; 0; 2] [9; 9; 9; 9] 3).
  - discriminate.
  - simpl. lia.
  - reflexivity.
  - split; [lia|reflexivity].
  - repeat constructor; lia.
Defined.

End Clahe.

(** ** The images of a call as objects of a store

    The operations take their input image by [const] reference and write
    to local images and to their output arguments.  Here the image objects
    live in a store and every function that receives an image by reference
    receives its address: a read is [rd], a write to a sample is [wr], and
    a local image is an object at an address that is not in use.  The
    functions that only read an image are those of the modules above,
    applied to the object read from the store. *)

Module Memory.
Import Image.

(** Addresses and stores of image objects. *)
Abbreviation loc := nat (only parsing).
Abbreviation mem := (gmap nat vpImage) (only parsing).

(** The object at an address (the empty image where there is none). *)
Definition rd (m : mem) (l : loc) : vpImage := default (mkImage 0 0 []) (m !! l).

(** [I[i][j] = v] for the image [I] at address [l]. *)
Definition wr (m : mem) (l : loc) (i j v : Z) : mem :=
  <[l := set (rd m l) i j v]> m.

(** The address of a new local object. *)
Definition alloc (m : mem) : loc := fresh (dom m).

(** *** The labellers *)

(** [visitNeighbors], with [I_copy] and [labels] the addresses of the
    images passed by reference. *)
Fixpoint visitNeighbors_loop (fuel : nat) (m : mem) (I_copy : loc)
    (listOfNeighbors : list Labeling.vpImagePoint) (labels : loc)
    (current_label : Z) (connexity : Labeling.vpConnectedConnexityType)
  : option mem :=
  match fuel with
  | O => None
  | S fuel' =>
      match listOfNeighbors with
      | [] => Some m
      | (i, j) :: rest =>
          if negb (get (rd m I_copy) i j =? 0)
          then
            let q := Labeling.getNeighbors (rd m I_copy) rest i j connexity in
            let m := wr m I_copy i j 0 in
            let m := wr m labels i j current_label in
            visitNeighbors_loop fuel' m I_copy q labels current_label connexity
          else
            visitNeighbors_loop fuel' m I_copy rest labels current_label
              connexity
      end
  end.

Definition visitNeighbors (m : mem) (I_copy : loc)
    (listOfNeighbors : list Labeling.vpImagePoint) (labels : loc)
    (current_label : Z) (connexity : Labeling.vpConnectedConnexityType)
  : option mem :=
  visitNeighbors_loop (Labeling.visit_bound (rd m I_copy) listOfNeighbors)
    m I_copy listOfNeighbors labels current_label connexity.

(** Body of the double loop of [connectedComponents]; the state is the
    store and [current_label]. *)
Definition expand_pixel (I_copy labels_copy : loc)
    (connexity : Labeling.vpConnectedConnexityType) (cpt1 cpt2 : Z)
    (st : mem * Z) : option (mem * Z) :=
  let i := cpt1 + 1 in
  let j := cpt2 + 1 in
  if negb (get (rd st.1 I_copy) i j =? 0) && (get (rd st.1 labels_copy) i j =? 0)
  then
    let q := Labeling.getNeighbors (rd st.1 I_copy) [] i j connexity in
    let m := wr st.1 I_copy i j 0 in
    let m := wr m labels_copy i j st.2 in
    match visitNeighbors m I_copy q labels_copy st.2 connexity with
    | Some m => Some (m, st.2 + 1)
    | None => None
    end
  else Some st.

(** [connectedComponents(I, labels, nbComponents, connexity)]: [I] and
    [labels] are the addresses of the caller's images; the result is the
    store and [nbComponents] after the call.  [labels.resize] replaces the
    object at [labels]; the working copies are local objects, gone when
    the call returns. *)
Definition connectedComponents (m : mem) (I labels : loc) (nbComponents : Z)
    (connexity : Labeling.vpConnectedConnexityType) : option (mem * Z) :=
  if getSize (rd m I) =? 0 then Some (m, nbComponents)
  else
    let m := <[labels := make (getHeight (rd m I)) (getWidth (rd m I)) 0]> m in
    let I_copy := alloc m in
    let m := <[I_copy := Labeling.add_border (rd m I)]> m in
    let labels_copy := alloc m in
    let m := <[labels_copy :=
                 make (getHeight (rd m I) + 2) (getWidth (rd m I) + 2) 0]> m in
    match Labeling.for_loop (getHeight (rd m I))
            (fun cpt1 => Labeling.for_loop (getWidth (rd m I))
               (fun cpt2 => expand_pixel I_copy labels_copy connexity cpt1 cpt2))
            (m, 1) with
    | Some (m, current_label) =>
        let m := <[labels :=
                     Labeling.remove_border (getHeight (rd m labels))
                       (getWidth (rd m labels)) (rd m labels_copy)]> m in
        Some (delete I_copy (delete labels_copy m), current_label - 1)
    | None => None
    end.

(** The state of the first pass of [connectedComponents2]: the store,
    [current_label] and [equivalent_labels]. *)
Record pass_state := mkPass {
  p_mem : mem;
  p_current_label : Z;
  equivalent_labels : gmap Z (gset Z)
}.

Definition first_pass_pixel (I_copy labels_copy : loc)
    (connexity : Labeling.vpConnectedConnexityType) (cpt1 cpt2 : Z)
    (st : pass_state) : option pass_state :=
  let i := cpt1 + 1 in
  let j := cpt2 + 1 in
  if negb (get (rd (p_mem st) I_copy) i j =? 0)
  then
    let neighbor_labels :=
      Labeling.getNeighborLabels (rd (p_mem st) I_copy)
        (rd (p_mem st) labels_copy) i j connexity in
    match Labeling.set_elements neighbor_labels with
    | [] =>
        let cl := p_current_label st in
        Some (mkPass (wr (p_mem st) labels_copy i j cl) (cl + 1)
                (<[cl := {[cl]} ∪ Labeling.at_key (equivalent_labels st) cl]>
                   (equivalent_labels st)))
    | smallest_label :: _ =>
        Some (mkPass (wr (p_mem st) labels_copy i j smallest_label)
                (p_current_label st)
                (foldl (fun e it =>
                          <[it := Labeling.at_key e it ∪ neighbor_labels]> e)
                   (equivalent_labels st)
                   (Labeling.set_elements neighbor_labels)))
    end
  else Some st.

Definition second_pass_pixel (I_copy labels_copy : loc)
    (e : gmap Z (gset Z)) (cpt1 cpt2 : Z) (m : mem) : option mem :=
  let i := cpt1 + 1 in
  let j := cpt2 + 1 in
  if negb (get (rd m I_copy) i j =? 0)
  then Some (wr m labels_copy i j
               (Labeling.set_begin
                  (Labeling.at_key e (get (rd m labels_copy) i j))))
  else Some m.

Definition connectedComponents2 (m : mem) (I labels : loc) (nbComponents : Z)
    (connexity : Labeling.vpConnectedConnexityType) : option (mem * Z) :=
  if getSize (rd m I) =? 0 then Some (m, nbComponents)
  else
    let m := <[labels := make (getHeight (rd m I)) (getWidth (rd m I)) 0]> m in
    let I_copy := alloc m in
    let m := <[I_copy := Labeling.add_border (rd m I)]> m in
    let labels_copy := alloc m in
    let m := <[labels_copy :=
                 make (getHeight (rd m I) + 2) (getWidth (rd m I) + 2) 0]> m in
    match Labeling.for_loop (getHeight (rd m I))
            (fun cpt1 => Labeling.for_loop (getWidth (rd m I))
               (fun cpt2 =>
                  first_pass_pixel I_copy labels_copy connexity cpt1 cpt2))
            (mkPass m 1 ∅) with
    | Some st =>
        let e := Labeling.merge_equivalences (equivalent_labels st) in
        let m := p_mem st in
        match Labeling.for_loop (getHeight (rd m I))
                (fun cpt1 => Labeling.for_loop (getWidth (rd m I))
                   (fun cpt2 => second_pass_pixel I_copy labels_copy e cpt1 cpt2))
                m with
        | Some m =>
            let m := <[labels :=
                         Labeling.remove_border (getHeight (rd m labels))
                           (getWidth (rd m labels)) (rd m labels_copy)]> m in
            Some (delete I_copy (delete labels_copy m),
                  p_current_label st - 1)
        | None => None
        end
    | None => None
    end.

(** *** Reads and writes *)








(** *** The store functions compute what the functions on values compute *)


Section TwoCells.
Variables (m : mem) (lc ll : loc).
Hypothesis distinct : lc <> ll.












End TwoCells.





(** *** The contour tracer *)

(** [addContourPoint], with [I] the address of the image passed by
    reference: the store and the points of the border after it. *)
Definition addContourPoint (m : mem) (I : loc)
    (m_points : list Contour.vpImagePoint) (point : Contour.vpImagePoint)
    (checked : list bool) (nbd : Z) : mem * list Contour.vpImagePoint :=
  let pts := m_points ++ [point] in
  let i := Contour.u32 point.1 in
  let j := Contour.u32 point.2 in
  if Contour.crossesEastBorder (rd m I) checked point
  then (wr m I i j (- nbd), pts)
  else if get (rd m I) i j =? 1 then (wr m I i j nbd, pts)
  else (m, pts).

(** The [while (true)] loop of [followBorder]. *)
Fixpoint walk (fuel : nat) (m : mem) (I : loc)
    (ij i1j1 i2j2 i3j3 : Contour.vpImagePoint)
    (m_points : list Contour.vpImagePoint) (nbd : Z)
  : Contour.result (bool * gmap nat vpImage * list Contour.vpImagePoint) :=
  match fuel with
  | O => Contour.Timeout
  | S fuel' =>
      match Contour.fromTo i3j3 i2j2 with
      | None => Contour.Throw Contour.fatalError_i3j3_eq_i2j2
      | Some dir =>
          let trace := Contour.counterClockwise dir in
          Contour.bind
            (Contour.probe 8 (rd m I) i3j3 trace (replicate 8 false))
            (fun '(problem, i4j4, checked) =>
               if problem then Contour.Ret (false, m, m_points)
               else
                 let '(m', pts) :=
                   addContourPoint m I m_points i3j3 checked nbd in
                 if bool_decide (i4j4 = ij) && bool_decide (i3j3 = i1j1)
                 then Contour.Ret (true, m', pts)
                 else walk fuel' m' I ij i1j1 i3j3 i4j4 pts nbd)
      end
  end.

Definition followBorder (fuel : nat) (m : mem) (I : loc)
    (ij i2j2 : Contour.vpImagePoint) (m_points : list Contour.vpImagePoint)
    (nbd : Z)
  : Contour.result (bool * gmap nat vpImage * list Contour.vpImagePoint) :=
  match Contour.fromTo ij i2j2 with
  | None => Contour.Throw Contour.fatalError_ij_eq_i2j2
  | Some dir =>
      Contour.bind
        (Contour.first_active 8 (rd m I) ij dir (Contour.clockwise dir))
        (fun i1j1 =>
           if (i1j1.1 <? 0) || (i1j1.2 <? 0)
           then Contour.Ret (false, m, m_points)
           else walk fuel m I ij i1j1 i1j1 ij m_points nbd)
  end.

(** The variables of the raster scan of [extractContours], with the store
    in the place of the working image. *)
Record scan := mkScan {
  images : gmap nat vpImage;
  nbd : Z;
  lnbd : Z;
  heap : gmap nat Contour.vpContour;
  next : nat;
  borderMap : gmap Z nat
}.

(** What follows the call of [followBorder]; [I] is the address of the
    working image. *)
Definition after_followBorder (I : loc) (i j : Z) (isOuter isHole : bool)
    (border borderPrime : nat) (st : scan)
    (r : Contour.result (bool * gmap nat vpImage * list Contour.vpImagePoint))
  : Contour.result scan :=
  Contour.bind r (fun '(followed, m1, pts) =>
    if followed then
      let '(m2, pts2) :=
        match pts with
        | [] => (wr m1 I i j (- nbd st), [(i, j)])
        | _ => (m1, pts)
        end in
      Contour.bind
        (Contour.update (heap st) border
           (fun c => Contour.with_points c pts2)) (fun h =>
      Contour.Ret (mkScan m2 (nbd st) (lnbd st) h (next st)
                     (<[nbd st := border]> (borderMap st))))
    else
      let m2 := wr m1 I i j (- nbd st) in
      Contour.bind
        (Contour.update (heap st) border
           (fun c => Contour.with_points c [])) (fun h =>
      Contour.bind
        (if isOuter
         then Contour.link_outer Contour.removeParent h border borderPrime
         else Contour.Ret h) (fun h =>
      Contour.bind
        (if isHole
         then Contour.link_hole Contour.removeParent h border borderPrime
         else Contour.Ret h) (fun h =>
      Contour.Ret (mkScan m2 (nbd st) (lnbd st) (delete border h) (next st)
                     (borderMap st)))))).

(** The body of [if (isOuter || isHole)]. *)
Definition start_border (fuel : nat) (I : loc) (i j fji : Z)
    (isOuter isHole : bool) (st : scan) : Contour.result scan :=
  let border := next st in
  let h := <[border := Contour.new_contour]> (heap st) in
  let nbd1 := nbd st + 1 in
  if isOuter then
    let from := (i, j - 1) in
    Contour.bind
      (Contour.update h border
         (fun c => Contour.with_type c Contour.CONTOUR_OUTER)) (fun h =>
    match borderMap st !! lnbd st with
    | Some borderPrime =>
        Contour.bind
          (Contour.link_outer Contour.setParent h border borderPrime) (fun h =>
        let st1 :=
          mkScan (images st) nbd1 (lnbd st) h (S border) (borderMap st) in
        after_followBorder I i j isOuter isHole border borderPrime st1
          (followBorder fuel (images st) I (i, j) from [] nbd1))
    | None =>
        Contour.Ret
          (mkScan (images st) nbd1 (lnbd st) h (S border) (borderMap st))
    end)
  else
    let lnbd1 := if 1 <? fji then fji else lnbd st in
    match borderMap st !! lnbd1 with
    | Some borderPrime =>
        let from := (i, j + 1) in
        Contour.bind
          (Contour.update h border
             (fun c => Contour.with_type c Contour.CONTOUR_HOLE)) (fun h =>
        Contour.bind
          (Contour.link_hole Contour.setParent h border borderPrime) (fun h =>
        let st1 :=
          mkScan (images st) nbd1 lnbd1 h (S border) (borderMap st) in
        after_followBorder I i j isOuter isHole border borderPrime st1
          (followBorder fuel (images st) I (i, j) from [] nbd1)))
    | None =>
        Contour.Ret
          (mkScan (images st) nbd1 lnbd1 h (S border) (borderMap st))
    end.

(** The body of the double loop at [(i, j)]. *)
Definition scan_pixel (fuel : nat) (I : loc) (i j : Z) (st : scan)
  : Contour.result scan :=
  let fji := get (rd (images st) I) i j in
  let isOuter := Contour.isOuterBorderStart (rd (images st) I) i j in
  let isHole := Contour.isHoleBorderStart (rd (images st) I) i j in
  Contour.bind
    (if isOuter || isHole
     then start_border fuel I i j fji isOuter isHole st
     else Contour.Ret st)
    (fun st =>
       if negb (fji =? 0) && negb (fji =? 1)
       then Contour.Ret (mkScan (images st) (nbd st) (Z.abs fji) (heap st)
                           (next st) (borderMap st))
       else Contour.Ret st).

Definition scan_row (fuel : nat) (I : loc) (i : Z) (st : scan)
  : Contour.result scan :=
  Contour.for_each (getWidth (rd (images st) I)) (scan_pixel fuel I i)
    (mkScan (images st) (nbd st) 1 (heap st) (next st) (borderMap st)).

Definition initial_scan (m : mem) : scan :=
  mkScan m 1 1 {[Contour.root := Contour.new_contour_of Contour.CONTOUR_HOLE]}
    1 {[1 := Contour.root]}.

(** [extractContours(I_original, contour)]: [I_original] is the address of
    the caller's image; [contour] and [h] are the output contour and the
    contours it points to.  The working image [I] is a local object that
    receives the samples of [I_original]; it is gone when the call
    returns. *)
Definition extractContours (fuel : nat) (m : mem) (I_original : loc)
    (contour : Contour.vpContour) (h : gmap nat Contour.vpContour)
  : Contour.result
      (gmap nat vpImage * Contour.vpContour * gmap nat Contour.vpContour) :=
  if getSize (rd m I_original) =? 0 then Contour.Ret (m, contour, h)
  else
    let I := alloc m in
    let m := <[I := mkImage (getHeight (rd m I_original))
                      (getWidth (rd m I_original))
                      (rows (rd m I_original))]> m in
    Contour.bind
      (Contour.for_each (getHeight (rd m I)) (scan_row fuel I)
         (initial_scan m)) (fun st =>
    match heap st !! Contour.root with
    | None => Contour.Fault
    | Some r =>
        Contour.Ret (delete I (images st), r, delete Contour.root (heap st))
    end).

(** *** The tracer on the store follows the tracer on values *)



Section OneCell.
Variables (m : gmap nat vpImage) (l : nat).










End OneCell.


(** *** The caller's image after a call *)






End Memory.
